(** * Incremental ingestion of the Yinzcam realtime API into the data lake

    A shallow embedding of [get_data_by_id.py]: the paginated fetcher
    [get_data], the watermark resolver [get_max_id_adl], the checkpoint
    writer [push_to_adl], the timestamp formatter [get_right_format] and the
    run driver [main], followed by the properties of the ingestion engine.

    Python values are modelled as follows.
    - Integers are [Z]; the float [nan] that pandas returns for the maximum of
      an empty column is the constructor [NaN] of [pynum].
    - A [str] is a [string] (its UTF-8 bytes), [bytes] is [list byte].
    - A pandas [DataFrame] is a list of column names and a list of rows; a
      cell is an integer, a text or a missing value.  Floating point,
      boolean and nested JSON cells are outside the model, and so is the
      row index, which [to_csv(index=False)] never writes.
    - An exception is a value [Raise e] of the [result] monad.
    - The remote API is a function from the requests issued so far and the
      current request to a response; the data lake is the list of its
      files, the most recently written first.
    - A command of the driver is a function from the world (the lake, the
      requests sent, the standard output) to a result and a world.

    Left out, as they act on nothing that the properties speak of: the
    logging calls and the [verbose] flag, the reading of the configuration
    and of the credentials, and the optional plot of [main], which writes
    below the [figure_checks] directory only.

    The loop of [get_data] ends, and is defined by well-founded recursion;
    the loop of [main] need not end, and takes the number of turns it may
    make. *)

From Stdlib Require Import ZArith Lia.
From Stdlib Require Import Strings.Ascii Strings.String Strings.Byte.
From Equations Require Import Equations.
From stdpp Require Import base option list strings sorting pretty.

Local Open Scope string_scope.
Local Open Scope list_scope.
Local Open Scope Z_scope.

(** ** Exceptions *)

Inductive exn : Type :=
  | KeyError (key : string)
  | AttributeError (attr : string)
  | ValueError (what : string)
  | TypeError (what : string)
  | EmptyDataError
  | ParserError
  | FileNotFoundError (path : string).

Inductive result (A : Type) : Type :=
  | Ok (a : A)
  | Raise (e : exn).
Arguments Ok {A} a.
Arguments Raise {A} e.

#[global] Instance result_ret : MRet result := fun A a => Ok a.
#[global] Instance result_bind : MBind result := fun A B f m =>
  match m with
  | Ok a => f a
  | Raise e => Raise e
  end.

(** [mapR f l] runs [f] on the elements of [l] from left to right and stops
    at the first exception. *)
Fixpoint mapR {A B} (f : A -> result B) (l : list A) : result (list B) :=
  match l with
  | [] => Ok []
  | x :: l' => y ← f x; ys ← mapR f l'; Ok (y :: ys)
  end.

(** ** Characters *)

Definition LF : ascii := "010"%char.
Definition CR : ascii := "013"%char.
Definition DQUOTE : ascii := "034"%char.
Definition COMMA : ascii := ","%char.

Definition digit_of (c : ascii) : option Z :=
  let n := Z.of_N (Ascii.N_of_ascii c) in
  if (48 <=? n) && (n <=? 57) then Some (n - 48) else None.

(** [digits_value acc s] reads [s] as a run of decimal digits. *)
Fixpoint digits_value (acc : Z) (s : string) : option Z :=
  match s with
  | EmptyString => Some acc
  | String c s' =>
      match digit_of c with
      | Some d => digits_value (10 * acc + d) s'
      | None => None
      end
  end.

(** [int(s)] for the plain literals: an optional sign and decimal digits. *)
Definition parse_int (s : string) : option Z :=
  match s with
  | EmptyString => None
  | String "-" EmptyString | String "+" EmptyString => None
  | String "-" s' => Z.opp <$> digits_value 0 s'
  | String "+" s' => digits_value 0 s'
  | _ => digits_value 0 s
  end.

(** ** Numbers that may be [nan] *)

Inductive pynum : Type :=
  | NaN
  | Int (z : Z).

#[global] Instance pynum_eq_dec : EqDecision pynum.
Proof. solve_decision. Defined.

(** [x + 1]: [nan + 1] is [nan]. *)
Definition succ (x : pynum) : pynum :=
  match x with
  | NaN => NaN
  | Int z => Int (z + 1)
  end.

(** [str(x)] *)
Definition str (x : pynum) : string :=
  match x with
  | NaN => "nan"
  | Int z => pretty z
  end.

(** [max()] of an integer column; [nan] when the column is empty. *)
Definition maxZ (l : list Z) : pynum :=
  match l with
  | [] => NaN
  | z :: l' => Int (fold_left Z.max l' z)
  end.

Definition minZ (l : list Z) : pynum :=
  match l with
  | [] => NaN
  | z :: l' => Int (fold_left Z.min l' z)
  end.

(** ** Data frames *)

Inductive cell : Type :=
  | CInt (z : Z)
  | CStr (s : string)
  | CNaN.

#[global] Instance cell_eq_dec : EqDecision cell.
Proof. solve_decision. Defined.

Record DataFrame : Type := mkDF {
  columns : list string;
  rows : list (list cell)
}.

#[global] Instance DataFrame_eq_dec : EqDecision DataFrame.
Proof. solve_decision. Defined.

(** [len(df)] *)
Definition len (df : DataFrame) : Z := Z.of_nat (length (rows df)).

(** Position of a column label. *)
Fixpoint index_of (c : string) (cols : list string) : option nat :=
  match cols with
  | [] => None
  | c' :: cols' => if decide (c' = c) then Some 0%nat else S <$> index_of c cols'
  end.

(** The cell of row [r] under label [c], missing when the frame has no such
    column. *)
Definition cell_at (cols : list string) (r : list cell) (c : string) : cell :=
  match index_of c cols with
  | Some i => default CNaN (r !! i)
  | None => CNaN
  end.

(** The frame laid out on the labels [cols]. *)
Definition reindex (cols : list string) (df : DataFrame) : DataFrame :=
  {| columns := cols;
     rows := map (fun r => map (cell_at (columns df) r) cols) (rows df) |}.

(** [df.c]: the column labelled [c]. *)
Definition column (c : string) (df : DataFrame) : result (list cell) :=
  match index_of c (columns df) with
  | Some i => Ok (map (fun r => default CNaN (r !! i)) (rows df))
  | None => Raise (AttributeError c)
  end.

(** [int(x)] on one cell of a column under [astype(int)]. *)
Definition int_of_cell (x : cell) : result Z :=
  match x with
  | CInt z => Ok z
  | CStr s =>
      match parse_int s with
      | Some z => Ok z
      | None => Raise (ValueError s)
      end
  | CNaN => Raise (ValueError "cannot convert float NaN to integer")
  end.

(** [df.id.astype(int)] *)
Definition id_astype_int (df : DataFrame) : result (list Z) :=
  cells ← column "id" df; mapR int_of_cell cells.

(** [df[cols]]: a missing label raises [KeyError]. *)
Definition select (cols : list string) (df : DataFrame) : result DataFrame :=
  match filter (fun c => c ∉ columns df) cols with
  | [] => Ok (reindex cols df)
  | c :: _ => Raise (KeyError c)
  end.

(** The labels of [pd.concat(dfs, axis=0)]: those of the first frame, then
    the new ones of each later frame, in order of appearance. *)
Fixpoint union_columns (acc : list string) (dfs : list DataFrame) : list string :=
  match dfs with
  | [] => acc
  | df :: dfs' =>
      union_columns (acc ++ filter (fun c => c ∉ acc) (columns df)) dfs'
  end.

(** [pd.concat(dfs, axis=0)] *)
Definition concat (dfs : list DataFrame) : DataFrame :=
  let cols := union_columns [] dfs in
  {| columns := cols;
     rows := flat_map (fun df => rows (reindex cols df)) dfs |}.

(** [drop_duplicates(keep='last')] on the rows: a row stays when no equal
    row follows it. *)
Fixpoint drop_last_dups (rs : list (list cell)) : list (list cell) :=
  match rs with
  | [] => []
  | r :: rs' =>
      if decide (r ∈ rs') then drop_last_dups rs' else r :: drop_last_dups rs'
  end.

Definition drop_duplicates (df : DataFrame) : DataFrame :=
  {| columns := columns df; rows := drop_last_dups (rows df) |}.

(** [df.id = df.id.astype(int)] *)
Definition set_id_int (df : DataFrame) : result DataFrame :=
  ids ← id_astype_int df;
  match index_of "id" (columns df) with
  | Some i =>
      Ok {| columns := columns df;
            rows := zip_with (fun r z => <[i := CInt z]> r) (rows df) ids |}
  | None => Raise (AttributeError "id")
  end.

(** ** CSV text *)

Definition special (c : ascii) : bool :=
  bool_decide (c = COMMA) || bool_decide (c = DQUOTE)
  || bool_decide (c = LF) || bool_decide (c = CR).

Fixpoint needs_quote (s : string) : bool :=
  match s with
  | EmptyString => false
  | String c s' => special c || needs_quote s'
  end.

Fixpoint escape_quotes (s : string) : string :=
  match s with
  | EmptyString => EmptyString
  | String c s' =>
      if decide (c = DQUOTE)
      then String DQUOTE (String DQUOTE (escape_quotes s'))
      else String c (escape_quotes s')
  end.

(** One field under minimal quoting. *)
Definition csv_field (s : string) : string :=
  if needs_quote s
  then String DQUOTE (escape_quotes s +:+ String DQUOTE EmptyString)
  else s.

(** One line; a record whose only field is empty is written quoted. *)
Definition csv_record (fields : list string) : string :=
  match fields with
  | [EmptyString] => String DQUOTE (String DQUOTE (String LF EmptyString))
  | _ => String.concat "," (map csv_field fields) +:+ String LF EmptyString
  end.

Definition cell_text (x : cell) : string :=
  match x with
  | CInt z => pretty z
  | CStr s => s
  | CNaN => ""
  end.

(** [df.to_csv(index = False)]: the header line, then one line per row. *)
Definition to_csv (df : DataFrame) : string :=
  csv_record (columns df)
  +:+ String.concat "" (map (fun r => csv_record (map cell_text r)) (rows df)).

(** [str.encode(s)] *)
Definition encode (s : string) : list byte := list_byte_of_string s.

(** The tokenizer of [pd.read_csv]: [inq] is set inside a quoted field,
    [started] once the current line has a character, [cur] is the current
    field in reverse, [row] the fields of the current line in reverse and
    [out] the finished lines in reverse.  Blank lines are skipped. *)
Fixpoint tokenize (s : string) (inq started : bool) (cur : string)
    (row : list string) (out : list (list string)) : list (list string) :=
  match s with
  | EmptyString =>
      reverse (if started then reverse (String.rev cur :: row) :: out else out)
  | String c s' =>
      if inq then
        if decide (c = DQUOTE) then
          match s' with
          | String c2 s'' =>
              if decide (c2 = DQUOTE)
              then tokenize s'' true true (String DQUOTE cur) row out
              else tokenize s' false true cur row out
          | EmptyString => tokenize s' false true cur row out
          end
        else tokenize s' true true (String c cur) row out
      else if decide (c = DQUOTE) then tokenize s' true true cur row out
      else if decide (c = COMMA) then
        tokenize s' false true EmptyString (String.rev cur :: row) out
      else if decide (c = LF) then
        tokenize s' false false EmptyString []
          (if started then reverse (String.rev cur :: row) :: out else out)
      else if decide (c = CR) then
        match s' with
        | String c2 _ =>
            if decide (c2 = LF)
            then tokenize s' false started cur row out
            else tokenize s' false false EmptyString []
                   (if started then reverse (String.rev cur :: row) :: out
                    else out)
        | EmptyString => tokenize s' false started cur row out
        end
      else tokenize s' false true (String c cur) row out
  end.

(** The value read from one field. *)
Definition infer (s : string) : cell :=
  if decide (s = "") then CNaN
  else match parse_int s with
       | Some z => CInt z
       | None => CStr s
       end.

(** [pd.read_csv(f)]: the first line is the header; an empty file and a
    line with more fields than the header are errors; a short line is
    filled with missing values. *)
Definition read_csv (b : list byte) : result DataFrame :=
  match tokenize (string_of_list_byte b) false false EmptyString [] [] with
  | [] => Raise EmptyDataError
  | header :: data =>
      let n := length header in
      if forallb (fun r => bool_decide (length r <= n)%nat) data
      then Ok {| columns := header;
                 rows := map (fun r => map infer (take n (r ++ replicate n ""))) data |}
      else Raise ParserError
  end.

(** ** The data lake store *)

(** The files of the store, the most recently written first. *)
Abbreviation adl := (list (string * list byte)) (only parsing).

(** [remove_prefix p s] is [Some r] when [s = p ++ r]. *)
Fixpoint remove_prefix (p s : string) : option string :=
  match p with
  | EmptyString => Some s
  | String a p' =>
      match s with
      | EmptyString => None
      | String b s' => if decide (a = b) then remove_prefix p' s' else None
      end
  end.

Fixpoint has_slash (s : string) : bool :=
  match s with
  | EmptyString => false
  | String c s' => bool_decide (c = "/"%char) || has_slash s'
  end.

(** The path names an entry lying directly in directory [dir]. *)
Definition entry_of (dir path : string) : bool :=
  match remove_prefix (dir +:+ "/") path with
  | Some name => negb (bool_decide (name = "")) && negb (has_slash name)
  | None => false
  end.

(** The path lies somewhere below directory [dir]. *)
Definition below (dir path : string) : bool :=
  match remove_prefix (dir +:+ "/") path with
  | Some name => negb (bool_decide (name = ""))
  | None => false
  end.

(** [adlsFileSystemClient.exists(dir)]: a directory exists once a file was
    written below it. *)
Definition adl_exists (dir : string) (fs : adl) : bool :=
  existsb (fun e => below dir e.1) fs.

(** [adlsFileSystemClient.listdir(dir)] *)
Definition adl_listdir (dir : string) (fs : adl) : list string :=
  map fst (filter (fun e => entry_of dir e.1 = true) fs).

(** Reading a file opened with mode ['rb']. *)
Fixpoint adl_read (path : string) (fs : adl) : result (list byte) :=
  match fs with
  | [] => Raise (FileNotFoundError path)
  | (p, b) :: fs' => if decide (p = path) then Ok b else adl_read path fs'
  end.

(** Writing a file opened with mode ['wb']: the file is created or
    replaced, and becomes the most recently written one. *)
Definition adl_write (path : string) (b : list byte) (fs : adl) : adl :=
  (path, b) :: filter (fun e => e.1 <> path) fs.

(** ** Run timestamps *)

(** Days from 1970-01-01 to the given date of the proleptic Gregorian
    calendar, and back. *)
Definition days_from_civil (y m d : Z) : Z :=
  let y' := if m <=? 2 then y - 1 else y in
  let era := y' / 400 in
  let yoe := y' - era * 400 in
  let mp := (m + 9) mod 12 in
  let doy := (153 * mp + 2) / 5 + d - 1 in
  let doe := yoe * 365 + yoe / 4 - yoe / 100 + doy in
  era * 146097 + doe - 719468.

Definition civil_from_days (days : Z) : Z * Z * Z :=
  let z := days + 719468 in
  let era := z / 146097 in
  let doe := z - era * 146097 in
  let yoe := (doe - doe / 1460 + doe / 36524 - doe / 146096) / 365 in
  let doy := doe - (365 * yoe + yoe / 4 - yoe / 100) in
  let mp := (5 * doy + 2) / 153 in
  let d := doy - (153 * mp + 2) / 5 + 1 in
  let m := if mp <? 10 then mp + 3 else mp - 9 in
  let y := yoe + era * 400 in
  (if m <=? 2 then y + 1 else y, m, d).

(** Day of the week, Sunday being 0. *)
Definition weekday (days : Z) : Z := (days + 4) mod 7.

(** The first Sunday on or after the given date. *)
Definition sunday_from (y m d : Z) : Z :=
  let d0 := days_from_civil y m d in
  d0 + (7 - weekday d0) mod 7.

(** [tz.gettz('America/Toronto')]: the offset from UTC, in seconds, at the
    instant [utc] (seconds since 1970-01-01T00:00:00Z), by the rule of the
    zone in force since 2007: daylight time from the second Sunday of March
    02:00 EST to the first Sunday of November 02:00 EDT. *)
Definition to_zone (utc : Z) : Z :=
  let '(y, _, _) := civil_from_days (utc / 86400) in
  let dst_start := sunday_from y 3 8 * 86400 + 7 * 3600 in
  let dst_end := sunday_from y 11 1 * 86400 + 6 * 3600 in
  if (dst_start <=? utc) && (utc <? dst_end) then -4 * 3600 else -5 * 3600.

(** Reading [n] decimal digits, and one expected character. *)
Fixpoint take_digits (n : nat) (acc : Z) (s : string) : option (Z * string) :=
  match n with
  | O => Some (acc, s)
  | S n' =>
      match s with
      | EmptyString => None
      | String c s' =>
          match digit_of c with
          | Some d => take_digits n' (10 * acc + d) s'
          | None => None
          end
      end
  end.

Definition expect (c : ascii) (s : string) : option string :=
  match s with
  | EmptyString => None
  | String c' s' => if decide (c' = c) then Some s' else None
  end.

Definition days_in_month (y m : Z) : Z :=
  days_from_civil (if m =? 12 then y + 1 else y) (if m =? 12 then 1 else m + 1) 1
  - days_from_civil y m 1.

(** The directive [%z]: [Z], or a sign, two digits of hours, an optional
    colon and two digits of minutes; the result is the offset in seconds. *)
Definition parse_utcoffset (s : string) : option Z :=
  match s with
  | String "Z" EmptyString => Some 0
  | String sign s1 =>
      sgn ← (if decide (sign = "+"%char) then Some 1
             else if decide (sign = "-"%char) then Some (-1) else None);
      '(hh, s2) ← take_digits 2 0 s1;
      let s3 := default s2 (expect ":" s2) in
      '(mm, s4) ← take_digits 2 0 s3;
      if bool_decide (s4 = "") && (mm <? 60)
      then Some (sgn * (hh * 3600 + mm * 60)) else None
  | EmptyString => None
  end.

(** [datetime.strptime(time, '%Y-%m-%dT%H:%M:%S%z')] on zero-padded fields,
    as the instant in seconds since 1970-01-01T00:00:00Z. *)
Definition strptime (time : string) : option Z :=
  '(y, s) ← take_digits 4 0 time;
  s ← expect "-" s;
  '(mo, s) ← take_digits 2 0 s;
  s ← expect "-" s;
  '(d, s) ← take_digits 2 0 s;
  s ← expect "T" s;
  '(h, s) ← take_digits 2 0 s;
  s ← expect ":" s;
  '(mi, s) ← take_digits 2 0 s;
  s ← expect ":" s;
  '(sec, s) ← take_digits 2 0 s;
  off ← parse_utcoffset s;
  if (1 <=? y) && (1 <=? mo) && (mo <=? 12) && (1 <=? d)
     && (d <=? days_in_month y mo) && (h <? 24) && (mi <? 60) && (sec <? 60)
  then Some (days_from_civil y mo d * 86400 + h * 3600 + mi * 60 + sec - off)
  else None.

(** A number written on at least [n] digits, zero-padded. *)
Definition zfill (n : nat) (z : Z) : string :=
  let s := pretty z in
  String.concat "" (replicate (n - String.length s) "0") +:+ s.

(** [strftime('%Y-%m-%d_%H_%M_%S')] of the wall-clock time [lt], given in
    seconds since 1970-01-01T00:00:00 of the local clock. *)
Definition strftime (lt : Z) : string :=
  let '(y, m, d) := civil_from_days (lt / 86400) in
  let sod := lt mod 86400 in
  zfill 4 y +:+ "-" +:+ zfill 2 m +:+ "-" +:+ zfill 2 d +:+ "_"
  +:+ zfill 2 (sod / 3600) +:+ "_" +:+ zfill 2 (sod mod 3600 / 60)
  +:+ "_" +:+ zfill 2 (sod mod 60).

Definition get_right_format (time : string) : result string :=
  match strptime time with
  | None => Raise (ValueError time)
  | Some utc =>
      let time_est := utc + to_zone utc in
      let str_time_est := strftime time_est in
      Ok str_time_est
  end.

(** ** The remote API *)

(** A page request, [GET ...?startId=..&maxRecords=..&sortBy=id], kept as
    the two numbers that [get_data] writes into its URL. *)
Record request : Type := mkRequest {
  req_startId : pynum;
  req_maxRecords : Z
}.

#[global] Instance request_eq_dec : EqDecision request.
Proof. solve_decision. Defined.

(** The URL that [get_data] builds for a request. *)
Definition url (r : request) : string :=
  "https://mlse-analytics-api.yinzcam.com/analytics/raw/actions?startId="
  +:+ str (req_startId r) +:+ "&maxRecords=" +:+ pretty (req_maxRecords r)
  +:+ "&sortBy=id".

(** The four record sets of a page, and of a run segment. *)
Record record_sets : Type := mkSets {
  actions : DataFrame;
  sessions : DataFrame;
  geoip : DataFrame;
  hardware : DataFrame
}.

(** The value of [response.json()]: a value that Python takes for false
    (null, an empty object, ...), an object holding the four record sets,
    or any other value, which has no ['actions']. *)
Inductive json : Type :=
  | JFalsy
  | JPage (p : record_sets)
  | JOther.

(** What one [requests.get] leads to: an exception of the transport, a body
    that is not JSON, or a JSON body. *)
Inductive response : Type :=
  | TransportError
  | NotJson
  | Json (content : json).

(** The API answers a request knowing the requests made before it. *)
Definition remote_api : Type := list request -> request -> response.

(** ** The paginated fetcher *)

Definition limit : Z := 250.

(** The local variables of [get_data] at the head of its loop. *)
Record fetch_state : Type := mkFetch {
  newMaxId : pynum;
  value_count : Z;
  maxRecords : Z;
  actions_l : list DataFrame;
  sessions_l : list DataFrame;
  geoip_l : list DataFrame;
  hardware_l : list DataFrame;
  number_of_calls : Z
}.

(** What one turn of the loop of [get_data] ends in: back to the loop
    head, the [break], or an exception. *)
Inductive page_result : Type :=
  | Next (st : fetch_state)
  | Break
  | Raised (e : exn).

Section Fetcher.

Variable api : remote_api.

(** The retry loop: [retry] counts down on a timed-out call and on a body
    that does not parse, and is set to 0 by a body that parses.  The result
    is [content] and the requests made so far. *)
Fixpoint retry_loop (retry : nat) (req : request) (log : list request)
    : option json * list request :=
  match retry with
  | O => (None, log)
  | S retry' =>
      match api log req with
      | TransportError => retry_loop retry' req (log ++ [req])
      | NotJson => retry_loop retry' req (log ++ [req])
      | Json content => (Some content, log ++ [req])
      end
  end.

(** The body of the [while] loop of [get_data]. *)
Definition fetch_page (st : fetch_state) (log : list request)
    : page_result * list request :=
  let req := {| req_startId := newMaxId st; req_maxRecords := maxRecords st |} in
  let '(content, log') := retry_loop 5 req log in
  match content with
  | Some (JPage p) =>
      let n := len (actions p) in
      if 0 <? n then
        match id_astype_int (actions p) with
        | Ok ids =>
            (Next {| newMaxId := succ (maxZ ids);
                     value_count := value_count st + n;
                     maxRecords := n;
                     actions_l := actions_l st ++ [actions p];
                     sessions_l := sessions_l st ++ [sessions p];
                     geoip_l := geoip_l st ++ [geoip p];
                     hardware_l := hardware_l st ++ [hardware p];
                     number_of_calls := number_of_calls st + 1 |}, log')
        | Raise e => (Raised e, log')
        end
      else
        (Next {| newMaxId := newMaxId st;
                 value_count := value_count st;
                 maxRecords := n;
                 actions_l := actions_l st;
                 sessions_l := sessions_l st;
                 geoip_l := geoip_l st;
                 hardware_l := hardware_l st;
                 number_of_calls := number_of_calls st |}, log')
  | Some JOther => (Raised (KeyError "actions"), log')
  | Some JFalsy | None => (Break, log')
  end.

Variable max_value_count : Z.

(** The condition of the [while] loop. *)
Definition continue (st : fetch_state) : bool :=
  (limit <=? maxRecords st) && (value_count st <? max_value_count).

(** The loop ends: a page that sends it round again with a true condition
    has added at least [limit] records to [value_count].  The measure counts
    the full pages that still fit below [max_value_count]. *)
Definition fetch_measure (st : fetch_state) : nat :=
  if continue st
  then S (Z.to_nat ((max_value_count - value_count st) / limit))
  else O.

(** Matching on a value while keeping the equation that it satisfies. *)
Definition inspect {A : Type} (x : A) : {y : A | x = y} := exist _ x eq_refl.

Equations? fetch_loop (st : fetch_state) (log : list request)
    : result fetch_state * list request by wf (fetch_measure st) lt :=
  fetch_loop st log with inspect (continue st) := {
    | exist _ false _ => (Ok st, log)
    | exist _ true Hc with inspect (fetch_page st log) := {
        | exist _ (Next st', log') Hp => fetch_loop st' log'
        | exist _ (Break, log') _ => (Ok st, log')
        | exist _ (Raised e, log') _ => (Raise e, log') } }.
Proof.
  clear fetch_loop. revert Hp. unfold fetch_page, fetch_measure.
  destruct (retry_loop 5 _ log) as [[[|p|]|] l]; try discriminate.
  rewrite Hc. destruct (0 <? len (actions p)) eqn:Hn.
  - destruct (id_astype_int (actions p)); [|discriminate].
    intros [= <- <-]. unfold continue; simpl.
    destruct (_ && _) eqn:Hc'; [|lia].
    apply andb_true_iff in Hc' as [Hfull Hroom].
    apply Z.leb_le in Hfull. apply Z.ltb_lt in Hroom.
    set (x := max_value_count - value_count st).
    replace (max_value_count - (value_count st + len (actions p)))
      with (x - len (actions p)) by (unfold x; lia).
    assert ((x - len (actions p)) / limit <= (x - limit) / limit) as Hle
      by (apply Z.div_le_mono; unfold limit in *; lia).
    assert ((x - limit) / limit = x / limit - 1) as Hdiv.
    { replace (x - limit) with (x + (-1) * limit) by lia.
      rewrite Z.div_add by (unfold limit; lia). lia. }
    assert (0 <= (x - len (actions p)) / limit)
      by (apply Z.div_pos; unfold x, limit in *; lia).
    lia.
  - intros [= <- <-]. unfold continue; simpl.
    replace (limit <=? len (actions p)) with false; [simpl; lia|].
    unfold limit. lia.
Qed.

End Fetcher.

(** The local variables of [get_data] before its loop. *)
Definition get_data_init (maxId : pynum) : fetch_state :=
  {| newMaxId := succ maxId;
     value_count := 0;
     maxRecords := 250;
     actions_l := [];
     sessions_l := [];
     geoip_l := [];
     hardware_l := [];
     number_of_calls := 1 |}.

(** The value of the [return] statements of [get_data]. *)
Definition get_data_return (st : fetch_state) : Z * option record_sets :=
  if 0 <? value_count st
  then (value_count st,
        Some {| actions := concat (actions_l st);
                sessions := concat (sessions_l st);
                geoip := concat (geoip_l st);
                hardware := concat (hardware_l st) |})
  else (0, None).

(** [get_data(maxId, auth, max_value)], with the requests made before the
    call and after it. *)
Definition get_data (api : remote_api) (maxId : pynum) (max_value : Z)
    (log : list request) : result (Z * option record_sets) * list request :=
  let '(r, log') := fetch_loop api max_value (get_data_init maxId) log in
  (st ← r; Ok (get_data_return st), log').

(** ** The state of a run *)

(** What the run prints on its standard output. *)
Inductive printed : Type :=
  | PrintColumns (cols : list string)
  | PrintLine (line : string).

(** The world the driver acts on: the files of the data lake, the page
    requests sent to the API, and the standard output. *)
Record world : Type := mkWorld {
  store : adl;
  http_log : list request;
  stdout : list printed
}.

(** A command reads and updates the world, and returns or raises. *)
Definition prog (A : Type) : Type := world -> result A * world.

#[global] Instance prog_ret : MRet prog := fun A a w => (Ok a, w).
#[global] Instance prog_bind : MBind prog := fun A B f m w =>
  match m w with
  | (Ok a, w') => f a w'
  | (Raise e, w') => (Raise e, w')
  end.

Definition lift {A} (r : result A) : prog A := fun w => (r, w).

Definition print (p : printed) : prog unit := fun w =>
  (Ok tt, {| store := store w; http_log := http_log w;
             stdout := stdout w ++ [p] |}).

(** ** The watermark resolver *)

(** [sorted(l)] on strings, which Python compares by code point. *)
Definition sorted (l : list string) : list string := merge_sort String.le l.

Definition get_max_id_adl (team : string) : prog pynum := fun w =>
  let adlsFileSystemClient := store w in
  let data_lake_directory := "/yinz_cam/" +:+ team +:+ "/realtime_api/actions" in
  let listFiles :=
    if adl_exists data_lake_directory adlsFileSystemClient
    then sorted (adl_listdir data_lake_directory adlsFileSystemClient)
    else [] in
  match last listFiles with
  | Some last_file =>
      (f ← adl_read last_file adlsFileSystemClient;
       df ← read_csv f;
       ids ← id_astype_int df;
       Ok (maxZ ids), w)
  | None => (Ok (Int 0), w)
  end.

(** ** The checkpoint writer *)

Definition push_to_adl (team collection : string) (df : DataFrame)
    (currentRunTime : string) (minAct maxAct : pynum) : prog unit := fun w =>
  let data_lake_directory :=
    "/yinz_cam/" +:+ team +:+ "/realtime_api/" +:+ collection +:+ "/" in
  match get_right_format currentRunTime with
  | Raise e => (Raise e, w)
  | Ok stamp =>
      let fileName :=
        stamp +:+ "_" +:+ str minAct +:+ "_" +:+ str maxAct +:+ ".csv" in
      (Ok tt,
       {| store := adl_write (data_lake_directory +:+ fileName)
                     (encode (to_csv df)) (store w);
          http_log := http_log w;
          stdout := stdout w |})
  end.

(** ** The run driver *)

Definition MAX_RECORDS_PER_FILE : Z := 1000000.

Definition actions_cols : list string :=
  ["id"; "in_venue"; "invisible_date_time"; "request_date_time";
   "resource_major"; "resource_minor"; "session_id"; "sort_order";
   "type_major"; "type_minor"; "yinzid"].

Definition sessions_cols : list string :=
  ["actions"; "app_id"; "app_version"; "carrier"; "device_adid";
   "device_generated_id"; "device_id"; "end_date_time";
   "hardware_device_id"; "id"; "mcc"; "mdn"; "mnc"; "os_version";
   "start_date_time"].

Definition geoip_cols : list string :=
  ["city_geoname_id"; "city_name"; "continent_code"; "continent_geoname_id";
   "continent_name"; "country_code"; "country_geoname_id"; "country_name";
   "id"; "postal_code"; "session_device_generated_id"; "subdivision1_code";
   "subdivision1_geoname_id"; "subdivision1_name"; "subdivision2_code";
   "subdivision2_geoname_id"; "subdivision2_name"; "subdivision3_code";
   "subdivision3_geoname_id"; "subdivision3_name"; "subdivision4_code";
   "subdivision4_geoname_id"; "subdivision4_name"; "time_zone"].

Definition hardware_cols : list string :=
  ["id"; "manufacturer"; "model"; "platform"; "screen_width";
   "screen_height"].

(** Dropping the duplicates and organizing the columns of the four sets.
    Only the selection on the geoip set stands in a [try]: when it raises,
    the labels of the set are printed and the set is kept as it is. *)
Definition normalize (dfs : record_sets) : prog record_sets :=
  let sessions1 := drop_duplicates (sessions dfs) in
  let actions1 := drop_duplicates (actions dfs) in
  let geoip1 := drop_duplicates (geoip dfs) in
  let hardware1 := drop_duplicates (hardware dfs) in
  actions2 ← lift (select actions_cols actions1);
  sessions2 ← lift (select sessions_cols sessions1);
  geoip2 ← match select geoip_cols geoip1 with
           | Ok df => mret df
           | Raise _ => _ ← print (PrintColumns (columns geoip1)); mret geoip1
           end;
  hardware2 ← lift (select hardware_cols hardware1);
  mret {| actions := actions2; sessions := sessions2;
          geoip := geoip2; hardware := hardware2 |}.

(** [dfs[collection]] *)
Definition get_set (collection : string) (dfs : record_sets) : result DataFrame :=
  if decide (collection = "actions") then Ok (actions dfs)
  else if decide (collection = "sessions") then Ok (sessions dfs)
  else if decide (collection = "geoip") then Ok (geoip dfs)
  else if decide (collection = "hardware") then Ok (hardware dfs)
  else Raise (KeyError collection).

(** The [for] loop over the collections. *)
Fixpoint push_all (team currentRunTime : string) (dfs : record_sets)
    (minAct maxAct : pynum) (collections : list string) : prog unit :=
  match collections with
  | [] => mret tt
  | collection :: rest =>
      _ ← print (PrintLine ("Pushing " +:+ collection +:+ " to ADL"));
      df ← lift (get_set collection dfs);
      _ ← push_to_adl team collection df currentRunTime minAct maxAct;
      push_all team currentRunTime dfs minAct maxAct rest
  end.

(** The branch [num_of_records > 0] of the loop body: the identifier range
    of the actions, the normal form of the four sets, the four writes.
    The optional plot of the actions per month is left out. *)
Definition checkpoint (team currentRunTime : string) (dfs : option record_sets)
    : prog unit :=
  dfs ← lift (match dfs with
              | Some d => Ok d
              | None => Raise (TypeError "'NoneType' object is not subscriptable")
              end);
  actions0 ← lift (set_id_int (actions dfs));
  ids ← lift (id_astype_int actions0);
  let minAct := minZ ids in
  let maxAct := maxZ ids in
  dfs ← normalize {| actions := actions0; sessions := sessions dfs;
                     geoip := geoip dfs; hardware := hardware dfs |};
  push_all team currentRunTime dfs minAct maxAct
    ["actions"; "sessions"; "geoip"; "hardware"].

(** How one turn of the loop of [main] ends: at the end of the body after
    the writes, or in the [break]. *)
Inductive segment_end : Type :=
  | Written (num_of_records : Z)
  | NoNewRecords (num_of_records : Z).

Definition fetched (e : segment_end) : Z :=
  match e with
  | Written n => n
  | NoNewRecords n => n
  end.

Section Driver.

Variable api : remote_api.
Variables team currentRunTime : string.

(** [get_data] as a command on the world. *)
Definition call_get_data (maxId : pynum) (max_value : Z)
    : prog (Z * option record_sets) := fun w =>
  let '(r, log') := get_data api maxId max_value (http_log w) in
  (r, {| store := store w; http_log := log'; stdout := stdout w |}).

(** The body of the [while] loop of [main]. *)
Definition iteration : prog segment_end :=
  maxId ← get_max_id_adl team;
  '(num_of_records, dfs) ← call_get_data maxId MAX_RECORDS_PER_FILE;
  if 0 <? num_of_records then
    _ ← checkpoint team currentRunTime dfs;
    mret (Written num_of_records)
  else
    mret (NoNewRecords num_of_records).

(** The end of a run: the normal end, an exception, or still running when
    the turns allowed by [fuel] are used up. *)
Inductive outcome : Type :=
  | Finished (w : world)
  | Failed (e : exn) (w : world)
  | Running (w : world).

(** The [while] loop of [main], for at most [fuel] turns. *)
Fixpoint main_loop (fuel : nat) (num_of_records : Z) (w : world) : outcome :=
  if num_of_records =? MAX_RECORDS_PER_FILE then
    match fuel with
    | O => Running w
    | S fuel' =>
        match iteration w with
        | (Ok (Written n), w') => main_loop fuel' n w'
        | (Ok (NoNewRecords _), w') => Finished w'
        | (Raise e, w') => Failed e w'
        end
    end
  else Finished w.

Definition main (fuel : nat) (w : world) : outcome :=
  let num_of_records := 1000000 in
  main_loop fuel num_of_records w.

End Driver.

(** ** Notions used in the statements *)

(** The request of the page fetched in state [st]. *)
Definition page_request (st : fetch_state) : request :=
  {| req_startId := newMaxId st; req_maxRecords := maxRecords st |}.

(** An attempt that fails: the transport raised, or the body is not JSON. *)
Definition failed (r : response) : bool :=
  match r with
  | TransportError | NotJson => true
  | Json _ => false
  end.

(** [pages_to api max st log st' log']: from the loop head in state [st]
    the fetcher reaches the loop head in state [st'] after a number of
    pages that each sent it round again. *)
Inductive pages_to (api : remote_api) (max_value : Z)
    : fetch_state -> list request -> fetch_state -> list request -> Prop :=
  | pages_here st log : pages_to api max_value st log st log
  | pages_next st log st1 log1 st2 log2 :
      continue max_value st = true ->
      fetch_page api st log = (Next st1, log1) ->
      pages_to api max_value st1 log1 st2 log2 ->
      pages_to api max_value st log st2 log2.

(** ** Paths and worlds *)

(** The directory of a collection, with its final slash, and the name of
    an output unit. *)
Definition collection_directory (team collection : string) : string :=
  "/yinz_cam/" +:+ team +:+ "/realtime_api/" +:+ collection +:+ "/".

Definition file_name (stamp : string) (minAct maxAct : pynum) : string :=
  stamp +:+ "_" +:+ str minAct +:+ "_" +:+ str maxAct +:+ ".csv".

(** The world after more output, and with another store. *)
Definition with_stdout (w : world) (out : list printed) : world :=
  {| store := store w; http_log := http_log w; stdout := stdout w ++ out |}.

Definition with_store (w : world) (fs : adl) : world :=
  {| store := fs; http_log := http_log w; stdout := stdout w |}.

(** The directory that the resolver lists. *)
Definition actions_directory (team : string) : string :=
  "/yinz_cam/" +:+ team +:+ "/realtime_api/actions".

(** ** Example data

    Frames whose rows carry the identifier under [id] and the label of the
    column elsewhere, pages made of them, and small APIs. *)

Definition row_of (cols : list string) (id : Z) : list cell :=
  map (fun c => if decide (c = "id") then CInt id else CStr c) cols.

Definition frame_of (cols : list string) (ids : list Z) : DataFrame :=
  {| columns := match ids with [] => [] | _ => cols end;
     rows := map (row_of cols) ids |}.

(** A page with the given action identifiers and one row in each other set. *)
Definition page_of (ids : list Z) : record_sets :=
  {| actions := frame_of actions_cols ids;
     sessions := frame_of sessions_cols (take 1 ids);
     geoip := frame_of geoip_cols (take 1 ids);
     hardware := frame_of hardware_cols (take 1 ids) |}.

(** Two full pages, then empty pages. *)
Definition stub_api : remote_api := fun log req =>
  match req_startId req with
  | Int s => if bool_decide (length log < 2)%nat
             then Json (JPage (page_of (seqZ s (req_maxRecords req))))
             else Json (JPage (page_of []))
  | NaN => Json JFalsy
  end.

Definition empty_world : world := {| store := []; http_log := []; stdout := [] |}.

(** A start time given on the command line. *)
Definition T0 : string := "2021-12-23T17:15:09-05:00".

(** An API over a source that holds the actions with the given identifiers,
    in increasing order: it serves the first [maxRecords] of them from
    [startId] on. *)
Definition source_api (ids : list Z) : remote_api := fun _ req =>
  match req_startId req with
  | Int s =>
      Json (JPage (page_of (take (Z.to_nat (req_maxRecords req))
                              (filter (fun i => s <= i) ids))))
  | NaN => Json JFalsy
  end.

(** An API that is down. *)
Definition dead_api : remote_api := fun _ _ => TransportError.

(** A later start time. *)
Definition T1 : string := "2021-12-24T17:15:09-05:00".

(** The world at the end of a run. *)
Definition final_world (o : outcome) : world :=
  match o with
  | Finished w | Failed _ w | Running w => w
  end.

Definition finished (o : outcome) : bool :=
  match o with
  | Finished _ => true
  | _ => false
  end.

(** Three runs for one team: on an empty lake over a source of nine actions;
    with the same start time once the source holds twelve; and at a later
    start time over the same twelve. *)
Definition run1 : outcome := main (source_api (seqZ 1 9)) "mls_tor" T0 5 empty_world.
Definition run2 : outcome :=
  main (source_api (seqZ 1 12)) "mls_tor" T0 5 (final_world run1).
Definition run3 : outcome :=
  main (source_api (seqZ 1 12)) "mls_tor" T1 5 (final_world run2).

(** The identifiers in the [id] column of a file of the store. *)
Definition unit_ids (path : string) (fs : adl) : result (list Z) :=
  f ← adl_read path fs; df ← read_csv f; id_astype_int df.

(** Frames that hold the [id] column alone, and pages made of them. *)
Definition id_frame (ids : list Z) : DataFrame :=
  {| columns := ["id"]; rows := map (fun i => [CInt i]) ids |}.

Definition id_page (ids : list Z) : record_sets :=
  {| actions := id_frame ids; sessions := id_frame (take 1 ids);
     geoip := id_frame (take 1 ids); hardware := id_frame (take 1 ids) |}.

(** An API that serves one full page and then fails, by the transport and
    by the body in turn. *)
Definition flaky_api : remote_api := fun log _ =>
  match log with
  | [] => Json (JPage (id_page (seqZ 1 250)))
  | _ => if Nat.even (length log) then TransportError else NotJson
  end.

(** The state of the fetcher after the page that [flaky_api] serves. *)
Definition after_first_page : fetch_state :=
  match fetch_page flaky_api (get_data_init (Int 0)) [] with
  | (Next st, _) => st
  | _ => get_data_init (Int 0)
  end.

Definition first_request : request :=
  {| req_startId := Int 1; req_maxRecords := 250 |}.

(** A lake whose only checkpoint is an empty file, and one whose only
    checkpoint has no [id] column. *)
Definition checkpoint_path : string :=
  "/yinz_cam/mls_tor/realtime_api/actions/2021-12-23_17_15_09_1_9.csv".

Definition truncated_world : world :=
  {| store := [(checkpoint_path, [])]; http_log := []; stdout := [] |}.

Definition headless_bytes : list byte :=
  encode ("name,kind" +:+ String LF ("7,8" +:+ String LF "")).

Definition headless_world : world :=
  {| store := [(checkpoint_path, headless_bytes)]; http_log := []; stdout := [] |}.

(** The sets of a small page, and their normal form. *)
Definition small_page : record_sets := page_of [1; 2; 3].

Definition small_page_normal : record_sets :=
  match normalize small_page empty_world with
  | (Ok dfs, _) => dfs
  | _ => small_page
  end.

(** A small page whose geoip set lacks its last column. *)
Definition short_geoip_page : record_sets :=
  {| actions := actions small_page; sessions := sessions small_page;
     geoip := frame_of (removelast geoip_cols) [1];
     hardware := hardware small_page |}.

(** A frame of two actions, and the world after it is written. *)
Definition two_actions : DataFrame := frame_of actions_cols [1; 2].

Definition world_after_push : world :=
  snd (push_to_adl "mls_tor" "actions" two_actions T0 (Int 1) (Int 2) empty_world).

Definition world_after_checkpoint : world :=
  snd (checkpoint "mls_tor" T0 (Some small_page) empty_world).

(** ** Notions used in the further properties *)

(** The number of page fetches that [get_data] can still make. *)
Definition pages_left (max_value : Z) (st : fetch_state) : nat :=
  if continue max_value st
  then Z.to_nat ((max_value - value_count st + (limit - 1)) / limit)
  else O.

(** The API returns no action below the [startId] it is asked for. *)
Definition honours_startId (api : remote_api) : Prop :=
  forall log req p s ids,
    api log req = Json (JPage p) ->
    req_startId req = Int s ->
    id_astype_int (actions p) = Ok ids ->
    forall i, i ∈ ids -> s <= i.

(** The API returns no more actions than the [maxRecords] it is asked for. *)
Definition honours_maxRecords (api : remote_api) : Prop :=
  forall log req p,
    api log req = Json (JPage p) -> len (actions p) <= req_maxRecords req.

(** The identifiers of each accumulated page of actions. *)
Definition page_ids (st : fetch_state) (idss : list (list Z)) : Prop :=
  Forall2 (fun df ids => id_astype_int df = Ok ids) (actions_l st) idss.

(** Every identifier of the first list is below every one of the second. *)
Definition before (l1 l2 : list Z) : Prop :=
  forall a b, a ∈ l1 -> b ∈ l2 -> a < b.

(** The cursor and the pages of a fetch that started at the watermark [m]. *)
Definition cursor_invariant (m : Z) (st : fetch_state) : Prop :=
  exists c idss,
    newMaxId st = Int c /\ m < c /\ page_ids st idss
    /\ Forall (Forall (fun i => m < i < c)) idss
    /\ StronglySorted before idss.

(** The frame is well formed: it has a column, and every row has a cell
    under each label. *)
Definition well_formed (df : DataFrame) : Prop :=
  columns df <> [] /\ Forall (fun r => length r = length (columns df)) (rows df).

(** The text holds a carriage return.  The CSV writers of older Python
    versions leave a lone carriage return unquoted, and a unit with one does
    not read back; the properties on reading a unit back take the text to be
    free of them. *)
Fixpoint has_cr (s : string) : bool :=
  match s with
  | EmptyString => false
  | String c s' => bool_decide (c = CR) || has_cr s'
  end.

(** No text of a page of the API holds a carriage return. *)
Definition cr_free (api : remote_api) : Prop :=
  forall log req p,
    api log req = Json (JPage p) -> has_cr (to_csv (actions p)) = false.

(** The collections that [main] writes, in the order of its loop. *)
Definition collections : list string := ["actions"; "sessions"; "geoip"; "hardware"].

(** A unit that the resolver can read: it has an [id] column of integers and
    at least one row. *)
Definition readable (fs : list (string * list byte)) (p : string) : Prop :=
  exists ids, unit_ids p fs = Ok ids /\ ids <> [].

(** Every unit of the actions directory of the team is readable. *)
Definition lake_ok (team : string) (fs : list (string * list byte)) : Prop :=
  forall p, p ∈ adl_listdir (actions_directory team) fs -> readable fs p.

(** ** The period of the zone rule

    [to_zone] is the rule of the zone from 2007 on, and the zone files of
    the library end in 2037: the properties of the stamps are stated for the
    instants in between. *)

(** The instants for which [to_zone] is the rule of the zone: from
    2007-01-01T00:00:00Z to 2037-01-01T00:00:00Z. *)
Definition rule_from : Z := days_from_civil 2007 1 1 * 86400.
Definition rule_until : Z := days_from_civil 2037 1 1 * 86400.

(** The days of the wall clock over that period. *)
Definition first_day : Z := days_from_civil 2006 12 31.
Definition number_of_days : Z := days_from_civil 2037 1 1 - first_day.

(** The wall clock times of the period. *)
Definition wall_clock (lt : Z) : Prop :=
  first_day * 86400 <= lt < (first_day + number_of_days) * 86400.

(** The date of a day as one number, year then month then day. *)
Definition date_key (day : Z) : Z :=
  let '(y, m, d) := civil_from_days day in y * 10000 + m * 100 + d.

(** The first day of the year [yoe] of an era of 400 years, the years
    being counted from the first of March. *)
Definition start_of (yoe : Z) : Z := 365 * yoe + yoe / 4 - yoe / 100.

(** [s1] comes strictly before [s2] in the order of [sorted]. *)
Definition precedes (s1 s2 : string) : Prop := String.compare s1 s2 = Lt.

(** What is evaluated on each number below 100, and on each year from 2000
    to 2099: the width of the zero-padded number, and that it comes before
    the greater ones in the order of strings. *)
Definition two_digits_ok (a : Z) : bool :=
  bool_decide (String.length (zfill 2 a) = 2%nat)
  && forallb (fun b => (b <=? a)
                       || bool_decide (String.compare (zfill 2 a) (zfill 2 b) = Lt))
       (seqZ 0 100).

Definition four_digits_ok (a : Z) : bool :=
  bool_decide (String.length (zfill 4 a) = 4%nat)
  && forallb (fun b => (b <=? a)
                       || bool_decide (String.compare (zfill 4 a) (zfill 4 b) = Lt))
       (seqZ 2000 100).

(** And that [take_digits] reads the zero-padded number back. *)
Definition read_two_ok (a : Z) : bool :=
  bool_decide (take_digits 2 0 (zfill 2 a) = Some (a, "")).

Definition read_four_ok (a : Z) : bool :=
  bool_decide (take_digits 4 0 (zfill 4 a) = Some (a, "")).

(** A start time as the command line gives it: the date, [T], the time and
    the offset from UTC. *)
Definition start_time (y mo d h mi s : Z) (offset : string) : string :=
  zfill 4 y +:+ "-" +:+ zfill 2 mo +:+ "-" +:+ zfill 2 d +:+ "T"
  +:+ zfill 2 h +:+ ":" +:+ zfill 2 mi +:+ ":" +:+ zfill 2 s +:+ offset.

(** The stamp that shows the same date and time. *)
Definition stamp_of (y mo d h mi s : Z) : string :=
  zfill 4 y +:+ "-" +:+ zfill 2 mo +:+ "-" +:+ zfill 2 d +:+ "_"
  +:+ zfill 2 h +:+ "_" +:+ zfill 2 mi +:+ "_" +:+ zfill 2 s.

(** ** More example data *)

(** What [get_data] returns over a source of nine actions. *)
Definition sets_of_nine : record_sets :=
  match get_data (source_api (seqZ 1 9)) (Int 0) 1000000 [] with
  | (Ok (_, Some dfs), _) => dfs
  | _ => small_page
  end.

(** An API whose pages carry an identifier that is no number. *)
Definition bad_id_page : record_sets :=
  {| actions := {| columns := ["id"]; rows := [[CStr "x"]] |};
     sessions := id_frame [1]; geoip := id_frame [1]; hardware := id_frame [1] |}.

Definition bad_id_api : remote_api := fun _ _ => Json (JPage bad_id_page).

(** An API that serves the same small page to every request. *)
Definition small_api : remote_api := fun _ _ => Json (JPage small_page).

(** An API that answers every request with an empty JSON object. *)
Definition empty_body_api : remote_api := fun _ _ => Json JFalsy.

(** A lake whose only unit has a header line and no row. *)
Definition header_only_world : world :=
  {| store := [(checkpoint_path, encode ("id,name" +:+ String LF ""))];
     http_log := []; stdout := [] |}.

(** The world after a second checkpoint, a day later, of the actions 4
    and 5. *)
Definition world_after_second_checkpoint : world :=
  snd (checkpoint "mls_tor" T1 (Some (page_of [4; 5])) world_after_checkpoint).

(** * Properties *)

(** ** Numbers and frames *)

Lemma fold_max_spec (l : list Z) (z : Z) :
  let m := fold_left Z.max l z in
  (m = z \/ m ∈ l) /\ z <= m /\ forall i, i ∈ l -> i <= m.
Proof.
  revert z. induction l as [|x l IH]; intros z; simpl.
  - split; [by left|]. split; [lia|]. intros i Hi. by apply elem_of_nil in Hi.
  - destruct (IH (Z.max z x)) as ([Hm|Hm] & Hz & Hall).
    + split; [|split; [lia|]].
      * rewrite Hm. destruct (Z.max_spec z x) as [[_ ->]|[_ ->]]; [right; left|by left].
      * intros i [->|Hi]%elem_of_cons; [lia|by apply Hall].
    + split; [right; by right|]. split; [lia|].
      intros i [->|Hi]%elem_of_cons; [lia|by apply Hall].
Qed.

Lemma maxZ_spec (l : list Z) :
  l <> [] -> exists m, maxZ l = Int m /\ m ∈ l /\ forall i, i ∈ l -> i <= m.
Proof.
  destruct l as [|z l]; [done|]. intros _. simpl.
  destruct (fold_max_spec l z) as ([Hm|Hm] & Hz & Hall).
  - eexists; split; [done|]. split; [rewrite Hm; left|].
    intros i [->|Hi]%elem_of_cons; [done|by apply Hall].
  - eexists; split; [done|]. split; [by right|].
    intros i [->|Hi]%elem_of_cons; [done|by apply Hall].
Qed.

Lemma fold_min_spec (l : list Z) (z : Z) :
  let m := fold_left Z.min l z in
  (m = z \/ m ∈ l) /\ m <= z /\ forall i, i ∈ l -> m <= i.
Proof.
  revert z. induction l as [|x l IH]; intros z; simpl.
  - split; [by left|]. split; [lia|]. intros i Hi. by apply elem_of_nil in Hi.
  - destruct (IH (Z.min z x)) as ([Hm|Hm] & Hz & Hall).
    + split; [|split; [lia|]].
      * rewrite Hm. destruct (Z.min_spec z x) as [[_ ->]|[_ ->]]; [by left|right; left].
      * intros i [->|Hi]%elem_of_cons; [lia|by apply Hall].
    + split; [right; by right|]. split; [lia|].
      intros i [->|Hi]%elem_of_cons; [lia|by apply Hall].
Qed.

Lemma minZ_spec (l : list Z) :
  l <> [] -> exists m, minZ l = Int m /\ m ∈ l /\ forall i, i ∈ l -> m <= i.
Proof.
  destruct l as [|z l]; [done|]. intros _. simpl.
  destruct (fold_min_spec l z) as ([Hm|Hm] & Hz & Hall).
  - eexists; split; [done|]. split; [rewrite Hm; left|].
    intros i [->|Hi]%elem_of_cons; [done|by apply Hall].
  - eexists; split; [done|]. split; [by right|].
    intros i [->|Hi]%elem_of_cons; [done|by apply Hall].
Qed.

Lemma mapR_length {A B} (f : A -> result B) l ys :
  mapR f l = Ok ys -> length ys = length l.
Proof.
  revert ys. induction l as [|x l IH]; intros ys; simpl.
  - by intros [= <-].
  - destruct (f x); [|done]. simpl.
    destruct (mapR f l) as [zs|]; [|done]. simpl. intros [= <-].
    simpl. f_equal. by apply IH.
Qed.

Lemma id_astype_int_length df ids :
  id_astype_int df = Ok ids -> length ids = length (rows df).
Proof.
  unfold id_astype_int, column.
  destruct (index_of "id" (columns df)); [|done]. simpl.
  intros H%mapR_length. by rewrite H, length_map.
Qed.

Lemma select_present cols df :
  (forall c, c ∈ cols -> c ∈ columns df) -> select cols df = Ok (reindex cols df).
Proof.
  intros Hall. unfold select.
  assert (filter (fun c => c ∉ columns df) cols = []) as ->; [|done].
  induction cols as [|c cols IH]; [done|].
  rewrite filter_cons. destruct (decide (c ∉ columns df)) as [Hc|_].
  - destruct Hc. apply Hall. left.
  - apply IH. intros c' Hc'. apply Hall. by right.
Qed.

Lemma select_missing cols df c :
  c ∈ cols -> c ∉ columns df ->
  exists k, select cols df = Raise (KeyError k) /\ k ∈ cols /\ k ∉ columns df.
Proof.
  intros Hin Hout. unfold select.
  destruct (filter (fun c => c ∉ columns df) cols) as [|k l] eqn:Hf.
  - assert (c ∈ filter (fun c => c ∉ columns df) cols) as Hc
      by (apply list_elem_of_filter; done).
    rewrite Hf in Hc. by apply elem_of_nil in Hc.
  - exists k. split; [done|].
    assert (k ∈ filter (fun c => c ∉ columns df) cols) as Hk by (rewrite Hf; left).
    apply list_elem_of_filter in Hk as [? ?]. done.
Qed.

Lemma select_columns cols df df' : select cols df = Ok df' -> columns df' = cols.
Proof. unfold select. case_match; [|done]. by intros [= <-]. Qed.

Lemma select_cases cols df :
  (select cols df = Ok (reindex cols df) /\ forall c, c ∈ cols -> c ∈ columns df)
  \/ exists k, select cols df = Raise (KeyError k) /\ k ∈ cols /\ k ∉ columns df.
Proof.
  destruct (decide (Forall (fun c => c ∈ columns df) cols)) as [Hall|Hnot].
  - left. rewrite Forall_forall in Hall. split; [by apply select_present|done].
  - right. apply not_Forall_Exists in Hnot; [|apply _].
    apply Exists_exists in Hnot as (c & Hc & Hout). by eapply select_missing.
Qed.

Lemma mapR_set_int (i : nat) (rs : list (list cell)) (ids : list Z) :
  mapR int_of_cell (map (fun r => default CNaN (r !! i)) rs) = Ok ids ->
  mapR int_of_cell
    (map (fun r => default CNaN (r !! i))
       (zip_with (fun r z => <[i := CInt z]> r) rs ids)) = Ok ids.
Proof.
  revert ids. induction rs as [|r rs IH]; intros ids; simpl.
  - by intros [= <-].
  - destruct (r !! i) as [c|] eqn:Hr; simpl; [|done].
    destruct (int_of_cell c) as [z|]; simpl; [|done].
    destruct (mapR int_of_cell _) as [zs|] eqn:Hzs; simpl; [|done].
    intros [= <-]. simpl.
    rewrite list_lookup_insert_eq by (by eapply lookup_lt_Some).
    simpl. by rewrite (IH zs).
Qed.

Lemma set_id_int_ids df df0 ids :
  id_astype_int df = Ok ids ->
  set_id_int df = Ok df0 ->
  columns df0 = columns df /\ id_astype_int df0 = Ok ids
  /\ length (rows df0) = length (rows df).
Proof.
  unfold set_id_int. intros Hids. rewrite Hids. simpl.
  revert Hids. unfold id_astype_int, column.
  destruct (index_of "id" (columns df)) as [i|] eqn:Hi; [|done]. simpl.
  intros Hids [= <-]. simpl. rewrite Hi. simpl.
  split; [done|]. split; [by apply mapR_set_int|].
  rewrite length_zip_with. apply mapR_length in Hids.
  rewrite length_map in Hids. lia.
Qed.

Lemma set_id_int_ok df ids :
  id_astype_int df = Ok ids -> exists df0, set_id_int df = Ok df0.
Proof.
  unfold set_id_int. intros Hids. rewrite Hids. simpl.
  revert Hids. unfold id_astype_int, column.
  destruct (index_of "id" (columns df)); [eauto|done].
Qed.

Lemma set_id_int_columns df df0 : set_id_int df = Ok df0 -> columns df0 = columns df.
Proof.
  unfold set_id_int. destruct (id_astype_int df); [|done]. simpl.
  destruct (index_of "id" (columns df)); [|done]. by intros [= <-].
Qed.

(** Dedup *)
Lemma drop_last_dups_remove_dups (rs : list (list cell)) :
  drop_last_dups rs = remove_dups rs.
Proof.
  induction rs as [|r rs IH]; [done|]. simpl. by rewrite IH.
Qed.

(** ** The store *)

Lemma filter_twice {A} (P : A -> Prop) `{forall x, Decision (P x)} (l : list A) :
  filter P (filter P l) = filter P l.
Proof.
  induction l as [|x l IH]; [done|].
  rewrite filter_cons. destruct (decide (P x)) as [Hx|Hx]; [|done].
  rewrite filter_cons. destruct (decide (P x)); [by f_equal|done].
Qed.

Lemma adl_write_twice path b fs :
  adl_write path b (adl_write path b fs) = adl_write path b fs.
Proof.
  unfold adl_write. f_equal. rewrite filter_cons.
  destruct (decide ((path, b).1 <> path)) as [Hne|_]; [done|].
  apply filter_twice.
Qed.

Lemma adl_read_write path b fs : adl_read path (adl_write path b fs) = Ok b.
Proof. unfold adl_write. simpl. by destruct (decide (path = path)). Qed.

Lemma listdir_exists dir fs p :
  p ∈ adl_listdir dir fs -> adl_exists dir fs = true.
Proof.
  unfold adl_listdir, adl_exists. intros Hp.
  apply list_elem_of_fmap in Hp as ([q b] & -> & Hq).
  apply list_elem_of_filter in Hq as [Hentry Hq]. simpl in *.
  apply existsb_exists. exists (q, b). split; [by apply list_elem_of_In|].
  simpl. unfold entry_of, below in *.
  destruct (remove_prefix (dir +:+ "/") q); [|done].
  by apply andb_true_iff in Hentry as [-> _].
Qed.

(** ** The fetcher *)

Section FetcherFacts.

Variable api : remote_api.

Lemma retry_loop_attempts retry req log content log' :
  retry_loop api retry req log = (content, log') ->
  exists k, (k <= retry)%nat /\ log' = log ++ replicate k req
    /\ (forall j, (j < k - 1)%nat -> failed (api (log ++ replicate j req) req) = true)
    /\ match content with
       | Some c => (0 < k)%nat /\ api (log ++ replicate (k - 1) req) req = Json c
       | None => k = retry
                 /\ (forall j, (j < k)%nat -> failed (api (log ++ replicate j req) req) = true)
       end.
Proof.
  revert log. induction retry as [|n IH]; intros log; simpl.
  - intros [= <- <-]. exists 0%nat. rewrite app_nil_r. repeat split; auto; intros; lia.
  - destruct (api log req) eqn:Hr.
    1,2: intros H; apply IH in H as (k & Hk & -> & Hf & Hc); exists (S k);
      rewrite <- app_assoc; simpl; repeat split; auto; [lia| |].
    1,3: intros [|j] Hj; simpl; [rewrite app_nil_r, Hr; done|];
         specialize (Hf j ltac:(lia)); by rewrite <- app_assoc in Hf.
    1,2: destruct content as [c|];
         [destruct Hc as [Hpos Hc]; split; [lia|];
          destruct k as [|k]; [lia|]; simpl in *; rewrite Nat.sub_0_r in *;
          by rewrite <- app_assoc in Hc
         |destruct Hc as [-> Hc]; split; [done|];
          intros [|j] Hj; simpl; [rewrite app_nil_r, Hr; done|];
          specialize (Hc j ltac:(lia)); by rewrite <- app_assoc in Hc].
    intros [= <- <-]. exists 1%nat. simpl. repeat split; auto; try lia.
    by rewrite app_nil_r.
Qed.

Lemma retry_loop_exhausted retry req log :
  (forall j, (j < retry)%nat -> failed (api (log ++ replicate j req) req) = true) ->
  retry_loop api retry req log = (None, log ++ replicate retry req).
Proof.
  revert log. induction retry as [|n IH]; intros log Hf; simpl.
  - by rewrite app_nil_r.
  - pose proof (Hf 0%nat ltac:(lia)) as H0. simpl in H0. rewrite app_nil_r in H0.
    assert (retry_loop api n req (log ++ [req]) = (None, log ++ req :: replicate n req)) as Hn.
    { rewrite IH; [by rewrite <- app_assoc|].
      intros j Hj. specialize (Hf (S j) ltac:(lia)). by rewrite <- app_assoc. }
    destruct (api log req); try done.
Qed.

Lemma retry_loop_answer retry req log j c :
  (j < retry)%nat ->
  (forall i, (i < j)%nat -> failed (api (log ++ replicate i req) req) = true) ->
  api (log ++ replicate j req) req = Json c ->
  retry_loop api retry req log = (Some c, log ++ replicate (S j) req).
Proof.
  revert log j. induction retry as [|n IH]; intros log j Hj Hf Hc; [lia|]. simpl.
  destruct j as [|j].
  - simpl in Hc. rewrite app_nil_r in Hc. by rewrite Hc.
  - pose proof (Hf 0%nat ltac:(lia)) as H0. simpl in H0. rewrite app_nil_r in H0.
    assert (retry_loop api n req (log ++ [req]) = (Some c, log ++ req :: replicate (S j) req)) as Hn.
    { rewrite (IH _ j); [by rewrite <- app_assoc|lia| |].
      - intros i Hi. specialize (Hf (S i) ltac:(lia)). by rewrite <- app_assoc.
      - by rewrite <- app_assoc. }
    destruct (api log req); try done.
Qed.

Variable max_value : Z.

Lemma fetch_loop_eq st log :
  fetch_loop api max_value st log =
  if continue max_value st then
    match fetch_page api st log with
    | (Next st', log') => fetch_loop api max_value st' log'
    | (Break, log') => (Ok st, log')
    | (Raised e, log') => (Raise e, log')
    end
  else (Ok st, log).
Proof.
  apply (fetch_loop_elim api max_value (fun st log r => r =
    if continue max_value st then
      match fetch_page api st log with
      | (Next st', log') => fetch_loop api max_value st' log'
      | (Break, log') => (Ok st, log')
      | (Raised e, log') => (Raise e, log')
      end
    else (Ok st, log))); clear st log.
  - intros st Hc log _. by rewrite Hc.
  - intros st Hc log st' log' Hp _ _ _. by rewrite Hc, Hp.
  - intros st Hc log log' Hp _ _. by rewrite Hc, Hp.
  - intros st Hc log e log' Hp _ _. by rewrite Hc, Hp.
Qed.

Lemma continue_false st :
  continue max_value st = false <->
  maxRecords st < limit \/ max_value <= value_count st.
Proof. unfold continue. rewrite andb_false_iff. lia. Qed.

Lemma fetch_page_log st log r log' :
  fetch_page api st log = (r, log') ->
  exists k, (1 <= k <= 5)%nat /\ log' = log ++ replicate k (page_request st).
Proof.
  unfold fetch_page. fold (page_request st).
  destruct (retry_loop api 5 (page_request st) log) as [content l] eqn:Hr.
  apply retry_loop_attempts in Hr as (k & Hk & -> & _ & Hc).
  intros Hp. exists k. split; [|repeat case_match; congruence].
  destruct content; [lia|]. destruct Hc as [-> _]. lia.
Qed.

Lemma fetch_page_break st log log' :
  fetch_page api st log = (Break, log') <->
  retry_loop api 5 (page_request st) log = (None, log')
  \/ retry_loop api 5 (page_request st) log = (Some JFalsy, log').
Proof.
  unfold fetch_page. fold (page_request st).
  destruct (retry_loop api 5 (page_request st) log) as [[[|p|]|] l];
    repeat case_match; intuition congruence.
Qed.

Lemma fetch_loop_log st log r log' :
  fetch_loop api max_value st log = (r, log') -> exists l, log' = log ++ l.
Proof.
  revert r log'.
  apply (fetch_loop_elim api max_value (fun st log res =>
    forall r log', res = (r, log') -> exists l, log' = log ++ l)); clear st log.
  - intros st _ log _ r log' [= <- <-]. exists []. by rewrite app_nil_r.
  - intros st _ log st' log1 Hp IH _ _ r log' Hl.
    apply IH in Hl as [l ->]. apply fetch_page_log in Hp as (k & _ & ->).
    eexists. by rewrite <- app_assoc.
  - intros st _ log log1 Hp _ _ r log' [= <- <-].
    apply fetch_page_log in Hp as (k & _ & ->). eauto.
  - intros st _ log e log1 Hp _ _ r log' [= <- <-].
    apply fetch_page_log in Hp as (k & _ & ->). eauto.
Qed.

Lemma fetch_loop_stop st log st_f log_f :
  fetch_loop api max_value st log = (Ok st_f, log_f) ->
  continue max_value st_f = false
  \/ exists log1, continue max_value st_f = true
       /\ fetch_page api st_f log1 = (Break, log_f).
Proof.
  revert st_f log_f.
  apply (fetch_loop_elim api max_value (fun st log res =>
    forall st_f log_f, res = (Ok st_f, log_f) ->
      continue max_value st_f = false
      \/ exists log1, continue max_value st_f = true
           /\ fetch_page api st_f log1 = (Break, log_f))); clear st log.
  - intros st Hc log _ st_f log_f [= <- <-]. by left.
  - intros st _ log st' log1 _ IH _ _ st_f log_f Hl. by apply IH.
  - intros st Hc log log1 Hp _ _ st_f log_f [= <- <-]. right. eauto.
  - intros st _ log e log1 _ _ _ st_f log_f [=].
Qed.

End FetcherFacts.

Lemma pages_to_loop api max_value st log st' log' :
  pages_to api max_value st log st' log' ->
  fetch_loop api max_value st log = fetch_loop api max_value st' log'.
Proof.
  induction 1 as [|st log st1 log1 st2 log2 Hc Hp _ IH]; [done|].
  rewrite fetch_loop_eq, Hc, Hp. exact IH.
Qed.

Lemma fetch_loop_first_request api max_value st log :
  continue max_value st = true ->
  exists rest, snd (fetch_loop api max_value st log)
    = log ++ page_request st :: rest.
Proof.
  intros Hc. rewrite fetch_loop_eq, Hc.
  destruct (fetch_page api st log) as [r log1] eqn:Hp.
  apply fetch_page_log in Hp as (k & Hk & ->).
  destruct k as [|k]; [lia|]. simpl.
  destruct r as [st1| |e]; simpl; eauto.
  destruct (fetch_loop api max_value st1 _) as [r2 log2] eqn:Hl.
  apply fetch_loop_log in Hl as [l ->]. simpl.
  rewrite <- app_assoc. simpl. eauto.
Qed.

Lemma get_data_first_request api maxId max_value log :
  0 < max_value ->
  exists rest, snd (get_data api maxId max_value log)
    = log ++ {| req_startId := succ maxId; req_maxRecords := 250 |} :: rest.
Proof.
  intros Hmax. unfold get_data.
  destruct (fetch_loop_first_request api max_value (get_data_init maxId) log)
    as [rest Hrest].
  { unfold continue, limit; simpl. lia. }
  destruct (fetch_loop api max_value (get_data_init maxId) log) as [r l].
  simpl in *. eauto.
Qed.

(** ** The normal form and the checkpoint *)

Lemma push_to_adl_eq team collection df t minAct maxAct w :
  push_to_adl team collection df t minAct maxAct w =
  match get_right_format t with
  | Ok stamp =>
      (Ok tt, with_store w
                (adl_write (collection_directory team collection
                            +:+ file_name stamp minAct maxAct)
                   (encode (to_csv df)) (store w)))
  | Raise e => (Raise e, w)
  end.
Proof. unfold push_to_adl. by destruct (get_right_format t). Qed.

Lemma normalize_eq dfs w :
  normalize dfs w =
  match select actions_cols (drop_duplicates (actions dfs)) with
  | Raise e => (Raise e, w)
  | Ok actions2 =>
      match select sessions_cols (drop_duplicates (sessions dfs)) with
      | Raise e => (Raise e, w)
      | Ok sessions2 =>
          let '(geoip2, w1) :=
            match select geoip_cols (drop_duplicates (geoip dfs)) with
            | Ok df => (df, w)
            | Raise _ =>
                (drop_duplicates (geoip dfs),
                 with_stdout w [PrintColumns (columns (geoip dfs))])
            end in
          match select hardware_cols (drop_duplicates (hardware dfs)) with
          | Raise e => (Raise e, w1)
          | Ok hardware2 =>
              (Ok {| actions := actions2; sessions := sessions2;
                     geoip := geoip2; hardware := hardware2 |}, w1)
          end
      end
  end.
Proof.
  unfold normalize, mbind, prog_bind, lift, mret, prog_ret, print, with_stdout.
  destruct (select actions_cols _); [|done].
  destruct (select sessions_cols _); [|done].
  destruct (select geoip_cols _); simpl; by destruct (select hardware_cols _).
Qed.

Lemma normalize_store dfs w r w' :
  normalize dfs w = (r, w') ->
  store w' = store w /\ http_log w' = http_log w.
Proof.
  rewrite normalize_eq. repeat case_match; intros; simplify_eq; done.
Qed.

Lemma push_all_four team t dfs minAct maxAct w :
  push_all team t dfs minAct maxAct ["actions"; "sessions"; "geoip"; "hardware"] w =
  match get_right_format t with
  | Ok stamp =>
      let path c := collection_directory team c +:+ file_name stamp minAct maxAct in
      (Ok tt,
       {| store :=
            adl_write (path "hardware") (encode (to_csv (hardware dfs)))
              (adl_write (path "geoip") (encode (to_csv (geoip dfs)))
                 (adl_write (path "sessions") (encode (to_csv (sessions dfs)))
                    (adl_write (path "actions") (encode (to_csv (actions dfs)))
                       (store w))));
          http_log := http_log w;
          stdout := stdout w ++ [PrintLine "Pushing actions to ADL";
                                 PrintLine "Pushing sessions to ADL";
                                 PrintLine "Pushing geoip to ADL";
                                 PrintLine "Pushing hardware to ADL"] |})
  | Raise e =>
      (Raise e, with_stdout w [PrintLine "Pushing actions to ADL"])
  end.
Proof.
  destruct (get_right_format t) as [stamp|e] eqn:Hfmt;
    unfold push_all, mbind, prog_bind, lift, mret, prog_ret, print, get_set,
      with_stdout; simpl;
    repeat (rewrite push_to_adl_eq, Hfmt; unfold with_store; simpl); [|done].
  by rewrite <- !app_assoc.
Qed.

Lemma checkpoint_eq team t dfs w :
  checkpoint team t (Some dfs) w =
  match set_id_int (actions dfs) with
  | Raise e => (Raise e, w)
  | Ok actions0 =>
      match id_astype_int actions0 with
      | Raise e => (Raise e, w)
      | Ok ids =>
          match normalize {| actions := actions0; sessions := sessions dfs;
                             geoip := geoip dfs; hardware := hardware dfs |} w with
          | (Raise e, w1) => (Raise e, w1)
          | (Ok dfs', w1) =>
              push_all team t dfs' (minZ ids) (maxZ ids)
                ["actions"; "sessions"; "geoip"; "hardware"] w1
          end
      end
  end.
Proof.
  unfold checkpoint, mbind, prog_bind, lift. simpl.
  destruct (set_id_int (actions dfs)) as [actions0|]; [|done].
  destruct (id_astype_int actions0) as [ids|]; [|done].
  by destruct (normalize _ w) as [[dfs'|e] w1].
Qed.

Lemma normalize_lenient (dfs : record_sets) (w : world) (c : string) :
  c ∈ geoip_cols -> c ∉ columns (geoip dfs) ->
  (forall a, a ∈ actions_cols -> a ∈ columns (actions dfs)) ->
  (forall s, s ∈ sessions_cols -> s ∈ columns (sessions dfs)) ->
  (forall h, h ∈ hardware_cols -> h ∈ columns (hardware dfs)) ->
  normalize dfs w =
  (Ok {| actions := reindex actions_cols (drop_duplicates (actions dfs));
         sessions := reindex sessions_cols (drop_duplicates (sessions dfs));
         geoip := drop_duplicates (geoip dfs);
         hardware := reindex hardware_cols (drop_duplicates (hardware dfs)) |},
   {| store := store w; http_log := http_log w;
      stdout := stdout w ++ [PrintColumns (columns (geoip dfs))] |}).
Proof.
  intros Hc Hout Ha Hs Hh. rewrite normalize_eq.
  rewrite (select_present actions_cols (drop_duplicates (actions dfs)) Ha).
  rewrite (select_present sessions_cols (drop_duplicates (sessions dfs)) Hs).
  rewrite (select_present hardware_cols (drop_duplicates (hardware dfs)) Hh).
  destruct (select_missing geoip_cols (drop_duplicates (geoip dfs)) c Hc Hout)
    as (k & -> & _). done.
Qed.

Lemma normalize_fatal (dfs : record_sets) (w : world) (c : string) :
  (c ∈ actions_cols /\ c ∉ columns (actions dfs))
  \/ (c ∈ sessions_cols /\ c ∉ columns (sessions dfs))
  \/ (c ∈ hardware_cols /\ c ∉ columns (hardware dfs)) ->
  exists k, fst (normalize dfs w) = Raise (KeyError k).
Proof.
  intros Hc. rewrite normalize_eq.
  destruct (select_cases actions_cols (drop_duplicates (actions dfs)))
    as [[-> Ha]|(k & -> & _)]; [|by eexists].
  destruct (select_cases sessions_cols (drop_duplicates (sessions dfs)))
    as [[-> Hs]|(k & -> & _)]; [|by eexists].
  destruct (select_cases hardware_cols (drop_duplicates (hardware dfs)))
    as [[-> Hh]|(k & -> & _)].
  - destruct Hc as [[? Hc]|[[? Hc]|[? Hc]]]; destruct Hc; simpl; auto.
  - destruct (select geoip_cols _); by eexists.
Qed.

Lemma lenient_checkpoint (team t : string) (dfs : record_sets) (w : world)
    (c : string) (ids : list Z) (stamp : string) :
  c ∈ geoip_cols -> c ∉ columns (geoip dfs) ->
  (forall a, a ∈ actions_cols -> a ∈ columns (actions dfs)) ->
  (forall s, s ∈ sessions_cols -> s ∈ columns (sessions dfs)) ->
  (forall h, h ∈ hardware_cols -> h ∈ columns (hardware dfs)) ->
  id_astype_int (actions dfs) = Ok ids ->
  get_right_format t = Ok stamp ->
  exists b_actions,
    let path collection :=
      collection_directory team collection
      +:+ (stamp +:+ "_" +:+ str (minZ ids) +:+ "_" +:+ str (maxZ ids) +:+ ".csv") in
    checkpoint team t (Some dfs) w =
    (Ok tt,
     {| store :=
          adl_write (path "hardware")
            (encode (to_csv (reindex hardware_cols (drop_duplicates (hardware dfs)))))
            (adl_write (path "geoip")
               (encode (to_csv (drop_duplicates (geoip dfs))))
               (adl_write (path "sessions")
                  (encode (to_csv (reindex sessions_cols
                                     (drop_duplicates (sessions dfs)))))
                  (adl_write (path "actions") b_actions (store w))));
        http_log := http_log w;
        stdout := stdout w ++ [PrintColumns (columns (geoip dfs));
                               PrintLine "Pushing actions to ADL";
                               PrintLine "Pushing sessions to ADL";
                               PrintLine "Pushing geoip to ADL";
                               PrintLine "Pushing hardware to ADL"] |}).
Proof.
  intros Hc Hout Ha Hs Hh Hids Hfmt.
  destruct (set_id_int_ok _ _ Hids) as [actions0 Hset].
  destruct (set_id_int_ids _ _ _ Hids Hset) as (Hcols & Hids0 & _).
  exists (encode (to_csv (reindex actions_cols (drop_duplicates actions0)))).
  cbv zeta. rewrite checkpoint_eq, Hset, Hids0.
  rewrite (normalize_lenient _ w c); try done; [|simpl; by rewrite Hcols].
  rewrite push_all_four, Hfmt. cbn [store http_log stdout actions sessions geoip hardware].
  by rewrite <- app_assoc.
Qed.

Lemma checkpoint_fatal (team t : string) (dfs : record_sets) (w : world)
    (c : string) :
  (c ∈ actions_cols /\ c ∉ columns (actions dfs))
  \/ (c ∈ sessions_cols /\ c ∉ columns (sessions dfs))
  \/ (c ∈ hardware_cols /\ c ∉ columns (hardware dfs)) ->
  exists e, fst (checkpoint team t (Some dfs) w) = Raise e.
Proof.
  intros Hc. rewrite checkpoint_eq.
  destruct (set_id_int (actions dfs)) as [actions0|e] eqn:Hset; [|by eexists].
  destruct (id_astype_int actions0) as [ids|e]; [|by eexists].
  apply set_id_int_columns in Hset.
  destruct (normalize_fatal {| actions := actions0; sessions := sessions dfs;
                               geoip := geoip dfs; hardware := hardware dfs |} w c)
    as [k Hk]; [simpl; by rewrite Hset|].
  destruct (normalize _ w) as [r w1]. simpl in Hk. subst r. by eexists.
Qed.

Lemma push_all_http_log team t dfs lo hi collections w r w' :
  push_all team t dfs lo hi collections w = (r, w') -> http_log w' = http_log w.
Proof.
  revert w. induction collections as [|c cs IH]; intros w; simpl.
  - by intros [= <- <-].
  - unfold mbind, prog_bind, print, lift. simpl.
    destruct (get_set c dfs) as [df|e]; [|by intros [= <- <-]].
    rewrite push_to_adl_eq. destruct (get_right_format t); [|by intros [= <- <-]].
    intros H. apply IH in H. by rewrite H.
Qed.

Lemma checkpoint_http_log team t dfs w r w' :
  checkpoint team t dfs w = (r, w') -> http_log w' = http_log w.
Proof.
  destruct dfs as [dfs|]; [|by intros [= <- <-]].
  rewrite checkpoint_eq.
  destruct (set_id_int (actions dfs)); [|by intros [= <- <-]].
  destruct (id_astype_int _); [|by intros [= <- <-]].
  destruct (normalize _ w) as [[dfs'|e] w1] eqn:Hn;
    apply normalize_store in Hn as [_ Hlog].
  - intros H%push_all_http_log. congruence.
  - intros [= <- <-]. done.
Qed.

(** ** The resolver *)

Lemma sorted_elem_of l x : x ∈ sorted l <-> x ∈ l.
Proof. unfold sorted. by rewrite merge_sort_Permutation. Qed.

Lemma sorted_last_greatest (l : list string) (x : string) :
  last (sorted l) = Some x ->
  x ∈ l /\ forall y, y ∈ l -> String.le y x.
Proof.
  intros Hlast. split.
  - apply sorted_elem_of. by eapply last_Some_elem_of.
  - intros y Hy%sorted_elem_of.
    apply last_Some in Hlast as [l' Hl].
    assert (StronglySorted String.le (sorted l)) as Hs
      by (unfold sorted; apply StronglySorted_merge_sort; apply _).
    rewrite Hl in Hs, Hy.
    apply elem_of_app in Hy as [Hy|Hy%list_elem_of_singleton].
    + eapply (StronglySorted_app_1_elem_of String.le l' [x]); [done..|left].
    + by subst.
Qed.

Lemma get_max_id_adl_world team w : snd (get_max_id_adl team w) = w.
Proof. unfold get_max_id_adl. by case_match. Qed.

Lemma get_max_id_adl_eq team w last_file :
  last (sorted (adl_listdir (actions_directory team) (store w))) = Some last_file ->
  get_max_id_adl team w =
  (f ← adl_read last_file (store w); df ← read_csv f;
   ids ← id_astype_int df; Ok (maxZ ids), w).
Proof.
  intros Hlast. unfold get_max_id_adl. fold (actions_directory team).
  rewrite (listdir_exists _ _ last_file).
  - by rewrite Hlast.
  - apply sorted_elem_of. by eapply last_Some_elem_of.
Qed.

Lemma get_max_id_adl_none team w :
  adl_listdir (actions_directory team) (store w) = [] ->
  get_max_id_adl team w = (Ok (Int 0), w).
Proof.
  intros Hnil. unfold get_max_id_adl. fold (actions_directory team).
  rewrite Hnil. by destruct (adl_exists _ _).
Qed.

(** ** The driver *)

Lemma iteration_eq api team t w :
  iteration api team t w =
  match fst (get_max_id_adl team w) with
  | Ok maxId =>
      let '(r, log') := get_data api maxId MAX_RECORDS_PER_FILE (http_log w) in
      let w1 := {| store := store w; http_log := log'; stdout := stdout w |} in
      match r with
      | Ok (n, dfs) =>
          if 0 <? n then
            match checkpoint team t dfs w1 with
            | (Ok _, w2) => (Ok (Written n), w2)
            | (Raise e, w2) => (Raise e, w2)
            end
          else (Ok (NoNewRecords n), w1)
      | Raise e => (Raise e, w1)
      end
  | Raise e => (Raise e, w)
  end.
Proof.
  unfold iteration, mbind, prog_bind, call_get_data.
  pose proof (get_max_id_adl_world team w) as Hw.
  destruct (get_max_id_adl team w) as [[maxId|e] w0]; simpl in *; subst; [|done].
  destruct (get_data api maxId MAX_RECORDS_PER_FILE (http_log w)) as [[[n dfs]|e] log'];
    [|done].
  destruct (0 <? n); [|done].
  by destruct (checkpoint team t dfs _) as [[[]|e] w2].
Qed.

Lemma main_loop_head api team t fuel n w :
  main_loop api team t fuel n w =
  if n =? MAX_RECORDS_PER_FILE then main api team t fuel w else Finished w.
Proof.
  unfold main. destruct (n =? MAX_RECORDS_PER_FILE) eqn:Hn.
  - apply Z.eqb_eq in Hn. by subst.
  - destruct fuel; simpl; by rewrite Hn.
Qed.

Lemma iteration_first_request api team t w maxId :
  fst (get_max_id_adl team w) = Ok maxId ->
  exists rest, http_log (snd (iteration api team t w))
    = http_log w ++ {| req_startId := succ maxId; req_maxRecords := 250 |} :: rest.
Proof.
  intros Hmax. rewrite iteration_eq, Hmax.
  destruct (get_data_first_request api maxId MAX_RECORDS_PER_FILE (http_log w))
    as [rest Hrest]; [done|].
  destruct (get_data api maxId MAX_RECORDS_PER_FILE (http_log w)) as [r log'].
  simpl in Hrest. subst log'. exists rest.
  destruct r as [[n dfs]|e]; [|done].
  destruct (0 <? n); [|done]. cbv zeta.
  match goal with
  | |- context [checkpoint team t dfs ?w1] =>
      destruct (checkpoint team t dfs w1) as [[[]|e] w2] eqn:Hcp
  end; apply checkpoint_http_log in Hcp; simpl in *; by rewrite Hcp.
Qed.

(** After both segments of a run are in the lake the driver fetches the
    second one again. *)
Lemma driver_refetches_second_segment (api : remote_api) (t : string)
    (f1 f2 : list byte) (df : DataFrame) (ids : list Z)
    (log : list request) (out : list printed) :
  read_csv f1 = Ok df ->
  id_astype_int df = Ok ids ->
  maxZ ids = Int 1000000 ->
  let w :=
    {| store :=
         [("/yinz_cam/mls_tor/realtime_api/actions/2021-12-23_17_15_09_1000001_2000000.csv", f2);
          ("/yinz_cam/mls_tor/realtime_api/actions/2021-12-23_17_15_09_1_1000000.csv", f1)];
       http_log := log; stdout := out |} in
  exists rest, http_log (snd (iteration api "mls_tor" t w))
    = log ++ {| req_startId := Int 1000001; req_maxRecords := 250 |} :: rest.
Proof.
  intros Hread Hids Hmax w.
  apply (iteration_first_request api "mls_tor" t w (Int 1000000)).
  rewrite (get_max_id_adl_eq "mls_tor" w
    "/yinz_cam/mls_tor/realtime_api/actions/2021-12-23_17_15_09_1_1000000.csv")
    by (vm_compute; reflexivity).
  assert (adl_read "/yinz_cam/mls_tor/realtime_api/actions/2021-12-23_17_15_09_1_1000000.csv"
            (store w) = Ok f1) as -> by (vm_compute; reflexivity).
  simpl. rewrite Hread. simpl. rewrite Hids. simpl. by rewrite Hmax.
Qed.

(** * The claims *)

(** C1, at its failing input.  Three runs for one team.  The first, on an
    empty lake over a source of nine actions, leaves the watermark at 9.
    The second, with the same start time once the source holds twelve,
    requests from 10 and writes the unit of the actions 10 to 12; yet the
    watermark resolved after it is 9 again, because the unit named
    [.._1_9.csv] sorts after the one named [.._10_12.csv].  The third, at a
    later start time, therefore requests from 10 once more, and the
    identifiers 10 to 12 end up in two output units. *)
Theorem no_gap_fails_on_equal_stamps :
  finished run1 = true /\ finished run2 = true /\ finished run3 = true
  /\ fst (get_max_id_adl "mls_tor" (final_world run1)) = Ok (Int 9)
  /\ http_log (final_world run2)
     = [ {| req_startId := Int 1; req_maxRecords := 250 |};
         {| req_startId := Int 10; req_maxRecords := 250 |} ]
  /\ adl_listdir (actions_directory "mls_tor") (store (final_world run2))
     = [ "/yinz_cam/mls_tor/realtime_api/actions/2021-12-23_17_15_09_10_12.csv";
         "/yinz_cam/mls_tor/realtime_api/actions/2021-12-23_17_15_09_1_9.csv" ]
  /\ fst (get_max_id_adl "mls_tor" (final_world run2)) = Ok (Int 9)
  /\ http_log (final_world run3)
     = [ {| req_startId := Int 1; req_maxRecords := 250 |};
         {| req_startId := Int 10; req_maxRecords := 250 |};
         {| req_startId := Int 10; req_maxRecords := 250 |} ]
  /\ unit_ids "/yinz_cam/mls_tor/realtime_api/actions/2021-12-23_17_15_09_10_12.csv"
       (store (final_world run3)) = Ok [10; 11; 12]
  /\ unit_ids "/yinz_cam/mls_tor/realtime_api/actions/2021-12-24_17_15_09_10_12.csv"
       (store (final_world run3)) = Ok [10; 11; 12].
Proof. repeat split; vm_compute; reflexivity. Qed.

(** C2, at its failing input.  When the actions directory holds the units
    of two segments of one run, identifiers 1 to 1000000 and 1000001 to
    2000000, the resolver reads the older one whatever the files contain:
    the names share the stamp, and [_] sorts after the digits.  Written by
    [push_to_adl] in that order, the later unit is the most recently written
    file and holds the identifier 2000000, and the resolver returns
    1000000. *)
Theorem resolver_reads_older_segment :
  let older :=
    "/yinz_cam/mls_tor/realtime_api/actions/2021-12-23_17_15_09_1_1000000.csv" in
  let newer :=
    "/yinz_cam/mls_tor/realtime_api/actions/2021-12-23_17_15_09_1000001_2000000.csv" in
  (forall (f1 f2 : list byte) (log : list request) (out : list printed),
     let w := {| store := [(newer, f2); (older, f1)];
                 http_log := log; stdout := out |} in
     get_max_id_adl "mls_tor" w
     = (df ← read_csv f1; ids ← id_astype_int df; Ok (maxZ ids), w))
  /\ let df1 := frame_of actions_cols [1; 1000000] in
     let df2 := frame_of actions_cols [1000001; 2000000] in
     let w1 := snd (push_to_adl "mls_tor" "actions" df1 T0 (Int 1) (Int 1000000)
                      empty_world) in
     let w2 := snd (push_to_adl "mls_tor" "actions" df2 T0 (Int 1000001)
                      (Int 2000000) w1) in
     map fst (store w2) = [newer; older]
     /\ sorted (adl_listdir (actions_directory "mls_tor") (store w2))
        = [newer; older]
     /\ unit_ids newer (store w2) = Ok [1000001; 2000000]
     /\ fst (get_max_id_adl "mls_tor" w2) = Ok (Int 1000000).
Proof.
  intros older newer. split.
  - intros f1 f2 log out w.
    rewrite (get_max_id_adl_eq "mls_tor" w older) by (vm_compute; reflexivity).
    assert (adl_read older (store w) = Ok f1) as -> by (vm_compute; reflexivity).
    done.
  - repeat split; vm_compute; reflexivity.
Qed.

(** C3.  Run driver termination.  One turn of the loop of [main] is followed
    by another turn exactly when its fetch returned [MAX_RECORDS_PER_FILE]
    records; with any other count the driver has finished, and an exception
    ends it.  The count is the one [get_data] returned for the resolved
    watermark.  With the stub API that serves two full pages and then an
    empty one, the driver sends exactly three page requests and reaches its
    normal end. *)
Theorem driver_termination (api : remote_api) (team currentRunTime : string)
    (fuel : nat) (w : world) :
  main api team currentRunTime (S fuel) w
  = match iteration api team currentRunTime w with
    | (Ok e, w') =>
        if fetched e =? MAX_RECORDS_PER_FILE
        then main api team currentRunTime fuel w'
        else Finished w'
    | (Raise e, w') => Failed e w'
    end
  /\ match iteration api team currentRunTime w with
     | (Ok e, _) =>
         exists maxId dfs,
           fst (get_max_id_adl team w) = Ok maxId
           /\ fst (get_data api maxId MAX_RECORDS_PER_FILE (http_log w))
              = Ok (fetched e, dfs)
     | (Raise _, _) => True
     end
  /\ exists w',
       main stub_api "mls_tor" T0 (S fuel) empty_world = Finished w'
       /\ http_log w' = [ {| req_startId := Int 1; req_maxRecords := 250 |};
                          {| req_startId := Int 251; req_maxRecords := 250 |};
                          {| req_startId := Int 501; req_maxRecords := 250 |} ].
Proof.
  split; [|split].
  - unfold main at 1. simpl. rewrite iteration_eq.
    destruct (fst (get_max_id_adl team w)) as [maxId|e]; [|done].
    destruct (get_data api maxId MAX_RECORDS_PER_FILE (http_log w))
      as [[[n dfs]|e] log']; [|done]. simpl.
    destruct (0 <? n) eqn:Hn.
    + destruct (checkpoint team currentRunTime dfs _) as [[[]|e] w2]; [|done].
      apply main_loop_head.
    + simpl. replace (n =? MAX_RECORDS_PER_FILE) with false; [done|].
      unfold MAX_RECORDS_PER_FILE. lia.
  - rewrite iteration_eq.
    destruct (fst (get_max_id_adl team w)) as [maxId|e]; [|done].
    destruct (get_data api maxId MAX_RECORDS_PER_FILE (http_log w))
      as [[[n dfs]|e] log'] eqn:Hg; [|done]. simpl.
    destruct (0 <? n).
    + destruct (checkpoint team currentRunTime dfs _) as [[[]|e] w2]; [|done].
      exists maxId, dfs. by rewrite Hg.
    + exists maxId, dfs. by rewrite Hg.
  - assert (fst (iteration stub_api "mls_tor" T0 empty_world) = Ok (Written 500))
      as Hfst by (vm_compute; reflexivity).
    assert (http_log (snd (iteration stub_api "mls_tor" T0 empty_world))
            = [ {| req_startId := Int 1; req_maxRecords := 250 |};
                {| req_startId := Int 251; req_maxRecords := 250 |};
                {| req_startId := Int 501; req_maxRecords := 250 |} ])
      as Hlog by (vm_compute; reflexivity).
    exists (snd (iteration stub_api "mls_tor" T0 empty_world)).
    split; [|exact Hlog].
    unfold main at 1. simpl main_loop.
    destruct (iteration stub_api "mls_tor" T0 empty_world) as [r w'].
    simpl in Hfst. subst r. simpl. apply main_loop_head.
Qed.




(** C5.  Bounded retry with partial-success preservation.  On any page the
    fetcher sends between one and five requests, all attempts before the
    last one having failed; a failure of the transport and a body that is
    not JSON count alike, each for one attempt, and a body that parses
    within the five attempts is taken.  When the fetcher has reached a page
    (after any number of earlier pages) and the five attempts on it all
    fail, the page ends in the [break] after exactly five requests, and
    [get_data] returns, without an exception, the count and the tables
    accumulated in the earlier pages. *)
Theorem retry_budget_partial_success (api : remote_api) (maxId : pynum)
    (max_value : Z) (log0 : list request) (st : fetch_state) (log : list request) :
  pages_to api max_value (get_data_init maxId) log0 st log ->
  continue max_value st = true ->
  (forall j, (j < 5)%nat ->
     failed (api (log ++ replicate j (page_request st)) (page_request st)) = true) ->
  (forall st' log', exists k, (1 <= k <= 5)%nat
     /\ snd (fetch_page api st' log') = log' ++ replicate k (page_request st')
     /\ forall j, (j < k - 1)%nat ->
          failed (api (log' ++ replicate j (page_request st')) (page_request st')) = true)
  /\ (forall st' log' j c, (j < 5)%nat ->
        (forall i, (i < j)%nat ->
           failed (api (log' ++ replicate i (page_request st')) (page_request st'))
           = true) ->
        api (log' ++ replicate j (page_request st')) (page_request st') = Json c ->
        retry_loop api 5 (page_request st') log'
        = (Some c, log' ++ replicate (S j) (page_request st')))
  /\ fetch_page api st log = (Break, log ++ replicate 5 (page_request st))
  /\ get_data api maxId max_value log0
     = (Ok (get_data_return st), log ++ replicate 5 (page_request st)).
Proof.
  intros Hpages Hc Hfail.
  assert (fetch_page api st log = (Break, log ++ replicate 5 (page_request st)))
    as Hbreak.
  { apply fetch_page_break. left. by apply retry_loop_exhausted. }
  split; [|split; [|split]].
  - intros st' log'. unfold fetch_page. fold (page_request st').
    destruct (retry_loop api 5 (page_request st') log') as [content l] eqn:Hr.
    apply retry_loop_attempts in Hr as (k & Hk & -> & Hf & Hcont).
    exists k. split; [|split; [repeat case_match; done|done]].
    destruct content; [lia|]. destruct Hcont as [-> _]. lia.
  - intros st' log' j c Hj Hf Hjson. by apply retry_loop_answer.
  - exact Hbreak.
  - unfold get_data. rewrite (pages_to_loop _ _ _ _ _ _ Hpages).
    by rewrite fetch_loop_eq, Hc, Hbreak.
Qed.

(** C5 on an API that serves one full page and then fails five times, by
    the transport and by the body in turn: the 250 records of the first page
    are returned. *)
Lemma retry_budget_witness :
  pages_to flaky_api 1000000 (get_data_init (Int 0)) [] after_first_page
    [first_request]
  /\ get_data flaky_api (Int 0) 1000000 []
     = (Ok (get_data_return after_first_page),
        [first_request] ++ replicate 5 (page_request after_first_page))
  /\ fst (get_data_return after_first_page) = 250.
Proof.
  assert (pages_to flaky_api 1000000 (get_data_init (Int 0)) [] after_first_page
            [first_request]) as Hpages.
  { eapply pages_next; [reflexivity|vm_compute; reflexivity|apply pages_here]. }
  split; [exact Hpages|]. split; [|vm_compute; reflexivity].
  apply (retry_budget_partial_success flaky_api (Int 0) 1000000 []
           after_first_page [first_request] Hpages).
  - vm_compute; reflexivity.
  - intros [|[|[|[|[|j]]]]] Hj; try (vm_compute; reflexivity). lia.
Defined.



(** C7 as it is stated fails: the sessions set of a normalized page has 15
    columns, not 14; and a geoip set that came without [time_zone] keeps its
    23 columns. *)
Lemma column_sizes_differ :
  normalize small_page empty_world = (Ok small_page_normal, empty_world)
  /\ length (columns (sessions small_page_normal)) = 15%nat
  /\ length (columns (sessions small_page_normal)) <> 14%nat
  /\ (dfs ← fst (normalize short_geoip_page empty_world);
      Ok (length (columns (geoip dfs)))) = Ok 23%nat.
Proof.
  split; [vm_compute; reflexivity|].
  split; [vm_compute; reflexivity|].
  split; [vm_compute; lia|].
  vm_compute; reflexivity.
Qed.

(** C7, as amended.  After the normal form the actions set has the 11 fixed
    columns, [id] among them, the sessions set its 15 fixed columns and the
    hardware set its 6, each in the fixed order; the geoip set has its 24
    fixed columns, unless one of them was missing, in which case it keeps
    the columns it had. *)
Theorem column_contract (dfs dfs' : record_sets) (w w' : world) :
  normalize dfs w = (Ok dfs', w') ->
  columns (actions dfs') = actions_cols
  /\ length actions_cols = 11%nat /\ "id" ∈ actions_cols
  /\ columns (sessions dfs') = sessions_cols /\ length sessions_cols = 15%nat
  /\ columns (hardware dfs') = hardware_cols /\ length hardware_cols = 6%nat
  /\ length geoip_cols = 24%nat
  /\ (columns (geoip dfs') = geoip_cols
      \/ (exists c, c ∈ geoip_cols /\ c ∉ columns (geoip dfs))
         /\ columns (geoip dfs') = columns (geoip dfs)).
Proof.
  rewrite normalize_eq.
  destruct (select actions_cols _) as [a|] eqn:Ha; [|done].
  destruct (select sessions_cols _) as [s|] eqn:Hs; [|done].
  destruct (select_cases geoip_cols (drop_duplicates (geoip dfs)))
    as [[Hg _]|(k & Hg & Hk & Hout)]; rewrite Hg;
    destruct (select hardware_cols _) as [h|] eqn:Hh; try done;
    intros [= <- <-]; simpl;
    apply select_columns in Ha, Hs, Hh;
    repeat split; try done; try (by left).
  right. split; [by exists k|done].
Qed.

(** C7, as amended, on a small page. *)
Lemma column_contract_witness :
  normalize small_page empty_world = (Ok small_page_normal, empty_world)
  /\ columns (actions small_page_normal) = actions_cols
  /\ columns (sessions small_page_normal) = sessions_cols
  /\ columns (hardware small_page_normal) = hardware_cols.
Proof.
  assert (normalize small_page empty_world = (Ok small_page_normal, empty_world))
    as Hn by (vm_compute; reflexivity).
  split; [exact Hn|].
  destruct (column_contract small_page small_page_normal empty_world empty_world Hn)
    as (Ha & _ & _ & Hs & _ & Hh & _).
  auto.
Defined.

(** C8.  Lenient geoip projection.  When a column of the geoip list is
    missing and the other three sets have theirs, the normal form prints the
    labels of the geoip set and keeps that set with its duplicates dropped
    but all its columns, and the checkpoint goes on to write the four files.
    A missing column of the actions, sessions or hardware list raises
    [KeyError] in the normal form instead, and the checkpoint raises. *)
Theorem lenient_geoip (team currentRunTime : string) (dfs : record_sets)
    (w : world) (c : string) :
  (c ∈ geoip_cols -> c ∉ columns (geoip dfs) ->
   (forall a, a ∈ actions_cols -> a ∈ columns (actions dfs)) ->
   (forall s, s ∈ sessions_cols -> s ∈ columns (sessions dfs)) ->
   (forall h, h ∈ hardware_cols -> h ∈ columns (hardware dfs)) ->
   normalize dfs w =
   (Ok {| actions := reindex actions_cols (drop_duplicates (actions dfs));
          sessions := reindex sessions_cols (drop_duplicates (sessions dfs));
          geoip := drop_duplicates (geoip dfs);
          hardware := reindex hardware_cols (drop_duplicates (hardware dfs)) |},
    {| store := store w; http_log := http_log w;
       stdout := stdout w ++ [PrintColumns (columns (geoip dfs))] |})
   /\ forall ids stamp,
        id_astype_int (actions dfs) = Ok ids ->
        get_right_format currentRunTime = Ok stamp ->
        exists b_actions,
          let path collection :=
            collection_directory team collection
            +:+ (stamp +:+ "_" +:+ str (minZ ids) +:+ "_" +:+ str (maxZ ids)
                 +:+ ".csv") in
          checkpoint team currentRunTime (Some dfs) w =
          (Ok tt,
           {| store :=
                adl_write (path "hardware")
                  (encode (to_csv (reindex hardware_cols
                                     (drop_duplicates (hardware dfs)))))
                  (adl_write (path "geoip")
                     (encode (to_csv (drop_duplicates (geoip dfs))))
                     (adl_write (path "sessions")
                        (encode (to_csv (reindex sessions_cols
                                           (drop_duplicates (sessions dfs)))))
                        (adl_write (path "actions") b_actions (store w))));
              http_log := http_log w;
              stdout := stdout w ++ [PrintColumns (columns (geoip dfs));
                                     PrintLine "Pushing actions to ADL";
                                     PrintLine "Pushing sessions to ADL";
                                     PrintLine "Pushing geoip to ADL";
                                     PrintLine "Pushing hardware to ADL"] |}))
  /\ ((c ∈ actions_cols /\ c ∉ columns (actions dfs))
      \/ (c ∈ sessions_cols /\ c ∉ columns (sessions dfs))
      \/ (c ∈ hardware_cols /\ c ∉ columns (hardware dfs)) ->
      (exists k, fst (normalize dfs w) = Raise (KeyError k))
      /\ exists e, fst (checkpoint team currentRunTime (Some dfs) w) = Raise e).
Proof.
  split.
  - intros Hc Hout Ha Hs Hh. split; [by eapply normalize_lenient|].
    intros ids stamp Hids Hfmt. by eapply lenient_checkpoint.
  - intros Hc. split; [by eapply normalize_fatal|by eapply checkpoint_fatal].
Qed.

(** C8 on a page whose geoip set lacks [time_zone]. *)
Lemma lenient_geoip_witness :
  fst (normalize short_geoip_page empty_world)
  = Ok {| actions := reindex actions_cols (drop_duplicates (actions short_geoip_page));
          sessions := reindex sessions_cols (drop_duplicates (sessions short_geoip_page));
          geoip := drop_duplicates (geoip short_geoip_page);
          hardware := reindex hardware_cols (drop_duplicates (hardware short_geoip_page)) |}
  /\ stdout (snd (normalize short_geoip_page empty_world))
     = [PrintColumns (removelast geoip_cols)].
Proof.
  destruct (lenient_geoip "mls_tor" T0 short_geoip_page empty_world "time_zone")
    as [Hlenient _].
  destruct Hlenient as [Hn _].
  - apply (bool_decide_unpack _). vm_compute. exact I.
  - apply (bool_decide_unpack _). vm_compute. exact I.
  - apply Forall_forall. apply (bool_decide_unpack _). vm_compute. exact I.
  - apply Forall_forall. apply (bool_decide_unpack _). vm_compute. exact I.
  - apply Forall_forall. apply (bool_decide_unpack _). vm_compute. exact I.
  - rewrite Hn. split; reflexivity.
Defined.

(** C9.  Idempotent checkpoint write.  A write that succeeds puts, at the
    path made of the directory of the collection, the formatted timestamp
    and the two identifiers, the bytes of the CSV text of the frame: the
    line of the column labels, then one line per row, no index column.  The
    same call on the resulting world leaves it as it is, and the same call
    on any world writes the same path and bytes. *)
Theorem idempotent_checkpoint (team collection : string) (df : DataFrame)
    (currentRunTime : string) (minAct maxAct : pynum) (w w1 : world) :
  push_to_adl team collection df currentRunTime minAct maxAct w = (Ok tt, w1) ->
  exists stamp,
    get_right_format currentRunTime = Ok stamp
    /\ let path :=
         collection_directory team collection
         +:+ (stamp +:+ "_" +:+ str minAct +:+ "_" +:+ str maxAct +:+ ".csv") in
       let bytes :=
         encode (csv_record (columns df)
                 +:+ String.concat ""
                       (map (fun r => csv_record (map cell_text r)) (rows df))) in
       store w1 = (path, bytes) :: filter (fun e => e.1 <> path) (store w)
       /\ adl_read path (store w1) = Ok bytes
       /\ push_to_adl team collection df currentRunTime minAct maxAct w1
          = (Ok tt, w1)
       /\ forall w2 w3,
            push_to_adl team collection df currentRunTime minAct maxAct w2
            = (Ok tt, w3) -> head (store w3) = Some (path, bytes).
Proof.
  rewrite push_to_adl_eq.
  destruct (get_right_format currentRunTime) as [stamp|e] eqn:Hfmt; [|done].
  intros [= <-]. exists stamp. split; [done|].
  simpl. split; [done|]. split; [apply adl_read_write|]. split.
  - rewrite push_to_adl_eq, Hfmt. unfold with_store. simpl.
    by rewrite adl_write_twice.
  - intros w2 w3. rewrite push_to_adl_eq, Hfmt. by intros [= <-].
Qed.

(** C9 on a frame of two actions. *)
Lemma idempotent_checkpoint_witness :
  push_to_adl "mls_tor" "actions" two_actions T0 (Int 1) (Int 2) empty_world
  = (Ok tt, world_after_push)
  /\ push_to_adl "mls_tor" "actions" two_actions T0 (Int 1) (Int 2) world_after_push
     = (Ok tt, world_after_push).
Proof.
  assert (push_to_adl "mls_tor" "actions" two_actions T0 (Int 1) (Int 2) empty_world
          = (Ok tt, world_after_push)) as Hpush by (vm_compute; reflexivity).
  split; [exact Hpush|].
  destruct (idempotent_checkpoint _ _ _ _ _ _ _ _ Hpush) as (stamp & _ & H).
  apply H.
Defined.

(** C10.  The file names of a run segment.  A checkpoint that succeeds
    writes four files, one in the directory of each collection, all under
    the same name: the formatted run timestamp, which depends on the start
    time of the run alone, then the least and the greatest identifier of the
    actions set, written without padding.  The other three sets are named by
    the range of the actions, and segments of one run differ in the two
    identifiers only. *)
Theorem segment_file_names (team currentRunTime : string) (dfs : record_sets)
    (w w' : world) :
  checkpoint team currentRunTime (Some dfs) w = (Ok tt, w') ->
  exists stamp ids b_actions b_sessions b_geoip b_hardware,
    get_right_format currentRunTime = Ok stamp
    /\ id_astype_int (actions dfs) = Ok ids
    /\ (ids <> [] ->
        exists lo hi, minZ ids = Int lo /\ maxZ ids = Int hi
          /\ lo ∈ ids /\ hi ∈ ids /\ forall i, i ∈ ids -> lo <= i <= hi)
    /\ let fileName :=
         stamp +:+ "_" +:+ str (minZ ids) +:+ "_" +:+ str (maxZ ids) +:+ ".csv" in
       store w' =
       adl_write (collection_directory team "hardware" +:+ fileName) b_hardware
         (adl_write (collection_directory team "geoip" +:+ fileName) b_geoip
            (adl_write (collection_directory team "sessions" +:+ fileName) b_sessions
               (adl_write (collection_directory team "actions" +:+ fileName) b_actions
                  (store w)))).
Proof.
  rewrite checkpoint_eq.
  destruct (set_id_int (actions dfs)) as [actions0|] eqn:Hset; [|done].
  destruct (id_astype_int actions0) as [ids|] eqn:Hids0; [|done].
  assert (id_astype_int (actions dfs) = Ok ids) as Hids.
  { unfold set_id_int in Hset.
    destruct (id_astype_int (actions dfs)) as [ids'|] eqn:Hids'; [|done].
    destruct (set_id_int_ids _ _ _ Hids' ltac:(by unfold set_id_int; rewrite Hids'))
      as (_ & Hsame & _).
    congruence. }
  destruct (normalize _ w) as [[dfs'|e] w1] eqn:Hnorm; [|done].
  apply normalize_store in Hnorm as [Hstore _].
  rewrite push_all_four.
  destruct (get_right_format currentRunTime) as [stamp|e]; [|done].
  intros [= <-]. simpl. rewrite Hstore.
  exists stamp, ids, (encode (to_csv (actions dfs'))),
    (encode (to_csv (sessions dfs'))), (encode (to_csv (geoip dfs'))),
    (encode (to_csv (hardware dfs'))).
  split; [done|]. split; [done|]. split; [|done].
  intros Hne. destruct (minZ_spec ids Hne) as (lo & Hlo & Hlo_in & Hlo_le).
  destruct (maxZ_spec ids Hne) as (hi & Hhi & Hhi_in & Hhi_le).
  exists lo, hi. repeat split; auto.
Qed.

(** C10 on a small page. *)
Lemma segment_file_names_witness :
  checkpoint "mls_tor" T0 (Some small_page) empty_world
  = (Ok tt, world_after_checkpoint)
  /\ exists stamp ids,
       get_right_format T0 = Ok stamp
       /\ id_astype_int (actions small_page) = Ok ids
       /\ map fst (store world_after_checkpoint)
          = map (fun c => collection_directory "mls_tor" c
                          +:+ (stamp +:+ "_" +:+ str (minZ ids) +:+ "_"
                               +:+ str (maxZ ids) +:+ ".csv"))
              ["hardware"; "geoip"; "sessions"; "actions"].
Proof.
  assert (checkpoint "mls_tor" T0 (Some small_page) empty_world
          = (Ok tt, world_after_checkpoint)) as Hcp by (vm_compute; reflexivity).
  split; [exact Hcp|].
  destruct (segment_file_names _ _ _ _ _ Hcp)
    as (stamp & ids & ba & bs & bg & bh & Hfmt & Hids & _ & Hstore).
  exists stamp, ids. split; [exact Hfmt|]. split; [exact Hids|].
  cbv zeta in Hstore. rewrite Hstore. reflexivity.
Defined.

(** * Further properties *)



(** X2.  Empty-watermark bootstrap.  When the actions directory lists no
    file the resolver returns 0, and the driver's first request asks for
    the identifiers from 1 on. *)
Theorem empty_watermark_bootstrap (api : remote_api)
    (team currentRunTime : string) (w : world) :
  adl_listdir (actions_directory team) (store w) = [] ->
  get_max_id_adl team w = (Ok (Int 0), w)
  /\ exists rest, http_log (snd (iteration api team currentRunTime w))
       = http_log w ++ {| req_startId := Int 1; req_maxRecords := 250 |} :: rest.
Proof.
  intros Hnil. pose proof (get_max_id_adl_none team w Hnil) as Hzero.
  split; [done|].
  apply (iteration_first_request api team currentRunTime w (Int 0)).
  by rewrite Hzero.
Qed.

(** X2 on the empty lake. *)
Lemma empty_watermark_bootstrap_witness :
  get_max_id_adl "mls_tor" empty_world = (Ok (Int 0), empty_world)
  /\ exists rest, http_log (snd (iteration stub_api "mls_tor" T0 empty_world))
       = http_log empty_world
         ++ {| req_startId := Int 1; req_maxRecords := 250 |} :: rest.
Proof.
  apply (empty_watermark_bootstrap stub_api "mls_tor" T0 empty_world).
  reflexivity.
Defined.

(** X3.  Short-page termination.  When the first page comes back at the
    first attempt with fewer than 250 actions, [get_data] sends exactly one
    request. *)
Theorem short_page_single_request (api : remote_api) (maxId : pynum)
    (max_value : Z) (log : list request) (p : record_sets) :
  0 < max_value ->
  api log {| req_startId := succ maxId; req_maxRecords := 250 |} = Json (JPage p) ->
  len (actions p) < limit ->
  snd (get_data api maxId max_value log)
  = log ++ [ {| req_startId := succ maxId; req_maxRecords := 250 |} ].
Proof.
  intros Hmax Hpage Hshort. unfold get_data.
  rewrite fetch_loop_eq.
  assert (continue max_value (get_data_init maxId) = true) as ->
    by (unfold continue, limit; simpl; lia).
  unfold fetch_page. simpl retry_loop. simpl newMaxId. simpl maxRecords.
  rewrite Hpage. cbv zeta.
  destruct (0 <? len (actions p)) eqn:Hn.
  - destruct (id_astype_int (actions p)) as [ids|e]; [|done].
    rewrite fetch_loop_eq.
    match goal with
    | |- context [continue max_value ?s] =>
        assert (continue max_value s = false) as ->
          by (apply continue_false; left; exact Hshort)
    end.
    done.
  - rewrite fetch_loop_eq.
    match goal with
    | |- context [continue max_value ?s] =>
        assert (continue max_value s = false) as ->
          by (apply continue_false; left; exact Hshort)
    end.
    done.
Qed.

(** X3 on a source of nine actions. *)
Lemma short_page_single_request_witness :
  snd (get_data (source_api (seqZ 1 9)) (Int 0) 1000000 [])
  = [] ++ [ {| req_startId := succ (Int 0); req_maxRecords := 250 |} ].
Proof.
  apply (short_page_single_request (source_api (seqZ 1 9)) (Int 0) 1000000 []
           (page_of (seqZ 1 9))).
  - lia.
  - vm_compute; reflexivity.
  - vm_compute; reflexivity.
Defined.

(** X4.  Dedup correctness.  Dropping the duplicates keeps the columns,
    leaves no two equal rows, keeps every row that occurs, in the order of
    the frame, and keeps of equal rows the last: the last row of the frame
    is the last row of the result. *)
Theorem dedup_keeps_last (df : DataFrame) :
  columns (drop_duplicates df) = columns df
  /\ NoDup (rows (drop_duplicates df))
  /\ (forall r, r ∈ rows (drop_duplicates df) <-> r ∈ rows df)
  /\ rows (drop_duplicates df) `sublist_of` rows df
  /\ forall front r, rows df = front ++ [r] ->
       exists kept, rows (drop_duplicates df) = kept ++ [r].
Proof.
  unfold drop_duplicates. simpl. rewrite drop_last_dups_remove_dups.
  split; [done|]. split; [apply NoDup_remove_dups|].
  split; [intros r; apply elem_of_remove_dups|].
  split.
  - induction (rows df) as [|r rs IH]; [done|]. simpl.
    destruct (decide_rel elem_of r rs).
    + by apply sublist_cons.
    + by apply sublist_skip.
  - intros front r ->. induction front as [|x front IH]; simpl.
    + by exists [].
    + destruct IH as [kept Hk].
      destruct (decide_rel elem_of x (front ++ [r])).
      * by exists kept.
      * exists (x :: kept). by rewrite Hk.
Qed.

(** * Lemmas for the further properties *)

(** ** The fetcher *)

Lemma fetch_loop_pages api max_value st log r log_f :
  fetch_loop api max_value st log = (r, log_f) ->
  exists st' log',
    pages_to api max_value st log st' log'
    /\ ((continue max_value st' = false /\ r = Ok st' /\ log_f = log')
        \/ (continue max_value st' = true
            /\ fetch_page api st' log' = (Break, log_f) /\ r = Ok st')
        \/ (continue max_value st' = true
            /\ exists e, fetch_page api st' log' = (Raised e, log_f) /\ r = Raise e)).
Proof.
  revert r log_f.
  apply (fetch_loop_elim api max_value (fun st log res =>
    forall r log_f, res = (r, log_f) ->
    exists st' log',
      pages_to api max_value st log st' log'
      /\ ((continue max_value st' = false /\ r = Ok st' /\ log_f = log')
          \/ (continue max_value st' = true
              /\ fetch_page api st' log' = (Break, log_f) /\ r = Ok st')
          \/ (continue max_value st' = true
              /\ exists e, fetch_page api st' log' = (Raised e, log_f) /\ r = Raise e))));
    clear st log.
  - intros st Hc log _ r log_f [= <- <-]. exists st, log.
    split; [apply pages_here|]. by left.
  - intros st Hc log st1 log1 Hp IH _ _ r log_f Hl.
    destruct (IH _ _ Hl) as (st' & log' & Hpages & Hend).
    exists st', log'. split; [by eapply pages_next|done].
  - intros st Hc log log1 Hp _ _ r log_f [= <- <-]. exists st, log.
    split; [apply pages_here|]. right; left. done.
  - intros st Hc log e log1 Hp _ _ r log_f [= <- <-]. exists st, log.
    split; [apply pages_here|]. right; right. eauto.
Qed.

Lemma pages_to_invariant api max_value (I : fetch_state -> list request -> Prop) :
  (forall st log st' log',
     I st log -> continue max_value st = true ->
     fetch_page api st log = (Next st', log') -> I st' log') ->
  forall st log st' log',
    pages_to api max_value st log st' log' -> I st log -> I st' log'.
Proof.
  intros Hstep st log st' log' Hpages.
  induction Hpages as [|st log st1 log1 st2 log2 Hc Hp _ IH]; [done|].
  intros HI. apply IH. by eapply Hstep.
Qed.

(** What a page that sends the loop round again does to the state. *)
Lemma fetch_page_next api st log st' log' :
  fetch_page api st log = (Next st', log') ->
  exists p, retry_loop api 5 (page_request st) log = (Some (JPage p), log')
    /\ maxRecords st' = len (actions p)
    /\ ((0 < len (actions p)
         /\ exists ids, id_astype_int (actions p) = Ok ids
            /\ newMaxId st' = succ (maxZ ids)
            /\ value_count st' = value_count st + len (actions p)
            /\ actions_l st' = actions_l st ++ [actions p]
            /\ sessions_l st' = sessions_l st ++ [sessions p]
            /\ geoip_l st' = geoip_l st ++ [geoip p]
            /\ hardware_l st' = hardware_l st ++ [hardware p])
        \/ (len (actions p) = 0
            /\ newMaxId st' = newMaxId st
            /\ value_count st' = value_count st
            /\ actions_l st' = actions_l st
            /\ sessions_l st' = sessions_l st
            /\ geoip_l st' = geoip_l st
            /\ hardware_l st' = hardware_l st)).
Proof.
  unfold fetch_page. fold (page_request st).
  destruct (retry_loop api 5 (page_request st) log) as [[[|p|]|] l]; try done.
  destruct (0 <? len (actions p)) eqn:Hn.
  - destruct (id_astype_int (actions p)) as [ids|] eqn:Hids; [|done].
    intros [= <- <-]. exists p. split; [done|]. split; [done|]. left.
    split; [lia|]. exists ids. done.
  - intros [= <- <-]. exists p. split; [done|]. split; [done|]. right.
    split; [unfold len in *; lia|done].
Qed.

Lemma fetch_loop_final api max_value st log st_f log_f :
  fetch_loop api max_value st log = (Ok st_f, log_f) ->
  exists log', pages_to api max_value st log st_f log'.
Proof.
  intros (st' & log' & Hpages & [(_ & [= <-] & _)|[(_ & _ & [= <-])|(_ & e & _ & [=])]])%fetch_loop_pages;
    eauto.
Qed.

Lemma length_rows_concat (dfs : list DataFrame) :
  length (rows (concat dfs)) = length (flat_map rows dfs).
Proof.
  unfold concat. simpl. generalize (union_columns [] dfs) as cols. intros cols.
  induction dfs as [|df dfs IH]; [done|]. simpl.
  rewrite !length_app, length_map. by rewrite IH.
Qed.

Lemma len_concat_snoc (dfs : list DataFrame) (df : DataFrame) :
  len (concat (dfs ++ [df])) = len (concat dfs) + len df.
Proof.
  unfold len. rewrite !length_rows_concat, flat_map_app, length_app. simpl.
  rewrite app_nil_r. lia.
Qed.

Lemma pages_to_count api max_value st log st' log' :
  pages_to api max_value st log st' log' ->
  value_count st = len (concat (actions_l st)) ->
  value_count st' = len (concat (actions_l st')).
Proof.
  apply (pages_to_invariant api max_value
           (fun st _ => value_count st = len (concat (actions_l st)))).
  clear. intros st log st' log' HI _ Hp.
  apply fetch_page_next in Hp as (p & _ & _ & [(Hn & ids & _ & _ & Hv & Ha & _)|(Hn & _ & Hv & Ha & _)]).
  - rewrite Hv, Ha, len_concat_snoc. lia.
  - by rewrite Hv, Ha.
Qed.

Lemma get_data_count api maxId max_value log log' n r :
  get_data api maxId max_value log = (Ok (n, r), log') ->
  match r with
  | Some dfs => 0 < n /\ len (actions dfs) = n
  | None => n = 0
  end.
Proof.
  unfold get_data.
  destruct (fetch_loop api max_value (get_data_init maxId) log) as [[st|e] l] eqn:Hl;
    [|done].
  simpl. intros [= Hret <-].
  apply fetch_loop_final in Hl as [l' Hpages].
  apply pages_to_count in Hpages; [|done].
  unfold get_data_return in Hret.
  destruct (0 <? value_count st) eqn:Hpos; simplify_eq; [|done].
  simpl. split; [lia|done].
Qed.

Lemma pages_left_step api max_value st log st' log' :
  continue max_value st = true ->
  fetch_page api st log = (Next st', log') ->
  (S (pages_left max_value st') <= pages_left max_value st)%nat.
Proof.
  intros Hc Hp. unfold pages_left. rewrite Hc.
  apply andb_true_iff in Hc as [_ Hroom%Z.ltb_lt].
  assert (1 <= (max_value - value_count st + (limit - 1)) / limit) as Hone.
  { apply Z.div_le_lower_bound; unfold limit; lia. }
  destruct (continue max_value st') eqn:Hc'; [|lia].
  apply andb_true_iff in Hc' as [Hfull%Z.leb_le Hroom'%Z.ltb_lt].
  apply fetch_page_next in Hp
    as (p & _ & Hm & [(Hn & ids & _ & _ & Hv & _)|(Hn & _)]).
  - rewrite Hv. rewrite <- Hm.
    assert ((max_value - (value_count st + maxRecords st') + (limit - 1)) / limit
            <= (max_value - value_count st + (limit - 1)) / limit - 1); [|lia].
    replace ((max_value - value_count st + (limit - 1)) / limit - 1)
      with ((max_value - value_count st + (limit - 1) + (-1) * limit) / limit)
      by (rewrite Z.div_add by (unfold limit; lia); lia).
    apply Z.div_le_mono; unfold limit in *; lia.
  - unfold limit in *. lia.
Qed.

Lemma fetch_loop_request_bound api max_value st log :
  (length (snd (fetch_loop api max_value st log))
   <= length log + 5 * pages_left max_value st)%nat.
Proof.
  apply (fetch_loop_elim api max_value (fun st log res =>
    (length (snd res) <= length log + 5 * pages_left max_value st)%nat));
    clear st log.
  - intros st _ log _. simpl. lia.
  - intros st Hc log st' log' Hp IH _ _.
    pose proof (pages_left_step _ _ _ _ _ _ Hc Hp) as Hstep.
    apply fetch_page_log in Hp as (k & Hk & ->).
    rewrite length_app, length_replicate in IH. lia.
  - intros st Hc log log' Hp _ _. simpl.
    apply fetch_page_log in Hp as (k & Hk & ->).
    rewrite length_app, length_replicate.
    assert (1 <= pages_left max_value st)%nat; [|lia].
    unfold pages_left. rewrite Hc.
    apply andb_true_iff in Hc as [_ Hroom%Z.ltb_lt].
    assert (1 <= (max_value - value_count st + (limit - 1)) / limit); [|lia].
    apply Z.div_le_lower_bound; unfold limit; lia.
  - intros st Hc log e log' Hp _ _. simpl.
    apply fetch_page_log in Hp as (k & Hk & ->).
    rewrite length_app, length_replicate.
    assert (1 <= pages_left max_value st)%nat; [|lia].
    unfold pages_left. rewrite Hc.
    apply andb_true_iff in Hc as [_ Hroom%Z.ltb_lt].
    assert (1 <= (max_value - value_count st + (limit - 1)) / limit); [|lia].
    apply Z.div_le_lower_bound; unfold limit; lia.
Qed.

Lemma fetch_loop_requests api max_value (I : fetch_state -> Prop)
    (Q : request -> Prop) :
  (forall st log st' log',
     I st -> continue max_value st = true ->
     fetch_page api st log = (Next st', log') -> I st') ->
  (forall st, I st -> continue max_value st = true -> Q (page_request st)) ->
  forall st log, I st ->
    exists l, snd (fetch_loop api max_value st log) = log ++ l /\ Forall Q l.
Proof.
  intros Hstep HQ st log.
  apply (fetch_loop_elim api max_value (fun st log res =>
    I st -> exists l, snd res = log ++ l /\ Forall Q l)); clear st log.
  - intros st _ log _ _. exists []. by rewrite app_nil_r.
  - intros st Hc log st' log' Hp IH _ _ HI.
    destruct IH as (l & -> & Hl); [by eapply Hstep|].
    apply fetch_page_log in Hp as (k & _ & ->).
    exists (replicate k (page_request st) ++ l). rewrite <- app_assoc.
    split; [done|]. apply Forall_app. split; [|done].
    apply Forall_replicate. by apply HQ.
  - intros st Hc log log' Hp _ _ HI. simpl.
    apply fetch_page_log in Hp as (k & _ & ->). eexists. split; [done|].
    apply Forall_replicate. by apply HQ.
  - intros st Hc log e log' Hp _ _ HI. simpl.
    apply fetch_page_log in Hp as (k & _ & ->). eexists. split; [done|].
    apply Forall_replicate. by apply HQ.
Qed.

Lemma retry_loop_page api retry req log p log' :
  retry_loop api retry req log = (Some (JPage p), log') ->
  exists log1, api log1 req = Json (JPage p).
Proof.
  intros (k & _ & _ & _ & _ & Hc)%retry_loop_attempts. eauto.
Qed.

Lemma index_of_Some c cols j : index_of c cols = Some j -> cols !! j = Some c.
Proof.
  revert j. induction cols as [|c' cols IH]; intros j; simpl; [done|].
  destruct (decide (c' = c)) as [->|_]; [by intros [= <-]|].
  destruct (index_of c cols) as [i|]; [|done]. simpl. intros [= <-]. by apply IH.
Qed.

Lemma index_of_elem c cols : c ∈ cols -> exists j, index_of c cols = Some j.
Proof.
  induction cols as [|c' cols IH]; [by intros ?%elem_of_nil|]. simpl.
  destruct (decide (c' = c)) as [->|Hne]; [eauto|].
  intros [->|Hin]%elem_of_cons; [done|]. destruct (IH Hin) as [j ->]. eauto.
Qed.

Lemma index_of_lookup cols i c :
  NoDup cols -> cols !! i = Some c -> index_of c cols = Some i.
Proof.
  intros Hnd. revert i. induction Hnd as [|c' cols Hnotin _ IH]; intros i; [done|].
  destruct i as [|i]; simpl.
  - intros [= ->]. by rewrite decide_True.
  - intros Hi. rewrite decide_False.
    + by rewrite (IH _ Hi).
    + intros ->. apply Hnotin. by eapply list_elem_of_lookup_2.
Qed.

Lemma union_columns_acc acc dfs c : c ∈ acc -> c ∈ union_columns acc dfs.
Proof.
  revert acc. induction dfs as [|df dfs IH]; intros acc Hc; [done|]. simpl.
  apply IH. apply elem_of_app. by left.
Qed.

Lemma union_columns_elem acc dfs df c :
  df ∈ dfs -> c ∈ columns df -> c ∈ union_columns acc dfs.
Proof.
  revert acc. induction dfs as [|df' dfs IH]; intros acc; [by intros ?%elem_of_nil|].
  simpl. intros [->|Hin]%elem_of_cons Hc; [|by apply IH].
  apply union_columns_acc. destruct (decide (c ∈ acc)) as [Hacc|Hacc].
  - apply elem_of_app. by left.
  - apply elem_of_app. right. by apply list_elem_of_filter.
Qed.

Lemma column_reindex c cols df :
  c ∈ cols -> c ∈ columns df ->
  column c (reindex cols df) = column c df.
Proof.
  intros [j Hj]%index_of_elem [i Hi]%index_of_elem.
  unfold column. simpl. rewrite Hj, Hi. f_equal.
  rewrite map_map. apply map_ext. intros r.
  rewrite list_lookup_fmap, (index_of_Some _ _ _ Hj). simpl.
  unfold cell_at. by rewrite Hi.
Qed.

Lemma mapR_app {A B} (f : A -> result B) l1 l2 ys1 ys2 :
  mapR f l1 = Ok ys1 -> mapR f l2 = Ok ys2 -> mapR f (l1 ++ l2) = Ok (ys1 ++ ys2).
Proof.
  revert ys1. induction l1 as [|x l1 IH]; intros ys1; simpl.
  - by intros [= <-].
  - destruct (f x) as [y|]; [|done]. simpl.
    destruct (mapR f l1) as [zs|]; [|done]. simpl. intros [= <-] H2.
    by rewrite (IH zs eq_refl H2).
Qed.

Lemma mapR_Forall2 {A B} (f : A -> result B) l ys :
  mapR f l = Ok ys <-> Forall2 (fun x y => f x = Ok y) l ys.
Proof.
  revert ys. induction l as [|x l IH]; intros ys; simpl.
  - split; [intros [= <-]; constructor|by intros ->%Forall2_nil_inv_l].
  - split.
    + destruct (f x) as [y|] eqn:Hx; [|done]. simpl.
      destruct (mapR f l) as [zs|]; [|done]. simpl. intros [= <-].
      constructor; [done|]. by apply IH.
    + intros (y & zs & Hx & Hzs & ->)%Forall2_cons_inv_l.
      rewrite Hx. simpl. apply IH in Hzs. by rewrite Hzs.
Qed.

Lemma id_astype_int_column df ids :
  id_astype_int df = Ok ids ->
  "id" ∈ columns df
  /\ exists cells, column "id" df = Ok cells /\ mapR int_of_cell cells = Ok ids.
Proof.
  unfold id_astype_int. destruct (column "id" df) as [cells|] eqn:Hcol; [|done].
  simpl. intros Hids. split; [|eauto].
  unfold column in Hcol. destruct (index_of "id" (columns df)) as [i|] eqn:Hi; [|done].
  apply index_of_Some in Hi. by eapply list_elem_of_lookup_2.
Qed.

Lemma id_astype_int_concat (dfs : list DataFrame) (idss : list (list Z)) :
  dfs <> [] ->
  Forall2 (fun df ids => id_astype_int df = Ok ids) dfs idss ->
  id_astype_int (concat dfs) = Ok (mjoin idss).
Proof.
  intros Hne Hall. unfold concat.
  set (cols := union_columns [] dfs).
  assert ("id" ∈ cols) as Hid.
  { destruct Hall as [|df ids dfs' idss' Hdf _]; [done|].
    apply id_astype_int_column in Hdf as [Hin _].
    eapply union_columns_elem; [left|done]. }
  assert (forall df, df ∈ dfs -> forall c, c ∈ columns df -> c ∈ cols) as Hsub.
  { intros df Hdf c Hc. by eapply union_columns_elem. }
  clearbody cols. clear Hne.
  unfold id_astype_int, column. simpl.
  destruct (index_of_elem _ _ Hid) as [j Hj]. rewrite Hj. simpl.
  induction Hall as [|df ids dfs idss Hdf _ IH]; [done|]. simpl.
  rewrite map_app.
  apply mapR_app.
  - apply id_astype_int_column in Hdf as (Hin & cells & Hcol & Hcells).
    pose proof (column_reindex "id" cols df Hid Hin) as Hre.
    rewrite Hcol in Hre. unfold column in Hre. simpl in Hre. rewrite Hj in Hre.
    by injection Hre as ->.
  - apply IH. intros df' Hdf'. apply Hsub. by right.
Qed.

Lemma cursor_invariant_init m : cursor_invariant m (get_data_init (Int m)).
Proof.
  exists (m + 1), []. split; [done|]. split; [lia|].
  split; [constructor|]. split; constructor.
Qed.

Lemma cursor_invariant_step api m st log st' log' :
  honours_startId api ->
  cursor_invariant m st ->
  fetch_page api st log = (Next st', log') ->
  cursor_invariant m st'.
Proof.
  intros Hhon (c & idss & Hcur & Hm & Hpages & Hin & Hsorted) Hp.
  apply fetch_page_next in Hp
    as (p & Hr & _ & [(Hn & ids & Hids & Hnew & _ & Ha & _)|(_ & Hnew & _ & Ha & _)]).
  - apply retry_loop_page in Hr as [log1 Hapi].
    pose proof (Hhon _ _ _ c ids Hapi Hcur Hids) as Hge.
    destruct (maxZ_spec ids) as (mx & Hmx & Hmx_in & Hmx_le).
    { apply id_astype_int_length in Hids. unfold len in Hn.
      destruct ids; [simpl in Hids; lia|done]. }
    pose proof (Hge _ Hmx_in) as Hc_mx.
    exists (mx + 1), (idss ++ [ids]).
    split; [by rewrite Hnew, Hmx|]. split; [lia|]. split; [|split].
    + unfold page_ids. rewrite Ha. apply Forall2_app; [done|].
      by constructor.
    + apply Forall_app. split.
      * eapply Forall_impl; [exact Hin|]. intros l Hl.
        eapply Forall_impl; [exact Hl|]. simpl. intros; lia.
      * constructor; [|constructor]. apply Forall_forall. intros i Hi.
        pose proof (Hge _ Hi). pose proof (Hmx_le _ Hi). lia.
    + apply StronglySorted_app_2; [|done|repeat constructor].
      intros l1 l2 Hl1 ->%list_elem_of_singleton a b Ha1 Hb.
      rewrite Forall_forall in Hin. specialize (Hin _ Hl1).
      rewrite Forall_forall in Hin. specialize (Hin _ Ha1).
      pose proof (Hge _ Hb). lia.
  - exists c, idss. rewrite Hnew. unfold page_ids. rewrite Ha. done.
Qed.

Lemma actions_l_nonempty api max_value st log st' log' :
  pages_to api max_value st log st' log' ->
  (0 < value_count st -> actions_l st <> []) ->
  0 < value_count st' -> actions_l st' <> [].
Proof.
  apply (pages_to_invariant api max_value
           (fun st _ => 0 < value_count st -> actions_l st <> [])).
  clear. intros st log st' log' HI _ Hp.
  apply fetch_page_next in Hp
    as (p & _ & _ & [(_ & ids & _ & _ & _ & Ha & _)|(_ & _ & Hv & Ha & _)]).
  - rewrite Ha. intros _. by destruct (actions_l st).
  - by rewrite Hv, Ha.
Qed.

Lemma mapR_int_of_cell_CInt (l : list Z) : mapR int_of_cell (map CInt l) = Ok l.
Proof. induction l as [|i l IH]; [done|]. simpl. by rewrite IH. Qed.

Lemma id_astype_int_actions_page_of (l ids : list Z) :
  id_astype_int (actions (page_of l)) = Ok ids -> ids = l.
Proof.
  destruct l as [|i l]; [done|].
  unfold id_astype_int, column, page_of, frame_of. simpl columns.
  change (index_of "id" actions_cols) with (Some 0%nat).
  cbn [mbind result_bind rows actions]. rewrite map_map.
  rewrite (map_ext _ CInt) by done.
  rewrite mapR_int_of_cell_CInt. by intros [= <-].
Qed.

Lemma source_api_honours (source : list Z) : honours_startId (source_api source).
Proof.
  intros log req p s ids Hapi Hs Hids i Hi. unfold source_api in Hapi.
  rewrite Hs in Hapi. injection Hapi as <-.
  apply id_astype_int_actions_page_of in Hids as ->.
  apply elem_of_take in Hi as (k & Hk & _).
  apply list_elem_of_lookup_2 in Hk. by apply list_elem_of_filter in Hk as [? _].
Qed.

Lemma reindex_same cols rs :
  NoDup cols ->
  Forall (fun r => length r = length cols) rs ->
  reindex cols {| columns := cols; rows := rs |} = {| columns := cols; rows := rs |}.
Proof.
  intros Hnd Hrows. unfold reindex. simpl. f_equal.
  rewrite <- (map_id rs) at 2. apply Forall_fmap_ext_1.
  eapply Forall_impl; [exact Hrows|]. intros r Hr. simpl in *.
  apply list_eq. intros i. rewrite list_lookup_fmap.
  destruct (cols !! i) as [c|] eqn:Hc; simpl.
  - unfold cell_at. rewrite (index_of_lookup _ _ _ Hnd Hc).
    destruct (r !! i) as [x|] eqn:Hx; [done|].
    apply lookup_ge_None in Hx. apply lookup_lt_Some in Hc. lia.
  - apply lookup_ge_None in Hc. symmetry. apply lookup_ge_None. lia.
Qed.

Lemma filter_all_present (acc cols : list string) :
  (forall c, c ∈ cols -> c ∈ acc) -> filter (fun c => c ∉ acc) cols = [].
Proof.
  intros Hall. induction cols as [|c cols IH]; [done|].
  rewrite filter_cons. destruct (decide (c ∉ acc)) as [Hc|_].
  - destruct Hc. apply Hall. left.
  - apply IH. intros c' Hc'. apply Hall. by right.
Qed.

Lemma union_columns_same cols dfs :
  Forall (fun df => columns df = cols) dfs -> union_columns cols dfs = cols.
Proof.
  induction 1 as [|df dfs Hdf _ IH]; [done|]. simpl.
  rewrite filter_all_present by (by rewrite Hdf). by rewrite app_nil_r.
Qed.

Lemma filter_none_present (cols : list string) :
  filter (fun c => c ∉ @nil string) cols = cols.
Proof.
  induction cols as [|c cols IH]; [done|].
  rewrite filter_cons, decide_True by (by intros ?%elem_of_nil). by rewrite IH.
Qed.

(** ** Strings *)

Lemma append_cons c s t : String c s +:+ t = String c (s +:+ t).
Proof. reflexivity. Qed.

Lemma append_char c x : String c "" +:+ x = String c x.
Proof. reflexivity. Qed.

Lemma append_nil_r s : s +:+ "" = s.
Proof. induction s as [|c s IH]; [done|]. by rewrite append_cons, IH. Qed.

Lemma append_assoc s t u : (s +:+ t) +:+ u = s +:+ t +:+ u.
Proof. induction s as [|c s IH]; [done|]. by rewrite !append_cons, IH. Qed.

Lemma length_append s t :
  String.length (s +:+ t) = (String.length s + String.length t)%nat.
Proof. induction s as [|c s IH]; [done|]. rewrite append_cons. simpl. by rewrite IH. Qed.

Lemma rev_app_rev_app a b c :
  String.rev_app (String.rev_app a b) c = String.rev_app b (a +:+ c).
Proof.
  revert b c. induction a as [|x a IH]; intros b c; [done|].
  simpl. by rewrite IH.
Qed.

Lemma rev_rev_app f : String.rev (String.rev_app f "") = f.
Proof. unfold String.rev. rewrite rev_app_rev_app. simpl. apply append_nil_r. Qed.

Lemma concat_nil_cons x l : String.concat "" (x :: l) = x +:+ String.concat "" l.
Proof. destruct l; simpl; [by rewrite append_nil_r|done]. Qed.

Lemma compare_append_same p a b :
  String.compare (p +:+ a) (p +:+ b) = String.compare a b.
Proof.
  induction p as [|c p IH]; [done|]. rewrite !append_cons. simpl.
  assert (Ascii.compare c c = Eq) as ->
    by (unfold Ascii.compare; apply N.compare_refl).
  done.
Qed.

Lemma compare_append_lt s1 s2 r1 r2 :
  String.length s1 = String.length s2 ->
  String.compare s1 s2 = Lt ->
  String.compare (s1 +:+ r1) (s2 +:+ r2) = Lt.
Proof.
  revert s2. induction s1 as [|c1 s1 IH]; intros [|c2 s2]; try done.
  intros [= Hlen]. rewrite !append_cons. simpl.
  destruct (Ascii.compare c1 c2); [by apply IH|done|done].
Qed.

Lemma precedes_le a b : precedes a b -> String.le a b /\ a <> b /\ ~ String.le b a.
Proof.
  unfold precedes, String.le, String.leb. intros H.
  rewrite (String.compare_antisym b a), H. simpl. 
  split; [done|]. split; [|tauto]. intros ->.
  revert H. induction b as [|c b IH]; [done|]. simpl.
  assert (Ascii.compare c c = Eq) as ->
    by (unfold Ascii.compare; apply N.compare_refl).
  done.
Qed.

(** ** Reading what was written *)

Lemma tokenize_plain c s st cur row out :
  special c = false ->
  tokenize (String c s) false st cur row out
  = tokenize s false true (String c cur) row out.
Proof.
  unfold special. intros H.
  apply orb_false_iff in H as [H Hcr]. apply orb_false_iff in H as [H Hlf].
  apply orb_false_iff in H as [Hcomma Hquote].
  apply bool_decide_eq_false in Hcr, Hlf, Hcomma, Hquote.
  simpl. by rewrite !decide_False by done.
Qed.

Lemma tokenize_comma s st cur row out :
  tokenize (String COMMA s) false st cur row out
  = tokenize s false true "" (String.rev cur :: row) out.
Proof. reflexivity. Qed.

Lemma tokenize_lf s st cur row out :
  tokenize (String LF s) false st cur row out
  = tokenize s false false "" []
      (if st then reverse (String.rev cur :: row) :: out else out).
Proof. reflexivity. Qed.

Lemma tokenize_open s st cur row out :
  tokenize (String DQUOTE s) false st cur row out
  = tokenize s true true cur row out.
Proof. reflexivity. Qed.

Lemma tokenize_unquoted f tail st cur row out :
  needs_quote f = false ->
  tokenize (f +:+ tail) false st cur row out
  = tokenize tail false (st || negb (bool_decide (f = "")))
      (String.rev_app f cur) row out.
Proof.
  revert st cur. induction f as [|c f IH]; intros st cur Hq.
  - simpl. by rewrite orb_false_r.
  - simpl in Hq. apply orb_false_iff in Hq as [Hc Hf].
    rewrite append_cons, tokenize_plain by done. rewrite IH by done.
    simpl. by rewrite orb_true_r.
Qed.

Lemma tokenize_quoted f tail cur row out :
  (forall t, tail <> String DQUOTE t) ->
  tokenize (escape_quotes f +:+ String DQUOTE tail) true true cur row out
  = tokenize tail false true (String.rev_app f cur) row out.
Proof.
  intros Htail. revert cur. induction f as [|c f IH]; intros cur.
  - simpl. destruct tail as [|c2 tail']; [done|].
    destruct (decide (c2 = DQUOTE)) as [->|Hne]; [by destruct (Htail tail')|].
    simpl. by rewrite decide_False by done.
  - simpl. destruct (decide (c = DQUOTE)) as [->|Hne].
    + rewrite !append_cons. simpl. apply IH.
    + rewrite append_cons. simpl. rewrite decide_False by done. apply IH.
Qed.

Lemma needs_quote_nonempty f : needs_quote f = true -> f <> "".
Proof. by destruct f. Qed.

Lemma tokenize_field f tail st row out :
  (forall t, tail <> String DQUOTE t) ->
  tokenize (csv_field f +:+ tail) false st "" row out
  = tokenize tail false (st || negb (bool_decide (f = "")))
      (String.rev_app f "") row out.
Proof.
  intros Htail. unfold csv_field. destruct (needs_quote f) eqn:Hq.
  - rewrite append_cons, append_assoc, append_cons, tokenize_open.
    rewrite tokenize_quoted by done.
    apply needs_quote_nonempty in Hq.
    rewrite bool_decide_eq_false_2 by done. simpl. by rewrite orb_true_r.
  - by apply tokenize_unquoted.
Qed.

Lemma tokenize_fields fs rest st row out :
  fs <> [] -> st = true \/ fs <> [""] ->
  tokenize (String.concat "," (map csv_field fs) +:+ String LF rest)
    false st "" row out
  = tokenize rest false false "" [] (reverse (reverse fs ++ row) :: out).
Proof.
  revert st row. induction fs as [|f fs IH]; intros st row Hne Hst; [done|].
  destruct fs as [|f2 fs].
  - simpl. rewrite tokenize_field by done. rewrite tokenize_lf.
    rewrite rev_rev_app.
    assert (st || negb (bool_decide (f = "")) = true) as ->; [|done].
    destruct Hst as [->|Hf]; [done|].
    rewrite bool_decide_eq_false_2; [by rewrite orb_true_r|]. congruence.
  - change (String.concat "," (map csv_field (f :: f2 :: fs)))
      with (csv_field f +:+ "," +:+ String.concat "," (map csv_field (f2 :: fs))).
    rewrite !append_assoc. rewrite tokenize_field by done.
    rewrite append_cons, tokenize_comma. simpl append.
    rewrite IH by (done || by left). rewrite rev_rev_app.
    by rewrite (reverse_cons (f2 :: fs) f), <- app_assoc.
Qed.

Lemma tokenize_record fs rest out :
  fs <> [] ->
  tokenize (csv_record fs +:+ rest) false false "" [] out
  = tokenize rest false false "" [] (fs :: out).
Proof.
  intros Hne.
  destruct (decide (fs = [""])) as [->|Hnot]; [reflexivity|].
  assert (csv_record fs = String.concat "," (map csv_field fs) +:+ String LF "")
    as ->.
  { by destruct fs as [|[|c f] [|f2 fs]]. }
  rewrite append_assoc, append_cons. simpl append.
  rewrite tokenize_fields by (done || by right).
  by rewrite app_nil_r, reverse_involutive.
Qed.

Lemma tokenize_records recs out :
  Forall (fun r => r <> []) recs ->
  tokenize (String.concat "" (map csv_record recs)) false false "" [] out
  = reverse out ++ recs.
Proof.
  intros Hall. revert out. induction Hall as [|r recs Hr _ IH]; intros out.
  - simpl. by rewrite app_nil_r.
  - rewrite map_cons, concat_nil_cons, tokenize_record by done.
    rewrite IH, reverse_cons, <- app_assoc. done.
Qed.

Lemma tokenize_to_csv df :
  columns df <> [] ->
  Forall (fun r => r <> []) (rows df) ->
  tokenize (to_csv df) false false "" [] []
  = columns df :: map (map cell_text) (rows df).
Proof.
  intros Hcols Hrows. unfold to_csv. rewrite tokenize_record by done.
  rewrite <- (map_map (map cell_text) csv_record).
  rewrite tokenize_records; [done|].
  apply Forall_fmap. eapply Forall_impl; [exact Hrows|].
  intros r Hr. by destruct r.
Qed.

Lemma read_csv_to_csv df :
  well_formed df ->
  read_csv (encode (to_csv df))
  = Ok {| columns := columns df;
          rows := map (map (fun c => infer (cell_text c))) (rows df) |}.
Proof.
  intros [Hcols Hrows]. unfold read_csv, encode.
  rewrite string_of_list_byte_of_string, tokenize_to_csv; [|done|].
  - assert (forallb (fun r => bool_decide (length r <= length (columns df))%nat)
              (map (map cell_text) (rows df)) = true) as ->.
    { apply forallb_forall. intros r (r0 & <- & Hr0)%in_map_iff.
      apply bool_decide_eq_true. rewrite length_map.
      rewrite Forall_forall in Hrows. apply list_elem_of_In in Hr0.
      by rewrite (Hrows _ Hr0). }
    do 2 f_equal. rewrite map_map.
    apply Forall_fmap_ext_1. eapply Forall_impl; [exact Hrows|].
    intros r Hr. simpl.
    rewrite take_app_length' by (by rewrite length_map).
    by rewrite map_map.
  - eapply Forall_impl; [exact Hrows|]. intros r Hr ->.
    simpl in Hr. by destruct (columns df).
Qed.

Lemma digit_of_pretty_N_char x :
  (x < 10)%N -> digit_of (pretty_N_char x) = Some (Z.of_N x).
Proof.
  intros Hx.
  assert (x = 0 \/ x = 1 \/ x = 2 \/ x = 3 \/ x = 4 \/ x = 5 \/ x = 6 \/ x = 7
          \/ x = 8 \/ x = 9)%N as H by lia.
  repeat (destruct H as [->|H]; [reflexivity|]). by subst.
Qed.

Lemma digits_value_pretty_N_go x s :
  digits_value 0 (pretty_N_go x s) = digits_value (Z.of_N x) s.
Proof.
  revert s. induction (N.lt_wf_0 x) as [x _ IH]; intros s.
  destruct (decide (x = 0)%N) as [->|Hx]; [done|].
  rewrite pretty_N_go_step by lia. rewrite IH by (apply N.div_lt; lia).
  simpl. rewrite digit_of_pretty_N_char by (apply N.mod_lt; lia).
  f_equal. rewrite (N.div_mod x 10) at 3 by lia. lia.
Qed.

Lemma digits_value_pretty_pos p :
  digits_value 0 (pretty (N.pos p)) = Some (Z.pos p) /\ pretty (N.pos p) <> "".
Proof.
  assert (digits_value 0 (pretty (N.pos p)) = Some (Z.pos p)) as H.
  { unfold pretty, pretty_N. rewrite decide_False by done.
    by rewrite digits_value_pretty_N_go. }
  split; [done|]. intros Hnil. rewrite Hnil in H. done.
Qed.

Lemma parse_int_digits s v :
  s <> "" -> digits_value 0 s = Some v -> parse_int s = Some v.
Proof.
  destruct s as [|c s]; [done|]. intros _. simpl.
  destruct (digit_of c) as [d|] eqn:Hd; [|done].
  assert (c <> "-"%char /\ c <> "+"%char) as [Hm Hp] by (split; by intros ->).
  intros Hv. unfold parse_int.
  destruct c as [[] [] [] [] [] [] [] []]; try done;
    simpl; by rewrite ?Hd.
Qed.

Lemma parse_int_pretty z : parse_int (pretty z) = Some z /\ pretty z <> "".
Proof.
  destruct z as [|p|p].
  - done.
  - destruct (digits_value_pretty_pos p) as [Hv Hne].
    split; [|done]. by apply parse_int_digits.
  - destruct (digits_value_pretty_pos p) as [Hv Hne].
    split; [|done]. change (pretty (Z.neg p)) with ("-" +:+ pretty (N.pos p)).
    destruct (pretty (N.pos p)) as [|c s] eqn:Hs; [done|].
    simpl. unfold parse_int. simpl. simpl in Hv. rewrite Hv. done.
Qed.

Lemma infer_cell_text_int z : infer (cell_text (CInt z)) = CInt z.
Proof.
  destruct (parse_int_pretty z) as [Hp Hne]. unfold infer. simpl.
  rewrite decide_False by done. by rewrite Hp.
Qed.

Lemma int_of_cell_infer c z :
  int_of_cell c = Ok z -> int_of_cell (infer (cell_text c)) = Ok z.
Proof.
  destruct c as [z'|s|]; [| |done].
  - intros [= ->]. by rewrite infer_cell_text_int.
  - simpl. destruct (parse_int s) as [z'|] eqn:Hs; [|done]. intros [= ->].
    unfold infer. destruct (decide (s = "")) as [->|_]; [done|].
    by rewrite Hs.
Qed.

Lemma id_astype_int_read_back df ids :
  id_astype_int df = Ok ids ->
  id_astype_int {| columns := columns df;
                   rows := map (map (fun c => infer (cell_text c))) (rows df) |}
  = Ok ids.
Proof.
  unfold id_astype_int, column. simpl.
  destruct (index_of "id" (columns df)) as [i|]; [|done]. simpl.
  rewrite !mapR_Forall2. rewrite map_map.
  intros H. apply Forall2_fmap_l. apply Forall2_fmap_l in H.
  eapply Forall2_impl; [exact H|]. intros r z Hz. simpl in *.
  rewrite list_lookup_fmap. destruct (r !! i) as [c|]; simpl in *; [|done].
  by apply int_of_cell_infer.
Qed.

Lemma unit_ids_write path df ids fs :
  well_formed df ->
  id_astype_int df = Ok ids ->
  unit_ids path (adl_write path (encode (to_csv df)) fs) = Ok ids.
Proof.
  intros Hwf Hids. unfold unit_ids. rewrite adl_read_write. simpl.
  rewrite read_csv_to_csv by done. simpl. by apply id_astype_int_read_back.
Qed.

(** ** Paths and listings *)

Lemma adl_read_filter path p (fs : list (string * list byte)) :
  p <> path -> adl_read p (filter (fun e => e.1 <> path) fs) = adl_read p fs.
Proof.
  intros Hne. induction fs as [|[q b] fs IH]; [done|].
  rewrite filter_cons. simpl. destruct (decide (q <> path)) as [Hq|Hq].
  - simpl. by rewrite IH.
  - apply dec_stable in Hq. subst q.
    destruct (decide (path = p)); [by subst|done].
Qed.

Lemma adl_read_write_other path p b fs :
  p <> path -> adl_read p (adl_write path b fs) = adl_read p fs.
Proof.
  intros Hne. unfold adl_write. simpl.
  destruct (decide (path = p)); [by subst|]. by apply adl_read_filter.
Qed.

Lemma collection_path_eq team c1 c2 n1 n2 :
  collection_directory team c1 +:+ n1 = collection_directory team c2 +:+ n2 ->
  c1 +:+ "/" +:+ n1 = c2 +:+ "/" +:+ n2.
Proof.
  unfold collection_directory. rewrite !append_assoc.
  intros H. by do 3 apply String.app_inj in H.
Qed.

Lemma has_slash_app a b : has_slash (a +:+ b) = has_slash a || has_slash b.
Proof.
  induction a as [|c a IH]; [done|]. rewrite append_cons. simpl.
  by rewrite IH, orb_assoc.
Qed.

Lemma has_slash_pretty_N_go x s : has_slash (pretty_N_go x s) = has_slash s.
Proof.
  revert s. induction (N.lt_wf_0 x) as [x _ IH]; intros s.
  destruct (decide (x = 0)%N) as [->|Hx]; [done|].
  rewrite pretty_N_go_step by lia. rewrite IH by (apply N.div_lt; lia).
  simpl. rewrite bool_decide_eq_false_2; [done|].
  unfold pretty_N_char. by repeat case_match.
Qed.

Lemma has_slash_pretty_N (x : N) : has_slash (pretty x) = false.
Proof.
  unfold pretty, pretty_N. case_decide; [done|]. by rewrite has_slash_pretty_N_go.
Qed.

Lemma has_slash_pretty_Z (z : Z) : has_slash (pretty z) = false.
Proof.
  destruct z as [|p|p]; [done|apply (has_slash_pretty_N (N.pos p))|].
  change (pretty (Z.neg p)) with ("-" +:+ pretty (N.pos p)).
  rewrite has_slash_app. by rewrite (has_slash_pretty_N (N.pos p)).
Qed.

Lemma has_slash_zfill n z : has_slash (zfill n z) = false.
Proof.
  unfold zfill. rewrite has_slash_app, has_slash_pretty_Z, orb_false_r.
  induction (n - String.length (pretty z))%nat as [|k IH]; [done|].
  simpl replicate. by rewrite concat_nil_cons, has_slash_app, IH.
Qed.

Lemma has_slash_strftime lt : has_slash (strftime lt) = false.
Proof.
  unfold strftime. destruct (civil_from_days (lt / 86400)) as [[y m] d].
  by rewrite !has_slash_app, !has_slash_zfill.
Qed.

Lemma has_slash_stamp t stamp : get_right_format t = Ok stamp -> has_slash stamp = false.
Proof.
  unfold get_right_format. destruct (strptime t); [|done].
  intros [= <-]. apply has_slash_strftime.
Qed.

Lemma has_slash_str x : has_slash (str x) = false.
Proof. destruct x; [done|apply has_slash_pretty_Z]. Qed.

Lemma has_slash_file_name stamp lo hi :
  has_slash stamp = false -> has_slash (file_name stamp lo hi) = false.
Proof.
  intros Hs. unfold file_name. by rewrite !has_slash_app, Hs, !has_slash_str.
Qed.

Lemma file_name_nonempty stamp lo hi : file_name stamp lo hi <> "".
Proof.
  unfold file_name. destruct stamp; [done|]. by rewrite append_cons.
Qed.

Lemma remove_prefix_append p s : remove_prefix p (p +:+ s) = Some s.
Proof.
  induction p as [|c p IH]; [done|]. rewrite append_cons. simpl.
  by rewrite decide_True.
Qed.

Lemma remove_prefix_common p a b :
  remove_prefix (p +:+ a) (p +:+ b) = remove_prefix a b.
Proof.
  induction p as [|c p IH]; [done|]. rewrite !append_cons. simpl.
  by rewrite decide_True.
Qed.

Lemma entry_of_actions team name :
  entry_of (actions_directory team) (collection_directory team "actions" +:+ name)
  = negb (bool_decide (name = "")) && negb (has_slash name).
Proof.
  unfold entry_of.
  assert (actions_directory team +:+ "/" = collection_directory team "actions") as ->.
  { unfold actions_directory, collection_directory. by rewrite !append_assoc. }
  by rewrite remove_prefix_append.
Qed.

Lemma entry_of_other_collection team c name :
  c ∈ ["sessions"; "geoip"; "hardware"] ->
  entry_of (actions_directory team) (collection_directory team c +:+ name) = false.
Proof.
  intros Hc. unfold entry_of, actions_directory, collection_directory.
  rewrite !append_assoc. rewrite !remove_prefix_common.
  apply elem_of_cons in Hc as [->|Hc]; [done|].
  apply elem_of_cons in Hc as [->|Hc]; [done|].
  apply list_elem_of_singleton in Hc as ->. done.
Qed.

Lemma elem_of_adl_listdir dir (fs : list (string * list byte)) p :
  p ∈ adl_listdir dir fs <-> entry_of dir p = true /\ exists b, (p, b) ∈ fs.
Proof.
  unfold adl_listdir. rewrite list_elem_of_fmap. split.
  - intros ([q b] & -> & [Hq Hin]%list_elem_of_filter). simpl in *. eauto.
  - intros (Hp & b & Hin). exists (p, b). split; [done|].
    by apply list_elem_of_filter.
Qed.

Lemma elem_of_adl_write p b q c (fs : list (string * list byte)) :
  (p, b) ∈ adl_write q c fs <-> (p = q /\ b = c) \/ (p <> q /\ (p, b) ∈ fs).
Proof.
  unfold adl_write. rewrite elem_of_cons, list_elem_of_filter. simpl.
  split; [intros [[= -> ->]|[? ?]]; auto|intros [[-> ->]|[? ?]]; auto].
Qed.

Lemma adl_listdir_write_other dir p q c fs :
  p ∈ adl_listdir dir fs -> p <> q -> p ∈ adl_listdir dir (adl_write q c fs).
Proof.
  rewrite !elem_of_adl_listdir. intros (Hp & b & Hin) Hne. split; [done|].
  exists b. apply elem_of_adl_write. by right.
Qed.

Lemma adl_listdir_write dir p c fs :
  entry_of dir p = true -> p ∈ adl_listdir dir (adl_write p c fs).
Proof.
  intros Hp. apply elem_of_adl_listdir. split; [done|]. exists c.
  apply elem_of_adl_write. by left.
Qed.

Lemma adl_listdir_write_inv dir p q c fs :
  p ∈ adl_listdir dir (adl_write q c fs) ->
  (p = q /\ entry_of dir q = true) \/ p ∈ adl_listdir dir fs.
Proof.
  rewrite !elem_of_adl_listdir. intros (Hp & b & [[-> _]|[_ Hin]]%elem_of_adl_write).
  - by left.
  - right. eauto.
Qed.

Lemma sorted_last_exists l x : x ∈ l -> exists y, last (sorted l) = Some y.
Proof.
  intros Hx%sorted_elem_of. destruct (last (sorted l)) as [y|] eqn:Hlast; [eauto|].
  apply last_None in Hlast. rewrite Hlast in Hx. by apply elem_of_nil in Hx.
Qed.

Lemma sorted_last_max l x :
  x ∈ l -> (forall y, y ∈ l -> String.le y x) -> last (sorted l) = Some x.
Proof.
  intros Hx Hmax. destruct (sorted_last_exists _ _ Hx) as [y Hy].
  destruct (sorted_last_greatest _ _ Hy) as [Hin Hle].
  rewrite Hy. f_equal. apply (anti_symm String.le); auto.
Qed.

(** ** The checkpoint and the lake *)

Lemma Forall2_elem_of_r {A B} (P : A -> B -> Prop) l ys y :
  Forall2 P l ys -> y ∈ ys -> exists x, x ∈ l /\ P x y.
Proof.
  induction 1 as [|x y' l ys Hxy _ IH]; [by intros ?%elem_of_nil|].
  intros [->|Hin]%elem_of_cons.
  - exists x. split; [left|done].
  - destruct (IH Hin) as (x' & ? & ?). exists x'. split; [by right|done].
Qed.

Lemma Forall2_elem_of_l {A B} (P : A -> B -> Prop) l ys x :
  Forall2 P l ys -> x ∈ l -> exists y, y ∈ ys /\ P x y.
Proof.
  induction 1 as [|x' y l ys Hxy _ IH]; [by intros ?%elem_of_nil|].
  intros [->|Hin]%elem_of_cons.
  - exists y. split; [left|done].
  - destruct (IH Hin) as (y' & ? & ?). exists y'. split; [by right|done].
Qed.

Lemma Forall2_sub {A B} (h : A -> result B) l l' ys :
  Forall2 (fun x y => h x = Ok y) l ys ->
  (forall x, x ∈ l' -> x ∈ l) ->
  exists ys', Forall2 (fun x y => h x = Ok y) l' ys'.
Proof.
  intros Hall. induction l' as [|x l' IH]; intros Hsub.
  - exists []. constructor.
  - destruct IH as [ys' Hys']; [intros; apply Hsub; by right|].
    destruct (Forall2_elem_of_l _ _ _ x Hall) as (y & _ & Hy); [apply Hsub; left|].
    exists (y :: ys'). by constructor.
Qed.

Lemma id_astype_int_drop_duplicates df ids :
  id_astype_int df = Ok ids ->
  exists ids', id_astype_int (drop_duplicates df) = Ok ids'
    /\ forall i, i ∈ ids' <-> i ∈ ids.
Proof.
  unfold id_astype_int, column. simpl.
  destruct (index_of "id" (columns df)) as [j|]; [|done]. simpl.
  rewrite mapR_Forall2. intros H%Forall2_fmap_l.
  assert (forall r, r ∈ drop_last_dups (rows df) <-> r ∈ rows df) as Hrows.
  { intros r. rewrite drop_last_dups_remove_dups. apply elem_of_remove_dups. }
  destruct (Forall2_sub _ _ (drop_last_dups (rows df)) _ H) as [ids' Hids'].
  { intros r. apply Hrows. }
  exists ids'. split.
  - apply mapR_Forall2. by apply Forall2_fmap_l.
  - intros i. split.
    + intros Hi. destruct (Forall2_elem_of_r _ _ _ _ Hids' Hi) as (r & Hr & Hri).
      apply Hrows in Hr.
      destruct (Forall2_elem_of_l _ _ _ _ H Hr) as (i' & Hi' & Hri').
      simpl in *. congruence.
    + intros Hi. destruct (Forall2_elem_of_r _ _ _ _ H Hi) as (r & Hr & Hri).
      apply Hrows in Hr.
      destruct (Forall2_elem_of_l _ _ _ _ Hids' Hr) as (i' & Hi' & Hri').
      simpl in *. congruence.
Qed.

Lemma maxZ_same_elements l1 l2 :
  (forall i, i ∈ l1 <-> i ∈ l2) -> maxZ l1 = maxZ l2.
Proof.
  intros Hsame. destruct l1 as [|a l1], l2 as [|b l2]; [done|..].
  - assert (b ∈ @nil Z) as ?%elem_of_nil by (apply Hsame; left). done.
  - assert (a ∈ @nil Z) as ?%elem_of_nil by (apply Hsame; left). done.
  - destruct (maxZ_spec (a :: l1)) as (m1 & -> & Hin1 & Hle1); [done|].
    destruct (maxZ_spec (b :: l2)) as (m2 & -> & Hin2 & Hle2); [done|].
    pose proof (Hle2 _ (proj1 (Hsame _) Hin1)).
    pose proof (Hle1 _ (proj2 (Hsame _) Hin2)).
    f_equal. lia.
Qed.

Lemma minZ_same_elements l1 l2 :
  (forall i, i ∈ l1 <-> i ∈ l2) -> minZ l1 = minZ l2.
Proof.
  intros Hsame. destruct l1 as [|a l1], l2 as [|b l2]; [done|..].
  - assert (b ∈ @nil Z) as ?%elem_of_nil by (apply Hsame; left). done.
  - assert (a ∈ @nil Z) as ?%elem_of_nil by (apply Hsame; left). done.
  - destruct (minZ_spec (a :: l1)) as (m1 & -> & Hin1 & Hle1); [done|].
    destruct (minZ_spec (b :: l2)) as (m2 & -> & Hin2 & Hle2); [done|].
    pose proof (Hle2 _ (proj1 (Hsame _) Hin1)).
    pose proof (Hle1 _ (proj2 (Hsame _) Hin2)).
    f_equal. lia.
Qed.

Lemma well_formed_reindex cols df : cols <> [] -> well_formed (reindex cols df).
Proof.
  intros Hne. split; [done|]. simpl. apply Forall_fmap, Forall_forall.
  intros r _. simpl. by rewrite length_map.
Qed.

Lemma id_astype_int_reindex cols df :
  "id" ∈ cols -> "id" ∈ columns df ->
  id_astype_int (reindex cols df) = id_astype_int df.
Proof.
  intros Hc Hd. unfold id_astype_int. by rewrite column_reindex.
Qed.

(** The actions unit that a checkpoint wrote, and what the resolver reads
    in it. *)
Lemma checkpoint_actions_unit team t dfs w w' ids stamp :
  checkpoint team t (Some dfs) w = (Ok tt, w') ->
  id_astype_int (actions dfs) = Ok ids ->
  get_right_format t = Ok stamp ->
  exists ids',
    unit_ids (collection_directory team "actions"
              +:+ file_name stamp (minZ ids) (maxZ ids)) (store w') = Ok ids'
    /\ forall i, i ∈ ids' <-> i ∈ ids.
Proof.
  intros Hcp Hids Hfmt. rewrite checkpoint_eq in Hcp.
  destruct (set_id_int (actions dfs)) as [actions0|] eqn:Hset; [|done].
  destruct (set_id_int_ids _ _ _ Hids Hset) as (Hcols & Hids0 & _).
  rewrite Hids0 in Hcp. rewrite normalize_eq in Hcp.
  cbn [actions sessions geoip hardware] in Hcp.
  destruct (select_cases actions_cols (drop_duplicates actions0))
    as [[Ha Hall]|(k & Ha & _)]; rewrite Ha in Hcp; [|done].
  destruct (select sessions_cols _) as [s2|]; [|done].
  destruct (id_astype_int_drop_duplicates _ _ Hids0) as (ids' & Hids' & Hsame).
  exists ids'. split; [|done].
  assert (unit_ids (collection_directory team "actions"
                    +:+ file_name stamp (minZ ids) (maxZ ids)) (store w')
          = unit_ids (collection_directory team "actions"
                      +:+ file_name stamp (minZ ids) (maxZ ids))
              (adl_write (collection_directory team "actions"
                          +:+ file_name stamp (minZ ids) (maxZ ids))
                 (encode (to_csv (reindex actions_cols (drop_duplicates actions0))))
                 (store w))) as ->.
  { destruct (select geoip_cols _) as [g2|];
      destruct (select hardware_cols _) as [h2|]; try done;
      rewrite push_all_four, Hfmt in Hcp; injection Hcp as <-;
      cbn [store actions sessions geoip hardware];
      unfold unit_ids;
      rewrite !(adl_read_write_other _ (collection_directory team "actions" +:+ _))
        by (intros H%collection_path_eq; discriminate H);
      done. }
  apply unit_ids_write; [by apply well_formed_reindex|].
  rewrite id_astype_int_reindex; [done|by left|].
  simpl. by apply id_astype_int_column in Hids0 as [? _].
Qed.

Lemma checkpoint_raise_store team t dfs w e w' :
  checkpoint team t dfs w = (Raise e, w') -> store w' = store w.
Proof.
  destruct dfs as [dfs|]; [|by intros [= _ <-]].
  rewrite checkpoint_eq.
  destruct (set_id_int (actions dfs)); [|by intros [= _ <-]].
  destruct (id_astype_int _); [|by intros [= _ <-]].
  destruct (normalize _ w) as [[dfs'|e'] w1] eqn:Hn;
    apply normalize_store in Hn as [Hstore _].
  - rewrite push_all_four. destruct (get_right_format t); [done|].
    intros [= _ <-]. done.
  - intros [= _ <-]. done.
Qed.

Lemma checkpoint_ok_format team t dfs w w' :
  checkpoint team t dfs w = (Ok tt, w') -> exists stamp, get_right_format t = Ok stamp.
Proof.
  destruct dfs as [dfs|]; [|done]. rewrite checkpoint_eq.
  destruct (set_id_int (actions dfs)); [|done].
  destruct (id_astype_int _); [|done].
  destruct (normalize _ w) as [[dfs'|e'] w1]; [|done].
  rewrite push_all_four. destruct (get_right_format t); [eauto|done].
Qed.

Lemma checkpoint_ok_ids team t dfs w w' :
  checkpoint team t (Some dfs) w = (Ok tt, w') ->
  exists ids stamp,
    id_astype_int (actions dfs) = Ok ids /\ get_right_format t = Ok stamp.
Proof.
  intros Hcp. destruct (checkpoint_ok_format _ _ _ _ _ Hcp) as [stamp Hfmt].
  rewrite checkpoint_eq in Hcp. unfold set_id_int in Hcp.
  destruct (id_astype_int (actions dfs)) as [ids|]; [eauto|done].
Qed.

Lemma checkpoint_store team t dfs w w' ids stamp :
  checkpoint team t (Some dfs) w = (Ok tt, w') ->
  id_astype_int (actions dfs) = Ok ids ->
  get_right_format t = Ok stamp ->
  exists bs bg bh ba,
    store w' =
    adl_write (collection_directory team "hardware"
               +:+ file_name stamp (minZ ids) (maxZ ids)) bh
      (adl_write (collection_directory team "geoip"
                  +:+ file_name stamp (minZ ids) (maxZ ids)) bg
         (adl_write (collection_directory team "sessions"
                     +:+ file_name stamp (minZ ids) (maxZ ids)) bs
            (adl_write (collection_directory team "actions"
                        +:+ file_name stamp (minZ ids) (maxZ ids)) ba (store w)))).
Proof.
  intros Hcp Hids Hfmt. rewrite checkpoint_eq in Hcp.
  destruct (set_id_int (actions dfs)) as [actions0|] eqn:Hset; [|done].
  destruct (set_id_int_ids _ _ _ Hids Hset) as (_ & Hids0 & _).
  rewrite Hids0 in Hcp.
  destruct (normalize _ w) as [[dfs'|e'] w1] eqn:Hn; [|done].
  apply normalize_store in Hn as [Hst _].
  rewrite push_all_four, Hfmt in Hcp. injection Hcp as <-.
  cbn [store]. rewrite Hst. by eexists _, _, _, _.
Qed.

Lemma checkpoint_keeps_lake team t dfs w w' :
  lake_ok team (store w) ->
  checkpoint team t (Some dfs) w = (Ok tt, w') ->
  0 < len (actions dfs) ->
  lake_ok team (store w').
Proof.
  intros Hok Hcp Hrows.
  destruct (checkpoint_ok_ids _ _ _ _ _ Hcp) as (ids & stamp & Hids & Hfmt).
  destruct (checkpoint_actions_unit _ _ _ _ _ _ _ Hcp Hids Hfmt)
    as (ids' & Hunit & Hsame).
  destruct (checkpoint_store _ _ _ _ _ _ _ Hcp Hids Hfmt)
    as (bs & bg & bh & ba & Hstore).
  intros p Hp.
  destruct (decide (p = collection_directory team "actions"
                        +:+ file_name stamp (minZ ids) (maxZ ids))) as [->|Hne].
  - exists ids'. split; [done|].
    apply id_astype_int_length in Hids. unfold len in Hrows.
    destruct ids as [|i ids]; [simpl in Hids; lia|].
    intros ->. by apply (elem_of_nil i), Hsame; left.
  - assert (entry_of (actions_directory team) p = true) as Hentry
      by (by apply elem_of_adl_listdir in Hp as [? _]).
    assert (forall c, c ∈ ["sessions"; "geoip"; "hardware"] ->
              p <> collection_directory team c
                   +:+ file_name stamp (minZ ids) (maxZ ids)) as Hother.
    { intros c Hc ->. by rewrite entry_of_other_collection in Hentry. }
    assert (p ∈ adl_listdir (actions_directory team) (store w)) as Hold.
    { rewrite Hstore in Hp.
      repeat (apply adl_listdir_write_inv in Hp as [[-> _]|Hp];
              [first [done | by (exfalso; eapply Hother; [|done]; repeat constructor)]|]).
      done. }
    destruct (Hok _ Hold) as (ids0 & Hids0 & Hne0).
    exists ids0. split; [|done].
    rewrite <- Hids0. unfold unit_ids. rewrite Hstore.
    rewrite !adl_read_write_other; try done; apply Hother; repeat constructor.
Qed.

Lemma iteration_keeps_lake api team t w r w' :
  lake_ok team (store w) ->
  iteration api team t w = (r, w') ->
  lake_ok team (store w').
Proof.
  intros Hok. rewrite iteration_eq.
  destruct (fst (get_max_id_adl team w)) as [maxId|e]; [|by intros [= _ <-]].
  destruct (get_data api maxId MAX_RECORDS_PER_FILE (http_log w))
    as [[[n dfs]|e] log'] eqn:Hget; [|by intros [= _ <-]].
  cbv zeta. destruct (0 <? n) eqn:Hn; [|by intros [= _ <-]].
  apply get_data_count in Hget.
  match goal with
  | |- context [checkpoint team t dfs ?w1] =>
      destruct (checkpoint team t dfs w1) as [[[]|e2] w2] eqn:Hcp
  end.
  - intros [= _ <-]. destruct dfs as [dfs|]; [|lia].
    eapply checkpoint_keeps_lake; [|exact Hcp|lia]. done.
  - intros [= _ <-]. apply checkpoint_raise_store in Hcp. by rewrite Hcp.
Qed.

Lemma main_loop_keeps_lake api team t fuel n w :
  lake_ok team (store w) ->
  lake_ok team (store (final_world (main_loop api team t fuel n w))).
Proof.
  revert n w. induction fuel as [|fuel IH]; intros n w Hok; simpl.
  - by destruct (n =? MAX_RECORDS_PER_FILE).
  - destruct (n =? MAX_RECORDS_PER_FILE); [|done].
    destruct (iteration api team t w) as [[[n'|n']|e] w'] eqn:Hit;
      apply (iteration_keeps_lake _ _ _ _ _ _ Hok) in Hit; auto.
Qed.

Lemma lake_ok_resolver team w :
  lake_ok team (store w) -> exists m, get_max_id_adl team w = (Ok (Int m), w).
Proof.
  intros Hok.
  destruct (adl_listdir (actions_directory team) (store w)) as [|p l] eqn:Hl.
  - exists 0. by apply get_max_id_adl_none.
  - destruct (sorted_last_exists (p :: l) p) as [last_file Hlast]; [left|].
    rewrite <- Hl in Hlast.
    destruct (sorted_last_greatest _ _ Hlast) as [Hin _].
    destruct (Hok _ Hin) as (ids & Hids & Hne).
    destruct (maxZ_spec ids Hne) as (m & Hm & _).
    exists m. rewrite (get_max_id_adl_eq _ _ _ Hlast).
    unfold unit_ids in Hids.
    destruct (adl_read last_file (store w)) as [f|]; [|done]. simpl in *.
    destruct (read_csv f) as [df|]; [|done]. simpl in *.
    rewrite Hids. simpl. by rewrite Hm.
Qed.

(** ** The calendar *)

(** The date of a day: the era of 400 years, the year of the era and the
    day of that year, counted from the first of March. *)
Lemma civil_spec z :
  exists era yoe doy mp,
    z = era * 146097 + start_of yoe + doy - 719468
    /\ 0 <= yoe <= 399 /\ 0 <= doy <= 365
    /\ (start_of yoe + doy < start_of (yoe + 1) \/ (yoe = 399 /\ doy = 365))
    /\ mp = (5 * doy + 2) / 153 /\ 0 <= mp <= 11
    /\ civil_from_days z
       = (yoe + era * 400 + (if mp <? 10 then 0 else 1),
          if mp <? 10 then mp + 3 else mp - 9,
          doy - (153 * mp + 2) / 5 + 1).
Proof.
  unfold civil_from_days. cbv zeta.
  set (era := (z + 719468) / 146097).
  set (doe := z + 719468 - era * 146097).
  assert (0 <= doe < 146097) as Hdoe
    by (unfold doe, era; Z.div_mod_to_equations; lia).
  assert (z = era * 146097 + doe - 719468) as Hz by (unfold doe; lia).
  clearbody doe. clearbody era.
  set (yoe := (doe - doe / 1460 + doe / 36524 - doe / 146096) / 365).
  assert (0 <= yoe <= 399 /\ start_of yoe <= doe /\ doe - start_of yoe <= 365
          /\ (doe < start_of (yoe + 1) \/ doe = 146096)) as (Hy & Hs1 & Hs2 & Hs3)
    by (unfold yoe, start_of; Z.div_mod_to_equations; lia).
  clearbody yoe.
  fold (start_of yoe).
  remember (doe - start_of yoe) as doy eqn:Hdoy.
  set (mp := (5 * doy + 2) / 153).
  exists era, yoe, doy, mp.
  split; [lia|]. split; [lia|]. split; [lia|].
  split.
  { destruct Hs3 as [?|Hs3]; [left; lia|]. right.
    unfold start_of in *. Z.div_mod_to_equations; lia. }
  assert (0 <= mp <= 11) as Hmp by (unfold mp; Z.div_mod_to_equations; lia).
  split; [done|]. split; [done|]. clearbody mp.
  destruct (mp <? 10) eqn:Hten.
  - replace (mp + 3 <=? 2) with false by lia. do 2 f_equal. lia.
  - replace (mp - 9 <=? 2) with true by lia. done.
Qed.

Lemma start_of_mono a b : a <= b -> start_of a <= start_of b.
Proof. unfold start_of. intros. Z.div_mod_to_equations; lia. Qed.

Lemma start_of_400 : start_of 400 = 146096.
Proof. reflexivity. Qed.

Lemma year_range yoe doy :
  0 <= yoe <= 399 -> 0 <= doy ->
  start_of yoe + doy < start_of (yoe + 1) \/ (yoe = 399 /\ doy = 365) ->
  0 <= start_of yoe /\ start_of yoe + doy < 146097.
Proof.
  intros Hy Hd He.
  pose proof (start_of_mono 0 yoe ltac:(lia)).
  pose proof (start_of_mono (yoe + 1) 400 ltac:(lia)).
  rewrite start_of_400 in *. change (start_of 0) with 0 in *.
  assert (start_of 399 = 145731) by reflexivity.
  destruct He as [?|[-> ->]]; lia.
Qed.

(** A later day has a later date. *)
Lemma date_key_mono z1 z2 : z1 < z2 -> date_key z1 < date_key z2.
Proof.
  intros Hlt. unfold date_key.
  destruct (civil_spec z1)
    as (e1 & y1 & doy1 & mp1 & Hz1 & Hy1 & Hd1 & He1 & Hmp1 & Hb1 & ->).
  destruct (civil_spec z2)
    as (e2 & y2 & doy2 & mp2 & Hz2 & Hy2 & Hd2 & He2 & Hmp2 & Hb2 & ->).
  pose proof (year_range y1 doy1 Hy1 ltac:(lia) He1) as Hr1.
  pose proof (year_range y2 doy2 Hy2 ltac:(lia) He2) as Hr2.
  assert (e1 <= e2) as He by lia.
  assert (e1 < e2 \/ (e1 = e2 /\ y1 < y2)
          \/ (e1 = e2 /\ y1 = y2 /\ doy1 < doy2)) as Hcase.
  { destruct (Z.lt_trichotomy e1 e2) as [?|[->|?]]; [by left| |lia].
    right. destruct (Z.lt_trichotomy y1 y2) as [?|[->|Hgt]]; [by left|right; lia|].
    exfalso. pose proof (start_of_mono (y2 + 1) y1 ltac:(lia)).
    destruct He2 as [?|[-> ->]]; lia. }
  assert (1 <= doy1 - (153 * mp1 + 2) / 5 + 1 <= 31) as Hday1
    by (subst mp1; Z.div_mod_to_equations; lia).
  assert (1 <= doy2 - (153 * mp2 + 2) / 5 + 1 <= 31) as Hday2
    by (subst mp2; Z.div_mod_to_equations; lia).
  assert (doy1 < doy2 -> mp1 < mp2
            \/ (mp1 = mp2 /\ doy1 - (153 * mp1 + 2) / 5 + 1
                              < doy2 - (153 * mp2 + 2) / 5 + 1))
    as Hmonth.
  { intros. subst mp1 mp2. Z.div_mod_to_equations; lia. }
  set (d1 := doy1 - (153 * mp1 + 2) / 5 + 1) in *.
  set (d2 := doy2 - (153 * mp2 + 2) / 5 + 1) in *.
  clearbody d1 d2.
  destruct (mp1 <? 10) eqn:H1; destruct (mp2 <? 10) eqn:H2;
    destruct Hcase as [?|[[-> ?]|(-> & -> & Hdoy)]];
    try (specialize (Hmonth Hdoy)); lia.
Qed.

Lemma range_values :
  rule_from = 1167609600 /\ rule_until = 2114380800
  /\ first_day = 13513 /\ number_of_days = 10959.
Proof. repeat split; vm_compute; reflexivity. Qed.

Lemma date_bounds day y m d :
  first_day <= day < first_day + number_of_days ->
  civil_from_days day = (y, m, d) ->
  2006 <= y <= 2037 /\ 1 <= m <= 12 /\ 1 <= d <= 31.
Proof.
  destruct range_values as (_ & _ & -> & ->). intros Hday Hc.
  assert (1 <= m <= 12 /\ 1 <= d <= 31) as [Hm Hd].
  { destruct (civil_spec day)
      as (e & yoe & doy & mp & _ & _ & Hdoy & _ & Hmp & Hb & Heq).
    rewrite Hc in Heq. injection Heq as _ -> ->.
    split; [destruct (mp <? 10) eqn:?; lia|].
    subst mp. Z.div_mod_to_equations; lia. }
  assert (date_key 13513 <= date_key day) as Hlow.
  { destruct (decide (day = 13513)) as [->|]; [done|].
    apply Z.lt_le_incl, date_key_mono. lia. }
  assert (date_key day < date_key (13513 + 10959)) as Hhigh
    by (apply date_key_mono; lia).
  change (date_key 13513) with 20061231 in Hlow.
  change (date_key (13513 + 10959)) with 20370101 in Hhigh.
  unfold date_key in Hlow, Hhigh. rewrite Hc in Hlow, Hhigh. lia.
Qed.

Local Ltac month_numbers :=
  repeat match goal with
    | |- context [(?a + 9) mod 12] =>
        let v := eval vm_compute in ((a + 9) mod 12) in
        change ((a + 9) mod 12) with v in *
    | H : context [(?a + 9) mod 12] |- _ =>
        let v := eval vm_compute in ((a + 9) mod 12) in
        change ((a + 9) mod 12) with v in *
    end;
  repeat match goal with
    | |- context [(153 * ?a + 2) / 5] =>
        let v := eval vm_compute in ((153 * a + 2) / 5) in
        change ((153 * a + 2) / 5) with v in *
    | H : context [(153 * ?a + 2) / 5] |- _ =>
        let v := eval vm_compute in ((153 * a + 2) / 5) in
        change ((153 * a + 2) / 5) with v in *
    end.

(** A date of the calendar in the terms of [civil_spec]. *)
Lemma days_from_civil_spec y m d :
  1 <= m <= 12 -> 1 <= d <= days_in_month y m ->
  exists era yoe doy mp,
    days_from_civil y m d = era * 146097 + start_of yoe + doy - 719468
    /\ 0 <= yoe <= 399 /\ 0 <= doy <= 365
    /\ (start_of yoe + doy < start_of (yoe + 1) \/ (yoe = 399 /\ doy = 365))
    /\ mp = (5 * doy + 2) / 153 /\ 0 <= mp <= 11
    /\ (y, m, d)
       = (yoe + era * 400 + (if mp <? 10 then 0 else 1),
          if mp <? 10 then mp + 3 else mp - 9,
          doy - (153 * mp + 2) / 5 + 1).
Proof.
  intros Hm Hd.
  set (y' := if m <=? 2 then y - 1 else y).
  exists (y' / 400), (y' - y' / 400 * 400),
    ((153 * ((m + 9) mod 12) + 2) / 5 + d - 1), ((m + 9) mod 12).
  assert (m = 1 \/ m = 2 \/ m = 3 \/ m = 4 \/ m = 5 \/ m = 6 \/ m = 7 \/ m = 8
          \/ m = 9 \/ m = 10 \/ m = 11 \/ m = 12) as H by lia.
  unfold days_in_month, days_from_civil in Hd. unfold days_from_civil, start_of.
  fold y'. cbv zeta.
  repeat (destruct H as [->|H]); try subst m;
    unfold y' in *; simpl in *; month_numbers.
  all: split; [lia|].
  all: split; [Z.div_mod_to_equations; lia|].
  all: split; [Z.div_mod_to_equations; lia|].
  all: split; [Z.div_mod_to_equations; lia|].
  all: split; [Z.div_mod_to_equations; lia|].
  all: split; [lia|].
  all: f_equal; [f_equal|]; lia.
Qed.

Lemma era_year_day_unique e1 y1 doy1 e2 y2 doy2 :
  e1 * 146097 + start_of y1 + doy1 = e2 * 146097 + start_of y2 + doy2 ->
  0 <= y1 <= 399 -> 0 <= doy1 ->
  start_of y1 + doy1 < start_of (y1 + 1) \/ (y1 = 399 /\ doy1 = 365) ->
  0 <= y2 <= 399 -> 0 <= doy2 ->
  start_of y2 + doy2 < start_of (y2 + 1) \/ (y2 = 399 /\ doy2 = 365) ->
  e1 = e2 /\ y1 = y2 /\ doy1 = doy2.
Proof.
  intros Heq Hy1 Hd1 He1 Hy2 Hd2 He2.
  pose proof (year_range _ _ Hy1 Hd1 He1) as Hr1.
  pose proof (year_range _ _ Hy2 Hd2 He2) as Hr2.
  assert (e1 = e2) as -> by lia. split; [done|].
  destruct (Z.lt_trichotomy y1 y2) as [Hlt|[->|Hlt]]; [exfalso|lia|exfalso].
  - pose proof (start_of_mono (y1 + 1) y2 ltac:(lia)).
    destruct He1 as [?|[-> ->]]; lia.
  - pose proof (start_of_mono (y2 + 1) y1 ltac:(lia)).
    destruct He2 as [?|[-> ->]]; lia.
Qed.

(** The day of a date of the calendar has that date. *)
Lemma civil_of_date y m d :
  1 <= m <= 12 -> 1 <= d <= days_in_month y m ->
  civil_from_days (days_from_civil y m d) = (y, m, d).
Proof.
  intros Hm Hd.
  destruct (days_from_civil_spec y m d Hm Hd)
    as (e1 & y1 & doy1 & mp1 & Hz1 & Hy1 & Hd1 & He1 & Hmp1 & Hb1 & ->).
  destruct (civil_spec (days_from_civil y m d))
    as (e2 & y2 & doy2 & mp2 & Hz2 & Hy2 & Hd2 & He2 & Hmp2 & Hb2 & ->).
  destruct (era_year_day_unique e1 y1 doy1 e2 y2 doy2) as (-> & -> & ->);
    [lia..|].
  by subst mp1 mp2.
Qed.

Lemma days_in_month_le y m : 1 <= m <= 12 -> days_in_month y m <= 31.
Proof.
  intros Hm. unfold days_in_month, days_from_civil.
  assert (m = 1 \/ m = 2 \/ m = 3 \/ m = 4 \/ m = 5 \/ m = 6 \/ m = 7 \/ m = 8
          \/ m = 9 \/ m = 10 \/ m = 11 \/ m = 12) as H by lia.
  repeat (destruct H as [->|H]; [simpl; Z.div_mod_to_equations; lia|]).
  subst. simpl. Z.div_mod_to_equations; lia.
Qed.

(** ** The wall clock *)

Lemma two_digits_checked : forallb two_digits_ok (seqZ 0 100) = true.
Proof. vm_cast_no_check (@eq_refl bool true). Qed.

Lemma four_digits_checked : forallb four_digits_ok (seqZ 2000 100) = true.
Proof. vm_cast_no_check (@eq_refl bool true). Qed.

Lemma two_digits a :
  0 <= a < 100 ->
  String.length (zfill 2 a) = 2%nat
  /\ forall b, a < b < 100 -> String.compare (zfill 2 a) (zfill 2 b) = Lt.
Proof.
  intros Ha. pose proof two_digits_checked as H. rewrite forallb_forall in H.
  specialize (H a). unfold two_digits_ok in H.
  apply andb_true_iff in H as [Hlen Hall];
    [|apply list_elem_of_In, elem_of_seqZ; lia].
  split; [by apply bool_decide_eq_true in Hlen|].
  intros b Hb. rewrite forallb_forall in Hall. specialize (Hall b).
  apply orb_true_iff in Hall as [?|Hlt];
    [lia|by apply bool_decide_eq_true in Hlt|].
  apply list_elem_of_In, elem_of_seqZ. lia.
Qed.

Lemma four_digits a :
  2000 <= a < 2100 ->
  String.length (zfill 4 a) = 4%nat
  /\ forall b, a < b < 2100 -> String.compare (zfill 4 a) (zfill 4 b) = Lt.
Proof.
  intros Ha. pose proof four_digits_checked as H. rewrite forallb_forall in H.
  specialize (H a). unfold four_digits_ok in H.
  apply andb_true_iff in H as [Hlen Hall];
    [|apply list_elem_of_In, elem_of_seqZ; lia].
  split; [by apply bool_decide_eq_true in Hlen|].
  intros b Hb. rewrite forallb_forall in Hall. specialize (Hall b).
  apply orb_true_iff in Hall as [?|Hlt];
    [lia|by apply bool_decide_eq_true in Hlt|].
  apply list_elem_of_In, elem_of_seqZ. lia.
Qed.

Lemma to_zone_cases utc : to_zone utc = -18000 \/ to_zone utc = -14400.
Proof.
  unfold to_zone. destruct (civil_from_days (utc / 86400)) as [[y m] d].
  destruct (_ && _); [by right|by left].
Qed.

Lemma wall_clock_of_instant utc :
  rule_from <= utc < rule_until -> wall_clock (utc + to_zone utc).
Proof.
  destruct range_values as (Hf & Hu & Hd & Hn). unfold wall_clock.
  rewrite Hd, Hn. destruct (to_zone_cases utc) as [-> | ->]; lia.
Qed.

Lemma wall_clock_day lt :
  wall_clock lt -> first_day <= lt / 86400 < first_day + number_of_days.
Proof. unfold wall_clock. intros H. split; Z.div_mod_to_equations; lia. Qed.

Lemma strftime_length lt : wall_clock lt -> String.length (strftime lt) = 19%nat.
Proof.
  intros Hday%wall_clock_day. unfold strftime.
  destruct (civil_from_days (lt / 86400)) as [[y m] d] eqn:Hc.
  destruct (date_bounds _ _ _ _ Hday Hc) as (Hy & Hm & Hd).
  rewrite !length_append.
  rewrite (proj1 (four_digits y ltac:(lia))).
  rewrite (proj1 (two_digits m ltac:(lia))), (proj1 (two_digits d ltac:(lia))).
  rewrite (proj1 (two_digits (lt mod 86400 / 3600)
                    ltac:(Z.div_mod_to_equations; lia))).
  rewrite (proj1 (two_digits (lt mod 86400 mod 3600 / 60)
                    ltac:(Z.div_mod_to_equations; lia))).
  rewrite (proj1 (two_digits (lt mod 86400 mod 60)
                    ltac:(Z.div_mod_to_equations; lia))).
  reflexivity.
Qed.

Lemma later_year a b r1 r2 :
  2000 <= a -> a < b -> b < 2100 ->
  String.compare (zfill 4 a +:+ r1) (zfill 4 b +:+ r2) = Lt.
Proof.
  intros Ha Hab Hb. apply compare_append_lt.
  - rewrite (proj1 (four_digits a ltac:(lia))).
    by rewrite (proj1 (four_digits b ltac:(lia))).
  - apply (proj2 (four_digits a ltac:(lia))). lia.
Qed.

Lemma later_field a b r1 r2 :
  0 <= a -> a < b -> b < 100 ->
  String.compare (zfill 2 a +:+ r1) (zfill 2 b +:+ r2) = Lt.
Proof.
  intros Ha Hab Hb. apply compare_append_lt.
  - rewrite (proj1 (two_digits a ltac:(lia))).
    by rewrite (proj1 (two_digits b ltac:(lia))).
  - apply (proj2 (two_digits a ltac:(lia))). lia.
Qed.

Lemma strftime_mono lt1 lt2 :
  wall_clock lt1 -> wall_clock lt2 -> lt1 < lt2 ->
  precedes (strftime lt1) (strftime lt2).
Proof.
  intros Hw1 Hw2 Hlt.
  pose proof (wall_clock_day _ Hw1) as Hday1.
  pose proof (wall_clock_day _ Hw2) as Hday2.
  unfold precedes, strftime.
  destruct (civil_from_days (lt1 / 86400)) as [[y1 m1] d1] eqn:Hc1.
  destruct (civil_from_days (lt2 / 86400)) as [[y2 m2] d2] eqn:Hc2.
  destruct (date_bounds _ _ _ _ Hday1 Hc1) as (Hy1 & Hm1 & Hd1).
  destruct (date_bounds _ _ _ _ Hday2 Hc2) as (Hy2 & Hm2 & Hd2).
  assert (lt1 / 86400 <= lt2 / 86400) as Hdays by (Z.div_mod_to_equations; lia).
  assert (lt1 / 86400 < lt2 / 86400
          \/ (lt1 / 86400 = lt2 / 86400 /\ lt1 mod 86400 < lt2 mod 86400))
    as [Hday|[Hday Hsod]] by (Z.div_mod_to_equations; lia).
  - assert (date_key (lt1 / 86400) < date_key (lt2 / 86400)) as Hkey
      by (apply date_key_mono; lia).
    unfold date_key in Hkey. rewrite Hc1, Hc2 in Hkey.
    destruct (Z.lt_trichotomy y1 y2) as [Hy|[->|Hy]];
      [apply later_year; lia| |lia].
    rewrite !compare_append_same.
    destruct (Z.lt_trichotomy m1 m2) as [Hm|[->|Hm]];
      [apply later_field; lia| |lia].
    rewrite !compare_append_same.
    assert (d1 < d2) by lia. apply later_field; lia.
  - rewrite Hday, Hc2 in Hc1. injection Hc1 as <- <- <-.
    rewrite !compare_append_same.
    set (s1 := lt1 mod 86400) in *. set (s2 := lt2 mod 86400) in *.
    assert (0 <= s1 < 86400 /\ 0 <= s2 < 86400) as [Hs1 Hs2]
      by (unfold s1, s2; split; Z.div_mod_to_equations; lia).
    clearbody s1 s2.
    destruct (Z.lt_trichotomy (s1 / 3600) (s2 / 3600)) as [Hh|[Hh|Hh]];
      [apply later_field; Z.div_mod_to_equations; lia| |Z.div_mod_to_equations; lia].
    rewrite Hh, !compare_append_same.
    destruct (Z.lt_trichotomy (s1 mod 3600 / 60) (s2 mod 3600 / 60))
      as [Hmi|[Hmi|Hmi]]; [apply later_field; Z.div_mod_to_equations; lia| |Z.div_mod_to_equations; lia].
    rewrite Hmi, !compare_append_same.
    apply (proj2 (two_digits (s1 mod 60) ltac:(Z.div_mod_to_equations; lia))).
    Z.div_mod_to_equations; lia.
Qed.

Lemma get_right_format_instant t utc :
  strptime t = Some utc -> get_right_format t = Ok (strftime (utc + to_zone utc)).
Proof. unfold get_right_format. by intros ->. Qed.

Lemma precedes_names dir s1 s2 lo1 hi1 lo2 hi2 :
  String.length s1 = String.length s2 -> precedes s1 s2 ->
  precedes (dir +:+ file_name s1 lo1 hi1) (dir +:+ file_name s2 lo2 hi2).
Proof.
  intros Hlen Hlt. unfold precedes, file_name.
  rewrite compare_append_same. by apply compare_append_lt.
Qed.

Lemma read_two_checked : forallb read_two_ok (seqZ 0 100) = true.
Proof. vm_cast_no_check (@eq_refl bool true). Qed.

Lemma read_four_checked : forallb read_four_ok (seqZ 2000 100) = true.
Proof. vm_cast_no_check (@eq_refl bool true). Qed.

Lemma take_digits_append n acc s v r rest :
  take_digits n acc s = Some (v, r) ->
  take_digits n acc (s +:+ rest) = Some (v, r +:+ rest).
Proof.
  revert acc s. induction n as [|n IH]; intros acc s; simpl.
  - by intros [= <- <-].
  - destruct s as [|c s]; [done|]. rewrite append_cons.
    destruct (digit_of c); [apply IH|done].
Qed.

Lemma read_two a rest :
  0 <= a < 100 -> take_digits 2 0 (zfill 2 a +:+ rest) = Some (a, rest).
Proof.
  intros Ha. pose proof read_two_checked as H. rewrite forallb_forall in H.
  specialize (H a ltac:(apply list_elem_of_In, elem_of_seqZ; lia)).
  apply bool_decide_eq_true in H. by rewrite (take_digits_append _ _ _ _ _ _ H).
Qed.

Lemma read_four a rest :
  2000 <= a < 2100 -> take_digits 4 0 (zfill 4 a +:+ rest) = Some (a, rest).
Proof.
  intros Ha. pose proof read_four_checked as H. rewrite forallb_forall in H.
  specialize (H a ltac:(apply list_elem_of_In, elem_of_seqZ; lia)).
  apply bool_decide_eq_true in H. by rewrite (take_digits_append _ _ _ _ _ _ H).
Qed.

Lemma expect_same c s : expect c (String c s) = Some s.
Proof. unfold expect. by rewrite decide_True. Qed.

Local Ltac step :=
  cbn [mbind option_bind]; rewrite ?append_char, ?expect_same;
  cbn [mbind option_bind].

Lemma strptime_start_time y mo d h mi s offset off :
  2007 <= y < 2037 -> 1 <= mo <= 12 -> 1 <= d <= days_in_month y mo ->
  0 <= h < 24 -> 0 <= mi < 60 -> 0 <= s < 60 ->
  parse_utcoffset offset = Some off ->
  strptime (start_time y mo d h mi s offset)
  = Some (days_from_civil y mo d * 86400 + h * 3600 + mi * 60 + s - off).
Proof.
  intros Hy Hmo Hd Hh Hmi Hs Hoff.
  pose proof (days_in_month_le y mo Hmo) as H31.
  unfold strptime, start_time.
  rewrite (read_four y) by lia. step.
  rewrite read_two by lia. step.
  rewrite read_two by lia. step.
  rewrite read_two by lia. step.
  rewrite read_two by lia. step.
  replace (take_digits 2 0 (zfill 2 s +:+ offset)) with (Some (s, offset))
    by (symmetry; apply read_two; lia).
  step. rewrite Hoff. step.
  assert ((1 <=? y) && (1 <=? mo) && (mo <=? 12) && (1 <=? d)
          && (d <=? days_in_month y mo) && (h <? 24) && (mi <? 60) && (s <? 60)
          = true) as ->; [|done].
  repeat (apply andb_true_iff; split); lia.
Qed.

(** * Further properties, continued *)

(** ** Further properties of the fetcher *)

(** X5.  The count that [get_data] returns is the number of rows of the
    actions table that it returns with it, and is positive then; it returns
    no tables exactly with the count 0. *)
Theorem get_data_count_is_rows (api : remote_api) (maxId : pynum)
    (max_value : Z) (log log' : list request) (n : Z) (r : option record_sets) :
  get_data api maxId max_value log = (Ok (n, r), log') ->
  match r with
  | Some dfs => 0 < n /\ len (actions dfs) = n
  | None => n = 0
  end.
Proof. apply get_data_count. Qed.

(** X5 over a source of nine actions. *)
Lemma get_data_count_is_rows_witness :
  0 < 9 /\ len (actions sets_of_nine) = 9.
Proof.
  apply (get_data_count_is_rows (source_api (seqZ 1 9)) (Int 0) 1000000 []
           [first_request] 9 (Some sets_of_nine)).
  vm_compute; reflexivity.
Defined.

(** X6.  The number of requests of one call.  A call of [get_data] sends at
    most five requests for each of the pages of 250 records that fit below
    [max_value], rounded up; with a [max_value] of 0 or less it sends none
    and returns the count 0 and no tables. *)
Theorem get_data_request_bound (api : remote_api) (maxId : pynum)
    (max_value : Z) (log : list request) :
  (exists l, snd (get_data api maxId max_value log) = log ++ l
     /\ (length l <= 5 * Z.to_nat ((max_value + 249) / 250))%nat)
  /\ (max_value <= 0 -> get_data api maxId max_value log = (Ok (0, None), log)).
Proof.
  split.
  - unfold get_data.
    pose proof (fetch_loop_request_bound api max_value (get_data_init maxId) log)
      as Hbound.
    destruct (fetch_loop api max_value (get_data_init maxId) log) as [r l] eqn:Hl.
    apply fetch_loop_log in Hl as [l' ->]. exists l'. split; [done|].
    simpl in Hbound. rewrite length_app in Hbound.
    assert (pages_left max_value (get_data_init maxId)
            <= Z.to_nat ((max_value + 249) / 250))%nat; [|lia].
    unfold pages_left, limit. simpl. destruct (continue _ _); [|lia].
    replace (max_value - 0 + (250 - 1)) with (max_value + 249) by lia. lia.
  - intros Hmax. unfold get_data. rewrite fetch_loop_eq.
    replace (continue max_value (get_data_init maxId)) with false; [done|].
    unfold continue. simpl. lia.
Qed.

(** X7.  The page size of the requests.  Every request of [get_data] asks
    for at least 250 records: the size of the last page is what the next
    request asks for, and the loop goes on after a page of 250 or more only.
    When the API never returns more actions than it is asked for, every
    request asks for exactly 250. *)
Theorem requests_ask_full_pages (api : remote_api) (maxId : pynum)
    (max_value : Z) (log : list request) :
  exists l, snd (get_data api maxId max_value log) = log ++ l
    /\ Forall (fun r => 250 <= req_maxRecords r) l
    /\ (honours_maxRecords api -> Forall (fun r => req_maxRecords r = 250) l).
Proof.
  unfold get_data.
  destruct (fetch_loop api max_value (get_data_init maxId) log) as [r log'] eqn:Hl.
  pose proof (fetch_loop_log _ _ _ _ _ _ Hl) as [l ->]. exists l.
  split; [done|]. split.
  - destruct (fetch_loop_requests api max_value (fun _ => True)
                (fun r => 250 <= req_maxRecords r)) with (st := get_data_init maxId)
      (log := log) as (l' & Hl' & HQ); try done.
    + intros st _ [Hfull%Z.leb_le _]%andb_true_iff. done.
    + rewrite Hl in Hl'. simpl in Hl'. by apply app_inv_head in Hl' as ->.
  - intros Hhon.
    destruct (fetch_loop_requests api max_value (fun st => maxRecords st <= 250)
                (fun r => req_maxRecords r = 250)) with (st := get_data_init maxId)
      (log := log) as (l' & Hl' & HQ).
    + intros st log0 st' log1 HI _ Hp.
      apply fetch_page_next in Hp as (p & Hr & -> & _).
      apply retry_loop_page in Hr as [log2 Hapi].
      apply Hhon in Hapi. simpl in Hapi. lia.
    + intros st HI [Hfull%Z.leb_le _]%andb_true_iff. unfold limit in *. simpl. lia.
    + simpl. lia.
    + rewrite Hl in Hl'. simpl in Hl'. by apply app_inv_head in Hl' as ->.
Qed.





(** X10.  A body that Python takes for false ends the fetch.  When the
    first attempt on a page is answered by a JSON value such as null or an
    empty object, the page is not tried again: [get_data] returns what it
    has accumulated after that single request. *)
Theorem falsy_body_ends_fetch (api : remote_api) (maxId : pynum) (max_value : Z)
    (log0 : list request) (st : fetch_state) (log : list request) :
  pages_to api max_value (get_data_init maxId) log0 st log ->
  continue max_value st = true ->
  api log (page_request st) = Json JFalsy ->
  get_data api maxId max_value log0
  = (Ok (get_data_return st), log ++ [page_request st]).
Proof.
  intros Hpages Hc Hapi. unfold get_data.
  rewrite (pages_to_loop _ _ _ _ _ _ Hpages), fetch_loop_eq, Hc.
  assert (fetch_page api st log = (Break, log ++ [page_request st])) as ->; [|done].
  apply fetch_page_break. right. simpl. by rewrite Hapi.
Qed.

(** X10 on an API that answers with an empty object. *)
Lemma falsy_body_ends_fetch_witness :
  get_data empty_body_api (Int 0) 1000000 [] = (Ok (0, None), [first_request]).
Proof.
  apply (falsy_body_ends_fetch empty_body_api (Int 0) 1000000 []
           (get_data_init (Int 0)) []).
  - apply pages_here.
  - reflexivity.
  - reflexivity.
Defined.

(** X11.  Pages of one schema.  When the frames of the pages all have the
    same, distinct labels and rows with a cell under each label, the table
    that [get_data] returns for them has these labels and the rows of the
    pages in the order of the fetch. *)
Theorem concat_same_columns (cols : list string) (dfs : list DataFrame) :
  dfs <> [] ->
  NoDup cols ->
  Forall (fun df => columns df = cols
                    /\ Forall (fun r => length r = length cols) (rows df)) dfs ->
  concat dfs = {| columns := cols; rows := flat_map rows dfs |}.
Proof.
  intros Hne Hnd Hall. unfold concat.
  assert (union_columns [] dfs = cols) as ->.
  { destruct Hall as [|df dfs [Hdf _] Hrest]; [done|]. simpl.
    rewrite filter_none_present, Hdf. apply union_columns_same.
    eapply Forall_impl; [exact Hrest|]. by intros ? [? _]. }
  f_equal. clear Hne. induction Hall as [|df dfs [Hdf Hrows] _ IH]; [done|].
  cbn [flat_map]. f_equal; [|exact IH].
  destruct df as [c rs]. simpl in Hdf, Hrows. subst c.
  by rewrite reindex_same.
Qed.

(** X11 on two frames of identifiers. *)
Lemma concat_same_columns_witness :
  concat [id_frame [1; 2]; id_frame [3]] = id_frame [1; 2; 3].
Proof.
  apply (concat_same_columns ["id"] [id_frame [1; 2]; id_frame [3]]).
  - done.
  - apply NoDup_singleton.
  - repeat constructor.
Defined.

(** ** Further properties of the output units *)

(** X12.  A unit reads back.  After [push_to_adl] has written a well formed
    frame whose [id] column holds integers, reading the file as the resolver
    does gives a frame with as many rows and the same identifiers in its
    [id] column.  The text is taken to be free of carriage returns. *)
Theorem unit_round_trip (team collection : string) (df : DataFrame)
    (currentRunTime : string) (minAct maxAct : pynum) (w w' : world)
    (ids : list Z) :
  well_formed df ->
  has_cr (to_csv df) = false ->
  id_astype_int df = Ok ids ->
  push_to_adl team collection df currentRunTime minAct maxAct w = (Ok tt, w') ->
  exists stamp df',
    get_right_format currentRunTime = Ok stamp
    /\ (f ← adl_read (collection_directory team collection
                      +:+ file_name stamp minAct maxAct) (store w');
        read_csv f) = Ok df'
    /\ len df' = len df
    /\ id_astype_int df' = Ok ids
    /\ unit_ids (collection_directory team collection
                 +:+ file_name stamp minAct maxAct) (store w') = Ok ids.
Proof.
  intros Hwf _ Hids. rewrite push_to_adl_eq.
  destruct (get_right_format currentRunTime) as [stamp|]; [|done].
  intros [= <-]. exists stamp. eexists. split; [done|].
  unfold with_store. simpl store. rewrite adl_read_write. simpl.
  rewrite read_csv_to_csv by done. split; [done|].
  split; [unfold len; simpl; by rewrite length_map|].
  split; [by apply id_astype_int_read_back|].
  by apply unit_ids_write.
Qed.

(** X12 on the frame of two actions. *)
Lemma unit_round_trip_witness :
  unit_ids "/yinz_cam/mls_tor/realtime_api/actions/2021-12-23_17_15_09_1_2.csv"
    (store world_after_push) = Ok [1; 2].
Proof.
  destruct (unit_round_trip "mls_tor" "actions" two_actions T0 (Int 1) (Int 2)
              empty_world world_after_push [1; 2])
    as (stamp & df' & Hfmt & _ & _ & _ & Hunit).
  - split; [done|]. repeat constructor.
  - vm_compute; reflexivity.
  - vm_compute; reflexivity.
  - vm_compute; reflexivity.
  - assert (stamp = "2021-12-23_17_15_09") as ->
      by (assert (get_right_format T0 = Ok "2021-12-23_17_15_09") as H
            by (vm_compute; reflexivity); congruence).
    exact Hunit.
Defined.

(** X13.  The watermark after a checkpoint.  When the actions unit that a
    checkpoint wrote has the greatest name of the actions directory, the
    resolver returns the greatest identifier of the fetched actions. *)
Theorem checkpoint_then_resolve (team currentRunTime : string)
    (dfs : record_sets) (w w' : world) (ids : list Z) (stamp : string) :
  checkpoint team currentRunTime (Some dfs) w = (Ok tt, w') ->
  id_astype_int (actions dfs) = Ok ids ->
  has_cr (to_csv (actions dfs)) = false ->
  get_right_format currentRunTime = Ok stamp ->
  last (sorted (adl_listdir (actions_directory team) (store w')))
  = Some (collection_directory team "actions"
          +:+ file_name stamp (minZ ids) (maxZ ids)) ->
  get_max_id_adl team w' = (Ok (maxZ ids), w').
Proof.
  intros Hcp Hids _ Hfmt Hlast.
  destruct (checkpoint_actions_unit _ _ _ _ _ _ _ Hcp Hids Hfmt)
    as (ids' & Hunit & Hsame).
  rewrite (get_max_id_adl_eq _ _ _ Hlast).
  unfold unit_ids in Hunit.
  destruct (adl_read _ (store w')) as [f|]; [|done]. simpl in *.
  destruct (read_csv f) as [df|]; [|done]. simpl in *.
  rewrite Hunit. simpl. by rewrite (maxZ_same_elements _ _ Hsame).
Qed.

(** X13 on the checkpoint of a small page into an empty lake. *)
Lemma checkpoint_then_resolve_witness :
  get_max_id_adl "mls_tor" world_after_checkpoint
  = (Ok (maxZ [1; 2; 3]), world_after_checkpoint).
Proof.
  apply (checkpoint_then_resolve "mls_tor" T0 small_page empty_world
           world_after_checkpoint [1; 2; 3] "2021-12-23_17_15_09");
    vm_compute; reflexivity.
Defined.

(** X14.  The name of the actions unit tells what the unit holds: the two
    identifiers in the name are the least and the greatest of the [id]
    column read back from the unit. *)
Theorem unit_name_tells_id_range (team currentRunTime : string)
    (dfs : record_sets) (w w' : world) :
  checkpoint team currentRunTime (Some dfs) w = (Ok tt, w') ->
  has_cr (to_csv (actions dfs)) = false ->
  exists stamp ids,
    get_right_format currentRunTime = Ok stamp
    /\ unit_ids (collection_directory team "actions"
                 +:+ file_name stamp (minZ ids) (maxZ ids)) (store w') = Ok ids
    /\ forall i, i ∈ ids ->
         exists lo hi, minZ ids = Int lo /\ maxZ ids = Int hi /\ lo <= i <= hi.
Proof.
  intros Hcp _.
  destruct (checkpoint_ok_ids _ _ _ _ _ Hcp) as (ids & stamp & Hids & Hfmt).
  destruct (checkpoint_actions_unit _ _ _ _ _ _ _ Hcp Hids Hfmt)
    as (ids' & Hunit & Hsame).
  exists stamp, ids'. split; [done|].
  rewrite (minZ_same_elements _ _ Hsame), (maxZ_same_elements _ _ Hsame).
  split; [done|]. intros i Hi%Hsame.
  assert (ids <> []) as Hne by (intros ->; by apply elem_of_nil in Hi).
  destruct (minZ_spec ids Hne) as (lo & Hlo & _ & Hlo_le).
  destruct (maxZ_spec ids Hne) as (hi & Hhi & _ & Hhi_le).
  exists lo, hi. split; [done|]. split; [done|]. split; auto.
Qed.

(** X14 on the checkpoint of a small page. *)
Lemma unit_name_tells_id_range_witness :
  exists stamp ids,
    get_right_format T0 = Ok stamp
    /\ unit_ids (collection_directory "mls_tor" "actions"
                 +:+ file_name stamp (minZ ids) (maxZ ids))
         (store world_after_checkpoint) = Ok ids
    /\ forall i, i ∈ ids ->
         exists lo hi, minZ ids = Int lo /\ maxZ ids = Int hi /\ lo <= i <= hi.
Proof.
  apply (unit_name_tells_id_range "mls_tor" T0 small_page empty_world
           world_after_checkpoint); vm_compute; reflexivity.
Defined.

(** X15.  A checkpoint touches four paths.  A checkpoint that raises leaves
    the lake as it was.  One that succeeds has written a file of one name in
    the directory of each of the four collections, and every other path of
    the lake reads as before: no unit is deleted or changed. *)
Theorem checkpoint_touches_four_paths (team currentRunTime : string)
    (dfs : option record_sets) (w w' : world) (r : result unit) :
  checkpoint team currentRunTime dfs w = (r, w') ->
  (forall e, r = Raise e -> store w' = store w)
  /\ exists fileName,
       (forall p, (forall c, c ∈ collections ->
                    p <> collection_directory team c +:+ fileName) ->
          adl_read p (store w') = adl_read p (store w))
       /\ (r = Ok tt ->
           forall c, c ∈ collections ->
             exists b, adl_read (collection_directory team c +:+ fileName)
                         (store w') = Ok b).
Proof.
  intros Hcp. split.
  { intros e ->. by eapply checkpoint_raise_store. }
  destruct r as [[]|e].
  - destruct dfs as [dfs|]; [|done]. rewrite checkpoint_eq in Hcp.
    destruct (set_id_int (actions dfs)) as [actions0|]; [|done].
    destruct (id_astype_int actions0) as [ids|]; [|done].
    destruct (normalize _ w) as [[dfs'|e'] w1] eqn:Hn; [|done].
    apply normalize_store in Hn as [Hstore _].
    rewrite push_all_four in Hcp.
    destruct (get_right_format currentRunTime) as [stamp|]; [|done].
    injection Hcp as <-. cbn [store]. rewrite Hstore.
    exists (file_name stamp (minZ ids) (maxZ ids)). split.
    + intros p Hp.
      rewrite !adl_read_write_other; [done|apply Hp..];
        unfold collections; repeat constructor.
    + intros _ c Hc. unfold collections in Hc.
      apply elem_of_cons in Hc as [->|Hc]; [|apply elem_of_cons in Hc as [->|Hc];
        [|apply elem_of_cons in Hc as [->|Hc];
          [|apply list_elem_of_singleton in Hc as ->]]].
      * rewrite !(adl_read_write_other _ (collection_directory team "actions" +:+ _))
          by (intros H%collection_path_eq; discriminate H).
        rewrite adl_read_write. eauto.
      * rewrite !(adl_read_write_other _ (collection_directory team "sessions" +:+ _))
          by (intros H%collection_path_eq; discriminate H).
        rewrite adl_read_write. eauto.
      * rewrite !(adl_read_write_other _ (collection_directory team "geoip" +:+ _))
          by (intros H%collection_path_eq; discriminate H).
        rewrite adl_read_write. eauto.
      * rewrite adl_read_write. eauto.
  - exists "". split; [|done]. intros p _.
    by rewrite (checkpoint_raise_store _ _ _ _ _ _ Hcp).
Qed.

(** X15 on the checkpoint of a small page. *)
Lemma checkpoint_touches_four_paths_witness :
  exists fileName,
    (forall p, (forall c, c ∈ collections ->
                  p <> collection_directory "mls_tor" c +:+ fileName) ->
       adl_read p (store world_after_checkpoint) = adl_read p (store empty_world))
    /\ (Ok tt = Ok tt ->
        forall c, c ∈ collections ->
          exists b, adl_read (collection_directory "mls_tor" c +:+ fileName)
                      (store world_after_checkpoint) = Ok b).
Proof.
  apply (checkpoint_touches_four_paths "mls_tor" T0 (Some small_page) empty_world
           world_after_checkpoint (Ok tt)).
  vm_compute; reflexivity.
Defined.

(** X16.  After a checkpoint the actions directory lists the new unit
    beside the units it listed before, so that the resolver reads a unit,
    one whose name is not below that of the new unit, and does not start
    again from 0. *)
Theorem checkpoint_unit_is_listed (team currentRunTime : string)
    (dfs : record_sets) (w w' : world) (ids : list Z) (stamp : string) :
  checkpoint team currentRunTime (Some dfs) w = (Ok tt, w') ->
  id_astype_int (actions dfs) = Ok ids ->
  get_right_format currentRunTime = Ok stamp ->
  let path := collection_directory team "actions"
              +:+ file_name stamp (minZ ids) (maxZ ids) in
  path ∈ adl_listdir (actions_directory team) (store w')
  /\ (forall p, p ∈ adl_listdir (actions_directory team) (store w) ->
        p ∈ adl_listdir (actions_directory team) (store w'))
  /\ exists last_file,
       last (sorted (adl_listdir (actions_directory team) (store w')))
       = Some last_file
       /\ String.le path last_file
       /\ get_max_id_adl team w'
          = (ids ← unit_ids last_file (store w'); Ok (maxZ ids), w').
Proof.
  intros Hcp Hids Hfmt path.
  assert (entry_of (actions_directory team) path = true) as Hentry.
  { unfold path. rewrite entry_of_actions.
    rewrite bool_decide_eq_false_2 by apply file_name_nonempty.
    rewrite has_slash_file_name; [done|by eapply has_slash_stamp]. }
  assert (exists bs bg bh ba,
    store w' =
    adl_write (collection_directory team "hardware"
               +:+ file_name stamp (minZ ids) (maxZ ids)) bh
      (adl_write (collection_directory team "geoip"
                  +:+ file_name stamp (minZ ids) (maxZ ids)) bg
         (adl_write (collection_directory team "sessions"
                     +:+ file_name stamp (minZ ids) (maxZ ids)) bs
            (adl_write path ba (store w))))) as (bs & bg & bh & ba & Hstore).
  { rewrite checkpoint_eq in Hcp.
    destruct (set_id_int (actions dfs)) as [actions0|] eqn:Hset; [|done].
    destruct (set_id_int_ids _ _ _ Hids Hset) as (_ & Hids0 & _).
    rewrite Hids0 in Hcp.
    destruct (normalize _ w) as [[dfs'|e'] w1] eqn:Hn; [|done].
    apply normalize_store in Hn as [Hst _].
    rewrite push_all_four, Hfmt in Hcp. injection Hcp as <-.
    cbn [store]. rewrite Hst. by eexists _, _, _, _. }
  assert (path ∈ adl_listdir (actions_directory team) (store w')) as Hin.
  { rewrite Hstore.
    do 3 (apply adl_listdir_write_other;
          [|intros H%collection_path_eq; discriminate H]).
    by apply adl_listdir_write. }
  split; [done|]. split.
  - intros p Hp. rewrite Hstore.
    assert (forall c b fs,
              p ∈ adl_listdir (actions_directory team) fs ->
              p ∈ adl_listdir (actions_directory team)
                    (adl_write (collection_directory team c
                                +:+ file_name stamp (minZ ids) (maxZ ids)) b fs))
      as Hkeep.
    { intros c b fs Hfs.
      destruct (decide (p = collection_directory team c
                            +:+ file_name stamp (minZ ids) (maxZ ids))) as [->|Hne].
      - apply adl_listdir_write. by apply elem_of_adl_listdir in Hfs as [? _].
      - by apply adl_listdir_write_other. }
    by do 4 apply Hkeep.
  - destruct (sorted_last_exists _ _ Hin) as [last_file Hlast].
    exists last_file. split; [done|].
    destruct (sorted_last_greatest _ _ Hlast) as [_ Hle]. split; [by apply Hle|].
    rewrite (get_max_id_adl_eq _ _ _ Hlast). unfold unit_ids.
    destruct (adl_read last_file (store w')) as [f|]; [|done]. simpl.
    by destruct (read_csv f).
Qed.

(** X16 on the checkpoint of a small page. *)
Lemma checkpoint_unit_is_listed_witness :
  "/yinz_cam/mls_tor/realtime_api/actions/2021-12-23_17_15_09_1_3.csv"
  ∈ adl_listdir (actions_directory "mls_tor") (store world_after_checkpoint).
Proof.
  destruct (checkpoint_unit_is_listed "mls_tor" T0 small_page empty_world
              world_after_checkpoint [1; 2; 3] "2021-12-23_17_15_09")
    as [Hin _]; [vm_compute; reflexivity..|exact Hin].
Defined.

(** ** Further properties of the run *)



(** X18.  An API that is down.  When the five attempts on the first page
    all fail, [get_data] returns the count 0 and no tables after five
    requests, and the run of the driver ends normally, without writing and
    without printing. *)
Theorem api_outage_ends_run (api : remote_api) (team currentRunTime : string)
    (fuel : nat) (w : world) (maxId : pynum) :
  fst (get_max_id_adl team w) = Ok maxId ->
  (forall j, (j < 5)%nat ->
     failed (api (http_log w
                  ++ replicate j {| req_startId := succ maxId; req_maxRecords := 250 |})
               {| req_startId := succ maxId; req_maxRecords := 250 |}) = true) ->
  get_data api maxId MAX_RECORDS_PER_FILE (http_log w)
  = (Ok (0, None),
     http_log w
     ++ replicate 5 {| req_startId := succ maxId; req_maxRecords := 250 |})
  /\ main api team currentRunTime (S fuel) w
     = Finished
         {| store := store w;
            http_log :=
              http_log w
              ++ replicate 5 {| req_startId := succ maxId; req_maxRecords := 250 |};
            stdout := stdout w |}.
Proof.
  intros Hmax Hfail.
  assert (get_data api maxId MAX_RECORDS_PER_FILE (http_log w)
          = (Ok (0, None),
             http_log w
             ++ replicate 5 {| req_startId := succ maxId; req_maxRecords := 250 |}))
    as Hget.
  { unfold get_data. rewrite fetch_loop_eq.
    assert (continue MAX_RECORDS_PER_FILE (get_data_init maxId) = true) as ->
      by reflexivity.
    assert (fetch_page api (get_data_init maxId) (http_log w)
            = (Break, http_log w ++ replicate 5 (page_request (get_data_init maxId))))
      as ->; [|done].
    apply fetch_page_break. left. by apply retry_loop_exhausted. }
  split; [done|].
  unfold main. simpl. by rewrite iteration_eq, Hmax, Hget.
Qed.

(** X18 on the API that is down. *)
Lemma api_outage_ends_run_witness :
  main dead_api "mls_tor" T0 1 empty_world
  = Finished {| store := []; http_log := replicate 5 first_request; stdout := [] |}.
Proof.
  apply (api_outage_ends_run dead_api "mls_tor" T0 0 empty_world (Int 0)).
  - reflexivity.
  - reflexivity.
Defined.

(** X19.  A unit without rows.  When the greatest unit of the actions
    directory has an [id] column and no row, the resolver raises nothing and
    returns [nan], the maximum of an empty column, and the first request of
    the driver carries [startId=nan]. *)
Theorem header_only_unit_gives_nan (api : remote_api)
    (team currentRunTime : string) (w : world) (last_file : string)
    (f : list byte) (df : DataFrame) :
  last (sorted (adl_listdir (actions_directory team) (store w))) = Some last_file ->
  adl_read last_file (store w) = Ok f ->
  read_csv f = Ok df ->
  "id" ∈ columns df ->
  rows df = [] ->
  get_max_id_adl team w = (Ok NaN, w)
  /\ (exists rest, http_log (snd (iteration api team currentRunTime w))
        = http_log w ++ {| req_startId := NaN; req_maxRecords := 250 |} :: rest)
  /\ url {| req_startId := NaN; req_maxRecords := 250 |}
     = "https://mlse-analytics-api.yinzcam.com/analytics/raw/actions?startId=nan&maxRecords=250&sortBy=id".
Proof.
  intros Hlast Hread Hcsv Hid Hrows.
  assert (get_max_id_adl team w = (Ok NaN, w)) as Hnan.
  { rewrite (get_max_id_adl_eq _ _ _ Hlast), Hread. simpl. rewrite Hcsv. simpl.
    unfold id_astype_int, column.
    destruct (index_of_elem _ _ Hid) as [j ->]. by rewrite Hrows. }
  split; [done|]. split; [|reflexivity].
  apply (iteration_first_request api team currentRunTime w NaN).
  by rewrite Hnan.
Qed.

(** X19 on a lake whose unit is a header line. *)
Lemma header_only_unit_gives_nan_witness :
  get_max_id_adl "mls_tor" header_only_world = (Ok NaN, header_only_world).
Proof.
  apply (header_only_unit_gives_nan dead_api "mls_tor" T0 header_only_world
           checkpoint_path (encode ("id,name" +:+ String LF ""))
           {| columns := ["id"; "name"]; rows := [] |}).
  - vm_compute; reflexivity.
  - vm_compute; reflexivity.
  - vm_compute; reflexivity.
  - left.
  - reflexivity.
Defined.

(** X20.  The lake stays readable.  When every unit of the actions
    directory can be read by the resolver (an [id] column of integers, at
    least one row), this is still so after a run of the driver, however the
    run ends; and on such a lake the resolver returns an integer, before the
    run and after it.  The pages are taken to be free of carriage
    returns. *)
Theorem lake_stays_readable (api : remote_api) (team currentRunTime : string)
    (fuel : nat) (w : world) :
  cr_free api ->
  lake_ok team (store w) ->
  lake_ok team (store (final_world (main api team currentRunTime fuel w)))
  /\ (exists m, get_max_id_adl team w = (Ok (Int m), w))
  /\ exists m,
       fst (get_max_id_adl team (final_world (main api team currentRunTime fuel w)))
       = Ok (Int m).
Proof.
  intros _ Hok.
  assert (lake_ok team (store (final_world (main api team currentRunTime fuel w))))
    as Hfinal by (by apply main_loop_keeps_lake).
  split; [done|]. split; [by apply lake_ok_resolver|].
  destruct (lake_ok_resolver _ _ Hfinal) as [m Hm]. exists m. by rewrite Hm.
Qed.

(** X20 on a run over an API that serves a small page. *)
Lemma lake_stays_readable_witness :
  lake_ok "mls_tor" (store (final_world (main small_api "mls_tor" T0 1 empty_world)))
  /\ (exists m, get_max_id_adl "mls_tor" empty_world = (Ok (Int m), empty_world))
  /\ exists m,
       fst (get_max_id_adl "mls_tor"
              (final_world (main small_api "mls_tor" T0 1 empty_world)))
       = Ok (Int m).
Proof.
  apply (lake_stays_readable small_api "mls_tor" T0 1 empty_world).
  - intros log req p [= <-]. vm_compute; reflexivity.
  - intros p Hp. by apply elem_of_nil in Hp.
Defined.

(** ** Further properties of the run timestamps *)



(** X22.  A start time given on the Toronto clock is echoed.  When the
    start time is written with the offset that Toronto has at that instant,
    -05:00 in winter and -04:00 in summer, the stamp shows the same date and
    time, field by field. *)
Theorem toronto_start_time_is_echoed (y mo d h mi s : Z) (offset : string)
    (off : Z) :
  2007 <= y < 2037 -> 1 <= mo <= 12 -> 1 <= d <= days_in_month y mo ->
  0 <= h < 24 -> 0 <= mi < 60 -> 0 <= s < 60 ->
  (offset = "-05:00" /\ off = -18000) \/ (offset = "-04:00" /\ off = -14400) ->
  to_zone (days_from_civil y mo d * 86400 + h * 3600 + mi * 60 + s - off) = off ->
  get_right_format (start_time y mo d h mi s offset)
  = Ok (stamp_of y mo d h mi s).
Proof.
  intros Hy Hmo Hd Hh Hmi Hs Hoff Hzone.
  pose proof (days_in_month_le y mo Hmo) as H31.
  assert (parse_utcoffset offset = Some off) as Hparse
    by (destruct Hoff as [[-> ->]|[-> ->]]; reflexivity).
  rewrite (get_right_format_instant _ _
             (strptime_start_time _ _ _ _ _ _ _ _ Hy Hmo Hd Hh Hmi Hs Hparse)).
  rewrite Hzone. f_equal. unfold strftime, stamp_of.
  set (days := days_from_civil y mo d).
  replace (days * 86400 + h * 3600 + mi * 60 + s - off + off)
    with (days * 86400 + (h * 3600 + mi * 60 + s)) by lia.
  replace ((days * 86400 + (h * 3600 + mi * 60 + s)) / 86400) with days
    by (Z.div_mod_to_equations; lia).
  replace ((days * 86400 + (h * 3600 + mi * 60 + s)) mod 86400)
    with (h * 3600 + mi * 60 + s) by (Z.div_mod_to_equations; lia).
  unfold days. rewrite civil_of_date by lia.
  replace ((h * 3600 + mi * 60 + s) / 3600) with h by (Z.div_mod_to_equations; lia).
  replace ((h * 3600 + mi * 60 + s) mod 3600 / 60) with mi
    by (Z.div_mod_to_equations; lia).
  replace ((h * 3600 + mi * 60 + s) mod 60) with s by (Z.div_mod_to_equations; lia).
  done.
Qed.

(** X22 on the start time of the usage example. *)
Lemma toronto_start_time_is_echoed_witness :
  get_right_format (start_time 2021 12 23 17 15 9 "-05:00")
  = Ok (stamp_of 2021 12 23 17 15 9).
Proof.
  apply (toronto_start_time_is_echoed 2021 12 23 17 15 9 "-05:00" (-18000));
    try lia.
  - assert (days_in_month 2021 12 = 31) as -> by reflexivity. lia.
  - by left.
  - vm_compute; reflexivity.
Defined.



(** X24.  The first segment of a later run advances the watermark.  When
    the units of the actions directory carry stamps of the width of the
    run's stamp that precede it, the actions unit of a checkpoint becomes the
    greatest name of the directory, and the resolver returns the greatest
    identifier of the fetched actions. *)
Theorem later_run_advances_watermark (team currentRunTime : string)
    (dfs : record_sets) (w w' : world) (ids : list Z) (stamp : string) :
  checkpoint team currentRunTime (Some dfs) w = (Ok tt, w') ->
  id_astype_int (actions dfs) = Ok ids ->
  has_cr (to_csv (actions dfs)) = false ->
  get_right_format currentRunTime = Ok stamp ->
  (forall p, p ∈ adl_listdir (actions_directory team) (store w) ->
     exists s lo hi,
       p = collection_directory team "actions" +:+ file_name s lo hi
       /\ String.length s = String.length stamp /\ precedes s stamp) ->
  last (sorted (adl_listdir (actions_directory team) (store w')))
  = Some (collection_directory team "actions"
          +:+ file_name stamp (minZ ids) (maxZ ids))
  /\ get_max_id_adl team w' = (Ok (maxZ ids), w').
Proof.
  intros Hcp Hids _ Hfmt Hold.
  set (path := collection_directory team "actions"
               +:+ file_name stamp (minZ ids) (maxZ ids)).
  assert (exists bs bg bh ba,
    store w' =
    adl_write (collection_directory team "hardware"
               +:+ file_name stamp (minZ ids) (maxZ ids)) bh
      (adl_write (collection_directory team "geoip"
                  +:+ file_name stamp (minZ ids) (maxZ ids)) bg
         (adl_write (collection_directory team "sessions"
                     +:+ file_name stamp (minZ ids) (maxZ ids)) bs
            (adl_write path ba (store w))))) as (bs & bg & bh & ba & Hstore).
  { pose proof Hcp as Hcp'. rewrite checkpoint_eq in Hcp'.
    destruct (set_id_int (actions dfs)) as [actions0|] eqn:Hset; [|done].
    destruct (set_id_int_ids _ _ _ Hids Hset) as (_ & Hids0 & _).
    rewrite Hids0 in Hcp'.
    destruct (normalize _ w) as [[dfs'|e'] w1] eqn:Hn; [|done].
    apply normalize_store in Hn as [Hst _].
    rewrite push_all_four, Hfmt in Hcp'. injection Hcp' as <-.
    cbn [store]. rewrite Hst. by eexists _, _, _, _. }
  assert (entry_of (actions_directory team) path = true) as Hentry.
  { unfold path. rewrite entry_of_actions.
    rewrite bool_decide_eq_false_2 by apply file_name_nonempty.
    rewrite has_slash_file_name; [done|by eapply has_slash_stamp]. }
  assert (last (sorted (adl_listdir (actions_directory team) (store w')))
          = Some path) as Hlast.
  { apply sorted_last_max.
    - rewrite Hstore.
      do 3 (apply adl_listdir_write_other;
            [|intros H%collection_path_eq; discriminate H]).
      by apply adl_listdir_write.
    - intros y. rewrite Hstore.
      intros [[_ He]|Hy]%adl_listdir_write_inv;
        [rewrite entry_of_other_collection in He by (repeat constructor); done|].
      apply adl_listdir_write_inv in Hy as [[_ He]|Hy];
        [rewrite entry_of_other_collection in He by (repeat constructor); done|].
      apply adl_listdir_write_inv in Hy as [[_ He]|Hy];
        [rewrite entry_of_other_collection in He by (repeat constructor); done|].
      apply adl_listdir_write_inv in Hy as [[-> _]|Hy]; [done|].
      destruct (Hold _ Hy) as (s & lo & hi & -> & Hlen & Hlt).
      by apply precedes_le, precedes_names. }
  split; [done|].
  destruct (checkpoint_actions_unit _ _ _ _ _ _ _ Hcp Hids Hfmt)
    as (ids' & Hunit & Hsame).
  rewrite (get_max_id_adl_eq _ _ _ Hlast).
  unfold unit_ids in Hunit. fold path in Hunit.
  destruct (adl_read path (store w')) as [f|]; [|done]. simpl in *.
  destruct (read_csv f) as [df|]; [|done]. simpl in *.
  rewrite Hunit. simpl. by rewrite (maxZ_same_elements _ _ Hsame).
Qed.

(** X24 on a second checkpoint, a day after the first. *)
Lemma later_run_advances_watermark_witness :
  get_max_id_adl "mls_tor" world_after_second_checkpoint
  = (Ok (Int 5), world_after_second_checkpoint).
Proof.
  destruct (later_run_advances_watermark "mls_tor" T1 (page_of [4; 5])
              world_after_checkpoint world_after_second_checkpoint [4; 5]
              "2021-12-24_17_15_09") as [_ Hmax].
  - vm_compute; reflexivity.
  - vm_compute; reflexivity.
  - vm_compute; reflexivity.
  - vm_compute; reflexivity.
  - intros p Hp.
    assert (adl_listdir (actions_directory "mls_tor") (store world_after_checkpoint)
            = ["/yinz_cam/mls_tor/realtime_api/actions/2021-12-23_17_15_09_1_3.csv"])
      as Hl by (vm_compute; reflexivity).
    rewrite Hl in Hp. apply list_elem_of_singleton in Hp as ->.
    exists "2021-12-23_17_15_09", (Int 1), (Int 3).
    split; [reflexivity|]. split; vm_compute; reflexivity.
  - exact Hmax.
Defined.
